(** * Pharmacy collection pipeline (desenvolvimento.py): a shallow embedding

    The development follows the layout of the script: Python strings and
    the string helpers the script relies on, the retrying fetcher
    [fetch_json], the enrichment helpers ([parse_address],
    [classify_company_size], [normalize_name], [process_pharmacy]), the
    incremental collection loop [collect_data], and the per-city table that
    [main] writes.

    Conventions.
    - A Python [str] is a list of Unicode code points ([pystr]).
    - A Python [dict] used as a map is a [gmap]; a Python [set] is a [gset].
    - JSON answers of the upstream services are typed the way the requests
      ask for them: a field is either absent ([None]) or carries a value of
      the type the service documents for it.
    - The network is a parameter ([world]): for each GET the script issues
      it tells how each attempt ends. [SEM] only bounds how many GETs are in
      flight and [asyncio.gather] returns its results in the order of its
      tasks, so a batch is a map over its ids and the interleaving of the
      tasks is not modelled.
    - Log lines are left out. *)

From Stdlib Require Import ZArith NArith QArith List String Ascii Lia Bool.
From stdpp Require Import gmap strings list fin_maps.
Import ListNotations.

Set Default Proof Using "Type".
Set Warnings "-clear-no-such-hyp".

(* ===================================================================== *)
(** ** Python strings *)
(* ===================================================================== *)

Abbreviation pychar := N (only parsing).
Abbreviation pystr := (list N) (only parsing).

Open Scope N_scope.

(** Source literals are written as Rocq strings, whose bytes are the UTF-8
    encoding of the text; [u] decodes them to code points. *)
Fixpoint utf8_decode (bs : list N) : pystr :=
  match bs with
  | [] => []
  | b :: r =>
    if b <? 128 then b :: utf8_decode r
    else if b <? 224 then
      match r with
      | c :: r' => ((b - 192) * 64 + (c - 128)) :: utf8_decode r'
      | _ => []
      end
    else if b <? 240 then
      match r with
      | c :: d :: r' =>
          ((b - 224) * 4096 + (c - 128) * 64 + (d - 128)) :: utf8_decode r'
      | _ => []
      end
    else
      match r with
      | c :: d :: e :: r' =>
          ((b - 240) * 262144 + (c - 128) * 4096 + (d - 128) * 64 + (e - 128))
            :: utf8_decode r'
      | _ => []
      end
  end.

Definition u (s : string) : pystr :=
  utf8_decode (List.map N_of_ascii (list_ascii_of_string s)).

(** [str.isspace] on one code point (CPython's [Py_UNICODE_ISSPACE]): the
    ASCII controls 0x09-0x0D and 0x1C-0x1F, the space, and the Unicode
    separators. The same class is what [\s] denotes in a [str] pattern. *)
Definition isspace (c : pychar) : bool :=
  ((9 <=? c) && (c <=? 13)) || ((28 <=? c) && (c <=? 32))
  || (c =? 133) || (c =? 160) || (c =? 5760)
  || ((8192 <=? c) && (c <=? 8202))
  || (c =? 8232) || (c =? 8233) || (c =? 8239) || (c =? 8287) || (c =? 12288).

Fixpoint lstrip (s : pystr) : pystr :=
  match s with
  | [] => []
  | c :: r => if isspace c then lstrip r else s
  end.

Definition rstrip (s : pystr) : pystr := rev (lstrip (rev s)).

(** [s.strip()] *)
Definition strip (s : pystr) : pystr := rstrip (lstrip s).

(** [s.split(sep)] for a one-character separator: never the empty list. *)
Fixpoint split (sep : pychar) (s : pystr) : list pystr :=
  match s with
  | [] => [[]]
  | c :: r =>
    if c =? sep then [] :: split sep r
    else match split sep r with
         | [] => [[c]]
         | p :: ps => (c :: p) :: ps
         end
  end.

(** [sep.join(parts)] *)
Fixpoint join (sep : pystr) (parts : list pystr) : pystr :=
  match parts with
  | [] => []
  | [p] => p
  | p :: ps => p ++ sep ++ join sep ps
  end.

Definition comma : pychar := 44.
Definition NA : pystr := Eval vm_compute in u "N/A".

(* ===================================================================== *)
(** ** The retrying fetcher: [fetch_json] *)
(* ===================================================================== *)

(** What one pass through the [try] block of [fetch_json] can do: hand back
    the decoded body, or raise. The three [except] clauses partition the
    exceptions ([ClientResponseError], [asyncio.TimeoutError], any other
    [Exception]). *)
Inductive attempt_result (A : Type) : Type :=
  | Payload (data : A)
  | ClientResponseError (status : Z)
  | TimeoutError
  | OtherException.
Arguments Payload {A} data.
Arguments ClientResponseError {A} status.
Arguments TimeoutError {A}.
Arguments OtherException {A}.

(** What the caller can observe of a call besides its result: the GETs it
    issued and the [asyncio.sleep]s it awaited, in order. *)
Inductive fetch_event : Type :=
  | Request (attempt : nat)
  | Sleep (seconds : Q).

(** [e.status in [429, 500, 502, 503, 504]] *)
Definition retryable_status (status : Z) : bool :=
  existsb (Z.eqb status) [429; 500; 502; 503; 504]%Z.

(** [backoff_factor * (2 ** attempt)] *)
Definition wait_time (backoff_factor : Q) (attempt : nat) : Q :=
  Qmult backoff_factor (inject_Z (2 ^ Z.of_nat attempt)).

(** The body of [for attempt in range(retries)], over the attempts still
    to run. [get attempt] is the behaviour of the [attempt]-th GET (the
    10 second timeout of the request shows as [TimeoutError]). Leaving the
    loop, by exhaustion or by [break], reaches [return {}], the empty dict
    [∅] of the payload type. *)
Fixpoint fetch_attempts {A : Type} `{Empty A}
    (get : nat -> attempt_result A) (backoff_factor : Q)
    (attempts : list nat) : A * list fetch_event :=
  match attempts with
  | [] => (∅, [])
  | attempt :: rest =>
    let retry :=
      let '(r, evs) := fetch_attempts get backoff_factor rest in
      (r, Request attempt :: Sleep (wait_time backoff_factor attempt) :: evs) in
    match get attempt with
    | Payload data => (data, [Request attempt])
    | ClientResponseError status =>
        if retryable_status status then retry else (∅, [Request attempt])
    | TimeoutError => retry
    | OtherException => retry
    end
  end.

Definition fetch_json_with {A : Type} `{Empty A}
    (get : nat -> attempt_result A) (retries : nat) (backoff_factor : Q)
    : A * list fetch_event :=
  fetch_attempts get backoff_factor (seq 0 retries).

(** The call every caller makes: [retries=3, backoff_factor=0.5]. *)
Definition default_retries : nat := 3.
Definition default_backoff : Q := Qmake 1 2.

Definition fetch_json {A : Type} `{Empty A} (get : nat -> attempt_result A)
    : A * list fetch_event :=
  fetch_json_with get default_retries default_backoff.

(* ===================================================================== *)
(** ** Upstream answers *)
(* ===================================================================== *)

(** A latitude or longitude as it reaches the table: a number, or text. *)
Inductive coord : Type :=
  | CNum (q : Q)
  | CText (s : pystr).

Record location_t : Type := { lat : option coord; lng : option coord }.
Record geometry_t : Type := { location : option location_t }.

(** The [result] object of a Places Details answer, restricted to the
    requested [fields]. *)
Record place_details : Type := {
  name : option pystr;
  formatted_address : option pystr;
  rating : option Q;
  formatted_phone_number : option pystr;
  types : option (list pystr);
  geometry : option geometry_t;
  user_ratings_total : option Z
}.

Record details_response : Type := {
  details_status : option pystr;
  result : option place_details
}.

Record candidate : Type := { place_id : pystr; candidate_name : pystr }.

Record search_response : Type := {
  search_status : option pystr;
  results : option (list candidate);
  next_page_token : option pystr
}.

Record search_item : Type := { link : pystr }.
Record custom_search_response : Type := { items : option (list search_item) }.

#[global] Instance place_details_empty : Empty place_details :=
  {| name := None; formatted_address := None; rating := None;
     formatted_phone_number := None; types := None; geometry := None;
     user_ratings_total := None |}.
#[global] Instance details_response_empty : Empty details_response :=
  {| details_status := None; result := None |}.
#[global] Instance search_response_empty : Empty search_response :=
  {| search_status := None; results := None; next_page_token := None |}.
#[global] Instance custom_search_response_empty : Empty custom_search_response :=
  {| items := None |}.

(** [not d] for the dicts above: true exactly on the empty dict. *)
Definition details_falsy (d : place_details) : bool :=
  match d with
  | Build_place_details None None None None None None None => true
  | _ => false
  end.

Definition search_falsy (d : search_response) : bool :=
  match d with
  | Build_search_response None None None => true
  | _ => false
  end.

Definition custom_search_falsy (d : custom_search_response) : bool :=
  match d with
  | Build_custom_search_response None => true
  | _ => false
  end.

(** [not s] for an optional string (an environment variable): unset or empty. *)
Definition str_falsy (s : option pystr) : bool :=
  match s with
  | None | Some [] => true
  | Some _ => false
  end.

(** The network and the configuration a run sees. Each GET is identified by
    the place in the run that issues it, so the same request may be
    answered differently at different times. *)
Inductive search_page : Type :=
  | FirstPage
  | NextPage (token : pystr).

Record world : Type := {
  CUSTOM_SEARCH_ENGINE_ID : option pystr;
  (* city, bairro, keyword, page *)
  places_search : pystr -> pystr -> pystr -> search_page
                  -> nat -> attempt_result search_response;
  (* city, place_id *)
  places_details : pystr -> pystr -> nat -> attempt_result details_response;
  (* city, place_id, company name *)
  custom_search : pystr -> pystr -> pystr
                  -> nat -> attempt_result custom_search_response
}.

(* ===================================================================== *)
(** ** Enrichment helpers *)
(* ===================================================================== *)

Definition k_route : pystr := Eval vm_compute in u "route".
Definition k_neighborhood : pystr := Eval vm_compute in u "neighborhood".
Definition k_locality : pystr := Eval vm_compute in u "locality".

(** [parse_address]: the three assignments run in order; the first
    [parts[i]] that is out of range raises [IndexError], which ends the
    [try] block and keeps the entries already stored. *)
Definition parse_address (formatted_address : pystr) : gmap pystr pystr :=
  let parts := split comma formatted_address in
  let address_components : gmap pystr pystr := ∅ in
  match parts !! 0%nat with
  | None => address_components
  | Some p0 =>
    let address_components := <[k_route := strip p0]> address_components in
    match parts !! 1%nat with
    | None => address_components
    | Some p1 =>
      let address_components :=
        <[k_neighborhood := strip p1]> address_components in
      match parts !! 2%nat with
      | None => address_components
      | Some p2 => <[k_locality := strip p2]> address_components
      end
    end
  end.

Definition Pequena : pystr := Eval vm_compute in u "Pequena".
Definition Media : pystr := Eval vm_compute in u "Média".
Definition Grande : pystr := Eval vm_compute in u "Grande".

(** [classify_company_size]; the argument is [None] or an integer count. *)
Definition classify_company_size (user_ratings_total : option Z) : pystr :=
  match user_ratings_total with
  | None => Pequena
  | Some n =>
    if (n =? 0)%Z then Pequena
    else if (100 <=? n)%Z then Grande
    else if (20 <=? n)%Z then Media
    else Pequena
  end.

(** [get_company_details], after its [fetch_json] call returned [data]. *)
Definition company_details_of (data : details_response) : place_details :=
  match result data with
  | None => ∅
  | Some r => r
  end.

Definition get_company_details (w : world) (city place_id : pystr)
    : place_details :=
  company_details_of (fst (fetch_json (places_details w city place_id))).

(** [get_social_media_links]. The query sent upstream is built from
    [normalize_name company_name]; the answer is whatever [custom_search]
    gives for this call. *)
Definition social_links_of (data : custom_search_response) : list pystr :=
  if custom_search_falsy data then []
  else match items data with
       | None => []
       | Some its => List.map link its
       end.

Definition get_social_media_links (w : world)
    (city place_id company_name : pystr) : list pystr :=
  if str_falsy (CUSTOM_SEARCH_ENGINE_ID w) then []
  else social_links_of
         (fst (fetch_json (custom_search w city place_id company_name))).

(** The dict [pharmacy_data] built by [process_pharmacy]. *)
Record pharmacy_data : Type := {
  PlaceID : pystr;
  Name : pystr;
  Address : pystr;
  Neighborhood : pystr;
  Street : pystr;
  City : pystr;
  Rating : Q;
  UserRatingsTotal : Z;
  Phone : pystr;
  Types : pystr;
  Category : pystr;
  Latitude : option coord;
  Longitude : option coord;
  SocialLinks : list pystr
}.

Definition Farmacia : pystr := Eval vm_compute in u "Farmácia".
Definition comma_space : pystr := Eval vm_compute in u ", ".

(** [d.get(key, default)] on a typed field. *)
Definition get_or {A : Type} (field : option A) (dflt : A) : A :=
  match field with
  | Some v => v
  | None => dflt
  end.

(** The record assembled from non-empty [details]. *)
Definition assemble (place_id : pystr) (details : place_details)
    (social_links : list pystr) : pharmacy_data :=
  let company_name := get_or (name details) NA in
  let formatted_address := get_or (formatted_address details) [] in
  let address_components := parse_address formatted_address in
  let types := get_or (types details) [] in
  let loc := get_or (location (get_or (geometry details) {| location := None |}))
                    {| lat := None; lng := None |} in
  {| PlaceID := place_id;
     Name := company_name;
     Address := formatted_address;
     Neighborhood := default NA (address_components !! k_neighborhood);
     Street := default NA (address_components !! k_route);
     City := default NA (address_components !! k_locality);
     Rating := get_or (rating details) (inject_Z 0);
     UserRatingsTotal := get_or (user_ratings_total details) 0%Z;
     Phone := get_or (formatted_phone_number details) NA;
     Types := join comma_space types;
     Category := Farmacia;
     Latitude := lat loc;
     Longitude := lng loc;
     SocialLinks := social_links |}.

(** [process_pharmacy], given what [get_company_details] returned. *)
Definition process_details (w : world) (city place_id : pystr)
    (details : place_details) : option pharmacy_data :=
  if details_falsy details then None
  else
    let company_name := get_or (name details) NA in
    let social_links :=
      if str_falsy (CUSTOM_SEARCH_ENGINE_ID w) then []
      else get_social_media_links w city place_id company_name in
    Some (assemble place_id details social_links).

Definition process_pharmacy (w : world) (place_id city : pystr)
    : option pharmacy_data :=
  process_details w city place_id (get_company_details w city place_id).

(* ===================================================================== *)
(** ** Search stage *)
(* ===================================================================== *)

Definition CIDADES_E_BAIRROS : list (pystr * list pystr) :=
  Eval vm_compute in
  [ (u "São Paulo",
     List.map u ["Jardim Paulista"; "Pinheiros"; "Vila Mariana"; "Moema";
                 "Brooklin"; "Itaim Bibi"; "Morumbi"; "Vila Prudente";
                 "Santana"; "Brooklin Novo"]%string);
    (u "Campinas",
     List.map u ["Cidade Universitária"; "Jardim Paulista"; "Barão Geraldo";
                 "Parque Prado"; "Nova Campinas"; "Sousas"; "Cambuí"]%string);
    (u "Ribeirão Preto",
     List.map u ["Centro"; "Jardim Universitário"; "Jardim Catarina";
                 "Jardim América"; "Vila Formosa"; "Jardim Petrópolis"]%string) ].

Definition KEYWORDS : list pystr :=
  Eval vm_compute in
  List.map u ["farmácia"; "drogaria"; "drugstore"; "farmácia de manipulação"]%string.

Definition OK : pystr := Eval vm_compute in u "OK".

(** One turn of [for keyword in KEYWORDS]: what it appends to
    [all_results]. *)
Definition search_keyword (w : world) (city bairro keyword : pystr)
    : list candidate :=
  let data := fst (fetch_json (places_search w city bairro keyword FirstPage)) in
  if search_falsy data then []
  else
    get_or (results data) []
    ++ match next_page_token data with
       | None => []
       | Some token =>
         let data_next :=
           fst (fetch_json (places_search w city bairro keyword (NextPage token))) in
         if negb (search_falsy data_next)
            && bool_decide (search_status data_next = Some OK)
         then get_or (results data_next) []
         else []
       end.

Definition search_pharmacies_by_bairro (w : world) (city bairro : pystr)
    : list candidate :=
  flat_map (search_keyword w city bairro) KEYWORDS.

(* ===================================================================== *)
(** ** Incremental state and the collection loop: [collect_data] *)
(* ===================================================================== *)

(** The file [processed_place_ids.json]: absent, or a JSON array. *)
Definition load_processed_place_ids (file : option (list pystr)) : gset pystr :=
  match file with
  | Some ids => list_to_set ids
  | None => ∅
  end.

(** [json.dump(list(place_ids), f)]: the new content of the file. *)
Definition save_processed_place_ids (place_ids : gset pystr) : list pystr :=
  elements place_ids.

(** The observable part of a run that the properties below are about: the
    detail requests it starts and the snapshots it writes. *)
Inductive run_event : Type :=
  | DetailsRequested (city place_id : pystr)
  | StateSaved (ids : list pystr).

Record run_state : Type := {
  processed_place_ids : gset pystr;
  all_companies : gmap pystr (list pharmacy_data);
  state_file : option (list pystr);
  trace : list run_event
}.

(** [for place in all_results_city: ... place_ids.add(pid)] *)
Definition unseen_place_ids (processed : gset pystr)
    (all_results_city : list candidate) : gset pystr :=
  foldl (fun (place_ids : gset pystr) place =>
           let pid := place_id place in
           if decide (pid ∈ processed) then place_ids
           else {[pid]} ∪ place_ids)
        ∅ all_results_city.

(** One turn of [for company in company_details]. *)
Definition record_company (city : pystr)
    (acc : gmap pystr (list pharmacy_data) * gset pystr)
    (company : option pharmacy_data)
    : gmap pystr (list pharmacy_data) * gset pystr :=
  match company with
  | None => acc
  | Some c =>
    (<[city := default [] (acc.1 !! city) ++ [c]]> acc.1,
     {[PlaceID c]} ∪ acc.2)
  end.

Definition all_results_of_city (w : world) (city : pystr) (bairros : list pystr)
    : list candidate :=
  flat_map (search_pharmacies_by_bairro w city) bairros.

(** The ids handed to the detail stage for one city. *)
Definition place_ids_of_city (w : world) (st : run_state)
    (city : pystr) (bairros : list pystr) : gset pystr :=
  unseen_place_ids (processed_place_ids st) (all_results_of_city w city bairros).

(** One turn of [for city, bairros in CIDADES_E_BAIRROS.items()].
    [asyncio.gather] returns the results in the order of the tasks, which
    is the iteration order of the set [place_ids] (here [elements]). *)
Definition collect_city (w : world) (st : run_state)
    (area : pystr * list pystr) : run_state :=
  let '(city, bairros) := area in
  let place_ids := place_ids_of_city w st city bairros in
  if decide (place_ids = ∅) then st
  else
    let batch := elements place_ids in
    let company_details :=
      List.map (fun place_id => process_pharmacy w place_id city) batch in
    let acc := foldl (record_company city)
                     (all_companies st, processed_place_ids st)
                     company_details in
    {| processed_place_ids := acc.2;
       all_companies := acc.1;
       state_file := Some (save_processed_place_ids acc.2);
       trace := trace st ++ List.map (DetailsRequested city) batch
                         ++ [StateSaved (save_processed_place_ids acc.2)] |}.

Definition start_state (file : option (list pystr)) : run_state :=
  {| processed_place_ids := load_processed_place_ids file;
     all_companies := ∅;
     state_file := file;
     trace := [] |}.

Definition collect_over (w : world) (areas : list (pystr * list pystr))
    (file : option (list pystr)) : run_state :=
  foldl (collect_city w) (start_state file) areas.

Definition collect_data (w : world) (file : option (list pystr)) : run_state :=
  collect_over w CIDADES_E_BAIRROS file.

(* ===================================================================== *)
(** ** The per-city table written by [main] *)
(* ===================================================================== *)

(** [DataFrame.drop_duplicates(subset=['Name', 'Address'])]: the first row
    of each (Name, Address) pair stays. *)
Fixpoint drop_duplicates_from (seen : list (pystr * pystr))
    (rows : list pharmacy_data) : list pharmacy_data :=
  match rows with
  | [] => []
  | r :: rest =>
    let key := (Name r, Address r) in
    if bool_decide (key ∈ seen) then drop_duplicates_from seen rest
    else r :: drop_duplicates_from (key :: seen) rest
  end.

Definition drop_duplicates (rows : list pharmacy_data) : list pharmacy_data :=
  drop_duplicates_from [] rows.

(** [pd.to_numeric(..., errors='coerce')] on one cell: [None] is NaN.
    [parse_text] is the library's reading of a text cell, [None] when the
    text is not a number. *)
Definition to_numeric (parse_text : pystr -> option Q) (cell : option coord)
    : option Q :=
  match cell with
  | None => None
  | Some (CNum q) => Some q
  | Some (CText s) => parse_text s
  end.

Record table_row : Type := {
  source : pharmacy_data;
  CompanySize : pystr;
  LatitudeNum : option Q;
  LongitudeNum : option Q
}.

(** [dropna(subset=['Latitude', 'Longitude'])] keeps the rows where both
    cells are numbers. *)
Definition has_coordinates (r : table_row) : bool :=
  match LatitudeNum r, LongitudeNum r with
  | Some _, Some _ => true
  | _, _ => false
  end.

Definition to_row (parse_text : pystr -> option Q) (r : pharmacy_data)
    : table_row :=
  {| source := r;
     CompanySize := classify_company_size (Some (UserRatingsTotal r));
     LatitudeNum := to_numeric parse_text (Latitude r);
     LongitudeNum := to_numeric parse_text (Longitude r) |}.

(** The rows serialised for one city. *)
Definition city_table (parse_text : pystr -> option Q)
    (farmacias : list pharmacy_data) : list table_row :=
  List.filter has_coordinates
    (List.map (to_row parse_text) (drop_duplicates farmacias)).

(* ===================================================================== *)
(** ** Name normalisation: [normalize_name] *)
(* ===================================================================== *)

(** [.encode('ASCII', 'ignore').decode('ASCII')] *)
Definition is_ascii (c : pychar) : bool := c <? 128.
Definition ascii_ignore (s : pystr) : pystr := List.filter is_ascii s.

(** [\w] on the ASCII text the patterns run on: letters, digits, [_]. *)
Definition is_word (c : pychar) : bool :=
  ((48 <=? c) && (c <=? 57)) || ((65 <=? c) && (c <=? 90))
  || (c =? 95) || ((97 <=? c) && (c <=? 122)).

(** Case folding of [re.IGNORECASE] on ASCII text. *)
Definition lower (c : pychar) : pychar :=
  if (65 <=? c) && (c <=? 90) then c + 32 else c.

(** The alternatives of the first pattern, in the order the pattern lists
    them: [Ltda\.], [Ltda], [EIRELI], [S\/A], [SA], [Limited], [Ltd]. *)
Definition LEGAL_SUFFIXES : list pystr :=
  Eval vm_compute in
  List.map u ["Ltda."; "Ltda"; "EIRELI"; "S/A"; "SA"; "Limited"; "Ltd"]%string.

(** A literal matched case-insensitively at the head of [s]: the rest. *)
Fixpoint match_literal (lit s : pystr) : option pystr :=
  match lit with
  | [] => Some s
  | p :: lit' =>
    match s with
    | c :: r => if lower p =? lower c then match_literal lit' r else None
    | [] => None
    end
  end.

Definition is_word_at (c : option pychar) : bool :=
  match c with
  | Some c => is_word c
  | None => false
  end.

(** [\b] between [prev] and [next]; the ends of the text count as
    non-word. *)
Definition word_boundary (prev next : option pychar) : bool :=
  xorb (is_word_at prev) (is_word_at next).

(** The first alternative that matches at the head of [s] and is followed
    by a word boundary: the length of the match. *)
Fixpoint first_alternative (alts : list pystr) (s : pystr) : option nat :=
  match alts with
  | [] => None
  | alt :: alts' =>
    match match_literal alt s with
    | Some rest =>
      if word_boundary (last alt) (head rest) then Some (length alt)
      else first_alternative alts' s
    | None => first_alternative alts' s
    end
  end.

(** [\b(Ltda\.|...|Ltd)\b] tried at one position, [prev] being the
    character before it. *)
Definition match_suffix_at (prev : option pychar) (s : pystr) : option nat :=
  if word_boundary prev (head s) then first_alternative LEGAL_SUFFIXES s
  else None.

(** [re.sub(pattern, '', name)]: left to right, a match is dropped and the
    scan resumes after it; [skip] counts the characters of the current
    match still to drop. *)
Fixpoint remove_suffixes (prev : option pychar) (skip : nat) (s : pystr)
    : pystr :=
  match s with
  | [] => []
  | c :: r =>
    match skip with
    | S k => remove_suffixes (Some c) k r
    | O =>
      match match_suffix_at prev s with
      | Some n => remove_suffixes (Some c) (pred n) r
      | None => c :: remove_suffixes (Some c) 0 r
      end
    end
  end.

(** [re.sub(r'[^\w\s]', '', name)] *)
Definition remove_punctuation (s : pystr) : pystr :=
  List.filter (fun c => is_word c || isspace c) s.

(** [re.sub(r'\s+', ' ', name)]; [in_run] tells that the previous character
    was whitespace. *)
Fixpoint collapse_whitespace (in_run : bool) (s : pystr) : pystr :=
  match s with
  | [] => []
  | c :: r =>
    if isspace c then
      if in_run then collapse_whitespace true r
      else 32 :: collapse_whitespace true r
    else c :: collapse_whitespace false r
  end.

(** [normalize_name]; [nfkd] is [unicodedata.normalize('NFKD', _)]. *)
Definition normalize_name (nfkd : pystr -> pystr) (name : pystr) : pystr :=
  match name with
  | [] => []
  | _ =>
    let name := ascii_ignore (nfkd name) in
    let name := remove_suffixes None 0 name in
    let name := remove_punctuation name in
    strip (collapse_whitespace false name)
  end.

(** NFKD on Latin-1 text. The decompositions of the code points below
    U+0100, as the Unicode character database gives them: the letters of
    U+00C0 to U+00FF become base letter and combining mark, the signs of
    U+00A0 to U+00BF that have a compatibility form take it, the others
    and all of ASCII stay. No code point below U+0100 is a combining
    mark, so on such text NFKD is the concatenation of these
    decompositions. Code points from U+0100 on are outside this table and
    are passed through: [nfkd_latin1] stands for NFKD on text below
    U+0100 only, which is the text the examples run [normalize_name]
    on. *)
Definition latin1_decomposition (c : pychar) : pystr :=
  let mark (k : N) : N :=
    match k with
    | 0 => 768 | 1 => 769 | 2 => 770 | 3 => 771 | 4 => 776 | _ => 778
    end in
  let cased (base : N) (l : N) : pystr :=
    (* [l] is the offset in the lower-case row 0xE0..0xFF *)
    if l <=? 5 then [base + 65; mark l]                 (* A *)
    else if l =? 7 then [base + 67; 807]                (* C cedilla *)
    else if (8 <=? l) && (l <=? 11) then
      [base + 69; mark (if l =? 11 then 4 else l - 8)]  (* E *)
    else if (12 <=? l) && (l <=? 15) then
      [base + 73; mark (if l =? 15 then 4 else l - 12)] (* I *)
    else if l =? 17 then [base + 78; 771]               (* N tilde *)
    else if (18 <=? l) && (l <=? 22) then [base + 79; mark (l - 18)] (* O *)
    else if (25 <=? l) && (l <=? 28) then
      [base + 85; mark (if l =? 28 then 4 else l - 25)] (* U *)
    else if l =? 29 then [base + 89; 769]               (* Y acute *)
    else [] in
  if (192 <=? c) && (c <=? 222) then
    match cased 0 (c - 192) with [] => [c] | d => d end
  else if (224 <=? c) && (c <=? 254) then
    match cased 32 (c - 224) with [] => [c] | d => d end
  else if c =? 255 then [121; 776]
  else if c =? 160 then [32]                  (* no-break space *)
  else if c =? 168 then [32; 776]             (* diaeresis *)
  else if c =? 170 then [97]                  (* feminine ordinal *)
  else if c =? 175 then [32; 772]             (* macron *)
  else if c =? 178 then [50]                  (* superscript two *)
  else if c =? 179 then [51]                  (* superscript three *)
  else if c =? 180 then [32; 769]             (* acute accent *)
  else if c =? 181 then [956]                 (* micro sign *)
  else if c =? 184 then [32; 807]             (* cedilla *)
  else if c =? 185 then [49]                  (* superscript one *)
  else if c =? 186 then [111]                 (* masculine ordinal *)
  else if c =? 188 then [49; 8260; 52]        (* one quarter *)
  else if c =? 189 then [49; 8260; 50]        (* one half *)
  else if c =? 190 then [51; 8260; 52]        (* three quarters *)
  else [c].

Definition nfkd_latin1 (s : pystr) : pystr := flat_map latin1_decomposition s.

(* ===================================================================== *)
(** ** Notions used by the statements *)
(* ===================================================================== *)

(** An attempt that failed with one of the conditions [fetch_json] retries:
    status 429, 500, 502, 503 or 504, a timeout, or any other exception. *)
Definition retryable {A : Type} (r : attempt_result A) : bool :=
  match r with
  | Payload _ => false
  | ClientResponseError status => retryable_status status
  | TimeoutError | OtherException => true
  end.

Definition succeeded {A : Type} (r : attempt_result A) : bool :=
  match r with
  | Payload _ => true
  | _ => false
  end.

(** The attempts a call issued, and the sleeps it took. *)
Definition requests (evs : list fetch_event) : list nat :=
  flat_map (fun e => match e with Request a => [a] | Sleep _ => [] end) evs.

Definition sleeps (evs : list fetch_event) : list Q :=
  flat_map (fun e => match e with Request _ => [] | Sleep q => [q] end) evs.

(** The events of [k] failed attempts, each followed by its backoff. *)
Definition retried (backoff_factor : Q) (k : nat) : list fetch_event :=
  flat_map (fun j => [Request j; Sleep (wait_time backoff_factor j)]) (seq 0 k).

(** The snapshots a run wrote, oldest first. *)
Definition snapshots (tr : list run_event) : list (list pystr) :=
  flat_map (fun e => match e with StateSaved ids => [ids] | _ => [] end) tr.

(** The place ids a run asked details for. *)
Definition detail_requests (tr : list run_event) : list pystr :=
  flat_map (fun e => match e with DetailsRequested _ pid => [pid] | _ => [] end) tr.

(** Every record a state holds, whatever its city. *)
Definition enriched (st : run_state) (c : pharmacy_data) : Prop :=
  exists city l, all_companies st !! city = Some l /\ c ∈ l.

(** The records a batch yields, in the order of the batch: the results of
    [asyncio.gather] that are not [None]. *)
Definition batch_records (w : world) (st : run_state)
    (city : pystr) (bairros : list pystr) : list pharmacy_data :=
  omap (fun pid => process_pharmacy w pid city)
       (elements (place_ids_of_city w st city bairros)).

(** A sequence of snapshots in which each one contains the earlier ones. *)
Definition ascending (l : list (list pystr)) : Prop :=
  forall (i j : nat) (s1 s2 : list pystr),
    (i <= j)%nat -> l !! i = Some s1 -> l !! j = Some s2 -> s1 ⊆ s2.

(** What holds between two areas of a run that started with the ids [seen]
    loaded: nothing was evicted, the file mirrors the set, no id of [seen]
    was sent to the detail stage or enriched again, and the snapshots
    written so far are contained in the set and in one another. *)
Definition run_invariant (seen : gset pystr) (st : run_state) : Prop :=
  seen ⊆ processed_place_ids st
  /\ load_processed_place_ids (state_file st) = processed_place_ids st
  /\ (forall pid, pid ∈ detail_requests (trace st) -> pid ∉ seen)
  /\ (forall c, enriched st c ->
        PlaceID c ∈ processed_place_ids st /\ PlaceID c ∉ seen)
  /\ (forall ids, ids ∈ snapshots (trace st) ->
        forall id, id ∈ ids -> id ∈ processed_place_ids st)
  /\ ascending (snapshots (trace st)).

(** Words, as [\w+] sees them, and the words the first pattern deletes. *)
Definition is_token (w : pystr) : Prop := w <> [] /\ Forall (fun c => is_word c = true) w.

Definition is_legal_suffix (w : pystr) : bool :=
  bool_decide (List.map lower w ∈
     List.map (List.map lower)
       (List.filter (forallb is_word) LEGAL_SUFFIXES)).

(** One alternative of the first pattern tried at the head of [s]: the
    literal, then the word boundary. *)
Definition try_alt (alt s : pystr) : bool :=
  match match_literal alt s with
  | Some rest => word_boundary (last alt) (head rest)
  | None => false
  end.

(** [w] is [lit] up to the case of the letters. *)
Definition spells (lit w : pystr) : bool :=
  bool_decide (List.map lower w = List.map lower lit).

(** What follows a word: a dot and then a word character; a slash, a
    letter A and then no word character. *)
Definition dot_then_word (rest : pystr) : bool :=
  match rest with
  | c :: rest' => (c =? 46) && is_word_at (head rest')
  | [] => false
  end.

Definition slash_a (rest : pystr) : bool :=
  match rest with
  | c :: d :: rest' =>
      (c =? 47) && (lower d =? 97) && negb (is_word_at (head rest'))
  | _ => false
  end.

(** The text after the first two substitutions of [normalize_name]. *)
Definition words_kept (s : pystr) : pystr :=
  remove_punctuation (remove_suffixes None 0 s).

(* ===================================================================== *)
(** ** A small upstream, to run the pipeline on *)
(* ===================================================================== *)

(** Three places are found in Sousas (Campinas) under the keyword
    "drogaria", after a timeout; two in Centro (Ribeirão Preto) under
    "farmácia", one of them again [p1]; nothing anywhere else. The details
    of [p1] arrive after one 503; the answer for [p2] has no [result]; [p3]
    has the address "N/A" and a latitude that is not a number; [p4] is
    plain; any other id gets a 404. *)
Definition demo_details (address : pystr) (latitude : coord) : place_details :=
  {| name := Some (u "Drogaria São João Ltda.");
     formatted_address := Some address;
     rating := Some (Qmake 9 2);
     formatted_phone_number := None;
     types := Some [u "pharmacy"; u "store"];
     geometry :=
       Some {| location :=
                 Some {| lat := Some latitude;
                         lng := Some (CNum (Qmake (-4689) 100)) |} |};
     user_ratings_total := Some 150%Z |}.

Definition demo_search (city bairro keyword : pystr) (page : search_page)
    (attempt : nat) : attempt_result search_response :=
  let nothing :=
    Payload {| search_status := Some (u "ZERO_RESULTS");
               results := Some [];
               next_page_token := None |} in
  match page with
  | NextPage _ => nothing
  | FirstPage =>
    if bool_decide (city = u "Campinas" /\ bairro = u "Sousas"
                    /\ keyword = u "drogaria")
    then
      match attempt with
      | O => TimeoutError
      | _ =>
        Payload {| search_status := Some OK;
                   results :=
                     Some [ {| place_id := u "p1"; candidate_name := u "A" |};
                            {| place_id := u "p2"; candidate_name := u "B" |};
                            {| place_id := u "p1"; candidate_name := u "A" |};
                            {| place_id := u "p3"; candidate_name := u "C" |} ];
                   next_page_token := None |}
      end
    else if bool_decide (city = u "Ribeirão Preto" /\ bairro = u "Centro"
                         /\ keyword = u "farmácia")
    then
      Payload {| search_status := Some OK;
                 results :=
                   Some [ {| place_id := u "p4"; candidate_name := u "D" |};
                          {| place_id := u "p1"; candidate_name := u "A" |} ];
                 next_page_token := None |}
    else nothing
  end.

Definition demo_place (city place_id : pystr) (attempt : nat)
    : attempt_result details_response :=
  if bool_decide (place_id = u "p1") then
    match attempt with
    | O => ClientResponseError 503
    | _ => Payload {| details_status := Some OK;
                      result := Some (demo_details
                                        (u "Rua A, 10 - Sousas, Campinas - SP, Brasil")
                                        (CNum (Qmake (-2291) 100))) |}
    end
  else if bool_decide (place_id = u "p2") then
    Payload {| details_status := Some (u "NOT_FOUND"); result := None |}
  else if bool_decide (place_id = u "p3") then
    Payload {| details_status := Some OK;
               result := Some (demo_details (u "N/A") (CText (u "abc"))) |}
  else if bool_decide (place_id = u "p4") then
    Payload {| details_status := Some OK;
               result := Some (demo_details (u "Av. B 20, Centro")
                                            (CNum (Qmake (-2117) 100))) |}
  else ClientResponseError 404.

Definition demo_world : world :=
  {| CUSTOM_SEARCH_ENGINE_ID := None;
     places_search := demo_search;
     places_details := demo_place;
     custom_search := fun _ _ _ _ => OtherException |}.

(** A reading of text cells that accepts nothing: enough for the example,
    whose only text cell is "abc". *)
Definition no_text_is_numeric (s : pystr) : option Q := None.

(* ===================================================================== *)
(** ** The files written by [main] *)
(* ===================================================================== *)

(** [s.replace(" ", "_")] *)
Definition replace_spaces (s : pystr) : pystr :=
  List.map (fun c => if c =? 32 then 95 else c) s.

Definition restaurantes_ : pystr := Eval vm_compute in u "restaurantes_".
Definition dot_json : pystr := Eval vm_compute in u ".json".

(** [f'restaurantes_{normalize_name(city)}.json'.replace(" ", "_")] *)
Definition output_filename (nfkd : pystr -> pystr) (city : pystr) : pystr :=
  replace_spaces (restaurantes_ ++ normalize_name nfkd city ++ dot_json).

(** [all_companies.items()]. A dict lists its keys in the order they were
    first inserted; [collect_data] inserts the key of a city when it
    appends the first record of the city, and goes through the cities in
    the order of [areas]. *)
Definition items_in_order (areas : list (pystr * list pystr))
    (companies : gmap pystr (list pharmacy_data))
    : list (pystr * list pharmacy_data) :=
  omap (fun area : pystr * list pystr =>
          (fun farmacias => (area.1, farmacias)) <$> companies !! area.1)
       areas.

(** [sum(len(farmacias) for farmacias in all_companies.values())] *)
Definition total_farmacias (items : list (pystr * list pharmacy_data)) : nat :=
  foldr (fun item n => (length item.2 + n)%nat) 0%nat items.

(** One turn of the loop of [main]: [open(filename, 'w')] replaces what the
    file held. The directory is a map from file names to contents. *)
Definition write_city (nfkd : pystr -> pystr) (parse_text : pystr -> option Q)
    (files : gmap pystr (list table_row))
    (item : pystr * list pharmacy_data) : gmap pystr (list table_row) :=
  <[output_filename nfkd item.1 := city_table parse_text item.2]> files.

(** [main]: the output files it writes, and the state it leaves. *)
Definition main (nfkd : pystr -> pystr) (parse_text : pystr -> option Q)
    (w : world) (file : option (list pystr))
    : gmap pystr (list table_row) * run_state :=
  let st := collect_data w file in
  if decide (all_companies st = ∅) then (∅, st)
  else (foldl (write_city nfkd parse_text) ∅
          (items_in_order CIDADES_E_BAIRROS (all_companies st)), st).

(** The labels of [classify_company_size], smallest first. *)
Definition size_rank (label : pystr) : nat :=
  if bool_decide (label = Grande) then 2
  else if bool_decide (label = Media) then 1
  else 0.

(** The (city, id) pairs a run asked details for, in order. *)
Definition detail_request_pairs (tr : list run_event) : list (pystr * pystr) :=
  flat_map (fun e => match e with
                     | DetailsRequested city pid => [(city, pid)]
                     | _ => []
                     end) tr.

(** The sum of the sleeps of a call, in seconds. *)
Definition total_sleep (evs : list fetch_event) : Q :=
  fold_right Qplus (inject_Z 0) (sleeps evs).

Close Scope N_scope.

(* ===================================================================== *)
(** * Properties of the fetcher *)
(* ===================================================================== *)

Section Fetcher.
Context {A : Type} `{Empty A}.
Variable get : nat -> attempt_result A.
Variable backoff_factor : Q.

Lemma retryable_status_spec (status : Z) :
  retryable_status status = true <->
  status ∈ [429; 500; 502; 503; 504]%Z.
Proof.
  unfold retryable_status. rewrite existsb_exists. split.
  - intros (x & Hin & Heq). apply Z.eqb_eq in Heq. subst x.
    by apply list_elem_of_In.
  - intros Hin. exists status. split; [by apply list_elem_of_In | apply Z.eqb_refl].
Qed.

Lemma fetch_attempts_retry (attempt : nat) (rest : list nat) :
  retryable (get attempt) = true ->
  fetch_attempts get backoff_factor (attempt :: rest) =
  ((fetch_attempts get backoff_factor rest).1,
   Request attempt :: Sleep (wait_time backoff_factor attempt)
     :: (fetch_attempts get backoff_factor rest).2).
Proof.
  intros Hr. simpl.
  destruct (fetch_attempts get backoff_factor rest) as [r evs].
  destruct (get attempt) as [d|status| |]; simpl in *; try done.
  by rewrite Hr.
Qed.

Lemma fetch_attempts_success (k : nat) :
  forall (start n : nat) (d : A),
    (k < n)%nat ->
    (forall j, (j < k)%nat -> retryable (get (start + j)) = true) ->
    get (start + k) = Payload d ->
    fetch_attempts get backoff_factor (seq start n) =
    (d, flat_map (fun j => [Request j; Sleep (wait_time backoff_factor j)])
          (seq start k) ++ [Request (start + k)]).
Proof.
  induction k as [|k IH]; intros start n d Hk Hfail Hok.
  - destruct n as [|n]; [lia|]. rewrite Nat.add_0_r in *. simpl.
    by rewrite Hok.
  - destruct n as [|n]; [lia|].
    change (seq start (S n)) with (start :: seq (S start) n).
    rewrite fetch_attempts_retry.
    2:{ specialize (Hfail 0%nat). rewrite Nat.add_0_r in Hfail. apply Hfail. lia. }
    rewrite (IH (S start) n d).
    + simpl. by rewrite Nat.add_succ_r.
    + lia.
    + intros j Hj. replace (S start + j)%nat with (start + S j)%nat by lia.
      apply Hfail. lia.
    + by replace (S start + k)%nat with (start + S k)%nat by lia.
Qed.

Lemma fetch_attempts_exhausted (n : nat) :
  forall start : nat,
    (forall j, (j < n)%nat -> retryable (get (start + j)) = true) ->
    fetch_attempts get backoff_factor (seq start n) =
    (∅, flat_map (fun j => [Request j; Sleep (wait_time backoff_factor j)])
          (seq start n)).
Proof.
  induction n as [|n IH]; intros start Hfail; [done|].
  change (seq start (S n)) with (start :: seq (S start) n).
  rewrite fetch_attempts_retry.
  2:{ specialize (Hfail 0%nat). rewrite Nat.add_0_r in Hfail. apply Hfail. lia. }
  rewrite IH; [done|].
  intros j Hj. replace (S start + j)%nat with (start + S j)%nat by lia.
  apply Hfail. lia.
Qed.

Lemma fetch_attempts_abort (k : nat) :
  forall (start n : nat) (status : Z),
    (k < n)%nat ->
    (forall j, (j < k)%nat -> retryable (get (start + j)) = true) ->
    get (start + k) = ClientResponseError status ->
    retryable_status status = false ->
    fetch_attempts get backoff_factor (seq start n) =
    (∅, flat_map (fun j => [Request j; Sleep (wait_time backoff_factor j)])
          (seq start k) ++ [Request (start + k)]).
Proof.
  induction k as [|k IH]; intros start n status Hk Hfail Herr Hno.
  - destruct n as [|n]; [lia|]. rewrite Nat.add_0_r in *. simpl.
    by rewrite Herr, Hno.
  - destruct n as [|n]; [lia|].
    change (seq start (S n)) with (start :: seq (S start) n).
    rewrite fetch_attempts_retry.
    2:{ specialize (Hfail 0%nat). rewrite Nat.add_0_r in Hfail. apply Hfail. lia. }
    rewrite (IH (S start) n status).
    + simpl. by rewrite Nat.add_succ_r.
    + lia.
    + intros j Hj. replace (S start + j)%nat with (start + S j)%nat by lia.
      apply Hfail. lia.
    + by replace (S start + k)%nat with (start + S k)%nat by lia.
    + done.
Qed.

(** No attempt succeeds: the result is the empty dict, whatever the
    failures are. *)
Lemma fetch_attempts_no_success (attempts : list nat) :
  (forall j, j ∈ attempts -> succeeded (get j) = false) ->
  (fetch_attempts get backoff_factor attempts).1 = ∅.
Proof.
  induction attempts as [|a rest IH]; intros Hno; [done|].
  assert (Ha : succeeded (get a) = false) by (apply Hno; left).
  assert (Hrest : (fetch_attempts get backoff_factor rest).1 = ∅).
  { apply IH. intros j Hj. apply Hno. by right. }
  simpl. destruct (fetch_attempts get backoff_factor rest) as [r evs].
  simpl in Hrest. subst r.
  destruct (get a) as [d|status| |]; simpl in *; try done.
  by destruct (retryable_status status).
Qed.

Lemma requests_retried (k : nat) :
  requests (retried backoff_factor k) = seq 0 k.
Proof.
  unfold retried. generalize 0%nat.
  induction k as [|k IH]; intros start; [done|].
  simpl. by rewrite IH.
Qed.

Lemma sleeps_retried (k : nat) :
  sleeps (retried backoff_factor k) =
  List.map (wait_time backoff_factor) (seq 0 k).
Proof.
  unfold retried. generalize 0%nat.
  induction k as [|k IH]; intros start; [done|].
  simpl. by rewrite IH.
Qed.
End Fetcher.

Lemma client_error_not_retryable (status : Z) :
  (400 <= status < 500)%Z -> status <> 429%Z -> retryable_status status = false.
Proof.
  intros Hrange Hne. destruct (retryable_status status) eqn:Hr; [|done].
  apply retryable_status_spec in Hr.
  repeat (apply elem_of_cons in Hr as [Hr|Hr]; [lia|]).
  by apply elem_of_nil in Hr.
Qed.

(** C1. Retry correctness of [fetch_json]: when attempt [k], below the
    attempt count, succeeds with payload [d], and every attempt before it
    failed with a retryable condition (status 429, 500, 502, 503 or 504, a
    timeout or another exception), the call returns [d]; it issued the
    attempts [0..k] and slept [backoff_factor * 2^j] seconds after each
    failed attempt [j]. The same holds for the call with the default
    arguments (3 attempts, factor 0.5). *)
Theorem fetch_json_retry_success {A : Type} `{Empty A}
    (get : nat -> attempt_result A) (retries : nat) (backoff_factor : Q)
    (k : nat) (d : A) :
  (k < retries)%nat ->
  (forall j, (j < k)%nat -> retryable (get j) = true) ->
  get k = Payload d ->
  fetch_json_with get retries backoff_factor
    = (d, retried backoff_factor k ++ [Request k])
  /\ requests (retried backoff_factor k ++ [Request k]) = seq 0 (S k)
  /\ sleeps (retried backoff_factor k ++ [Request k])
     = List.map (fun j => Qmult backoff_factor (inject_Z (2 ^ Z.of_nat j))) (seq 0 k)
  /\ (retries = default_retries -> backoff_factor = default_backoff ->
      fetch_json get = (d, retried default_backoff k ++ [Request k])).
Proof.
  intros Hk Hfail Hok.
  assert (Hrun : fetch_json_with get retries backoff_factor
                 = (d, retried backoff_factor k ++ [Request k])).
  { unfold fetch_json_with, retried.
    by rewrite (fetch_attempts_success get backoff_factor k 0 retries d). }
  split; [done|]. split; [|split].
  - unfold requests. rewrite flat_map_app. fold (requests (retried backoff_factor k)).
    by rewrite requests_retried, seq_S.
  - unfold sleeps. rewrite flat_map_app. fold (sleeps (retried backoff_factor k)).
    rewrite sleeps_retried. simpl. by rewrite app_nil_r.
  - intros -> ->. exact Hrun.
Qed.

(** C2. When no attempt succeeds, [fetch_json] returns the empty dict; it
    is a total function, so nothing is raised to the caller. A
    [ClientResponseError] whose status is not in the retry list (in
    particular a 4xx other than 429) ends the loop at once: the failing
    attempt is the last request issued. When every attempt fails with a
    retryable condition, all the attempts are made, each followed by its
    backoff sleep, and the result is the empty dict as well. *)
Theorem fetch_json_failure {A : Type} `{Empty A}
    (get : nat -> attempt_result A) (retries : nat) (backoff_factor : Q) :
  (forall j, (j < retries)%nat -> succeeded (get j) = false) ->
  (fetch_json_with get retries backoff_factor).1 = ∅
  /\ (retries = default_retries -> backoff_factor = default_backoff ->
      (fetch_json get).1 = ∅)
  /\ (forall k status,
        (k < retries)%nat ->
        (forall j, (j < k)%nat -> retryable (get j) = true) ->
        get k = ClientResponseError status ->
        retryable_status status = false ->
        fetch_json_with get retries backoff_factor
          = (∅, retried backoff_factor k ++ [Request k])
        /\ requests (fetch_json_with get retries backoff_factor).2 = seq 0 (S k))
  /\ (forall status, (400 <= status < 500)%Z -> status <> 429%Z ->
        retryable_status status = false)
  /\ ((forall j, (j < retries)%nat -> retryable (get j) = true) ->
        fetch_json_with get retries backoff_factor
          = (∅, retried backoff_factor retries)
        /\ requests (fetch_json_with get retries backoff_factor).2 = seq 0 retries).
Proof.
  intros Hno.
  assert (Hempty : (fetch_json_with get retries backoff_factor).1 = ∅).
  { unfold fetch_json_with. apply fetch_attempts_no_success.
    intros j Hj. apply Hno. apply list_elem_of_In, in_seq in Hj. lia. }
  split; [done|]. split; [by intros -> ->|]. split; [|split].
  - intros k status Hk Hfail Herr Hst.
    assert (Hrun : fetch_json_with get retries backoff_factor
                   = (∅, retried backoff_factor k ++ [Request k])).
    { unfold fetch_json_with, retried.
      by rewrite (fetch_attempts_abort get backoff_factor k 0 retries status). }
    split; [done|]. rewrite Hrun. cbn [snd].
    unfold requests. rewrite flat_map_app. fold (requests (retried backoff_factor k)).
    by rewrite requests_retried, seq_S.
  - apply client_error_not_retryable.
  - intros Hall.
    assert (Hrun : fetch_json_with get retries backoff_factor
                   = (∅, retried backoff_factor retries)).
    { unfold fetch_json_with, retried.
      by rewrite (fetch_attempts_exhausted get backoff_factor retries 0). }
    split; [done|]. rewrite Hrun. simpl. apply requests_retried.
Qed.

(* ===================================================================== *)
(** * Properties of the enrichment helpers *)
(* ===================================================================== *)

(** C6. [classify_company_size] is defined on every input (an absent or an
    integer review count) and yields one of the three labels: absent and 0
    give "Pequena" (small), 100 and above "Grande" (large), 20 to 99
    "Média" (medium), anything else "Pequena"; in particular 19, 20, 99,
    100 and 1000 are classified small, medium, medium, large, large. *)
Theorem classify_company_size_total :
  classify_company_size None = u "Pequena"
  /\ classify_company_size (Some 0%Z) = u "Pequena"
  /\ (forall n, (100 <= n)%Z -> classify_company_size (Some n) = u "Grande")
  /\ (forall n, (20 <= n < 100)%Z -> classify_company_size (Some n) = u "Média")
  /\ (forall n, (n < 20)%Z -> classify_company_size (Some n) = u "Pequena")
  /\ classify_company_size (Some 19%Z) = u "Pequena"
  /\ classify_company_size (Some 20%Z) = u "Média"
  /\ classify_company_size (Some 99%Z) = u "Média"
  /\ classify_company_size (Some 100%Z) = u "Grande"
  /\ classify_company_size (Some 1000%Z) = u "Grande"
  /\ (forall x, classify_company_size x ∈ [u "Pequena"; u "Média"; u "Grande"]).
Proof.
  change (u "Pequena") with Pequena. change (u "Média") with Media.
  change (u "Grande") with Grande.
  assert (Hbig : forall n, (100 <= n)%Z -> classify_company_size (Some n) = Grande).
  { intros n Hn. unfold classify_company_size.
    destruct (Z.eqb_spec n 0); [lia|].
    destruct (Z.leb_spec 100 n); [done | lia]. }
  assert (Hmid : forall n, (20 <= n < 100)%Z -> classify_company_size (Some n) = Media).
  { intros n Hn. unfold classify_company_size.
    destruct (Z.eqb_spec n 0); [lia|].
    destruct (Z.leb_spec 100 n); [lia|].
    destruct (Z.leb_spec 20 n); [done | lia]. }
  assert (Hsmall : forall n, (n < 20)%Z -> classify_company_size (Some n) = Pequena).
  { intros n Hn. unfold classify_company_size.
    destruct (Z.eqb_spec n 0); [done|].
    destruct (Z.leb_spec 100 n); [lia|].
    destruct (Z.leb_spec 20 n); [lia | done]. }
  repeat split; try done.
  intros [n|]; [|left].
  destruct (Z.lt_ge_cases n 20) as [Hlt|Hge].
  - rewrite Hsmall by done. left.
  - destruct (Z.lt_ge_cases n 100) as [Hlt|Hge'].
    + rewrite Hmid by lia. right; left.
    + rewrite Hbig by done. right; right; left.
Qed.

Section Strings.
Implicit Types (s p : list N) (sep c : N).

Lemma split_cons_inv sep s : exists p ps, split sep s = p :: ps.
Proof.
  destruct s as [|c r]; simpl; [by eexists _, _|].
  destruct (N.eqb c sep); [by eexists _, _|].
  destruct (split sep r); by eexists _, _.
Qed.

Lemma split_lookup_0 sep s : is_Some (split sep s !! 0%nat).
Proof. destruct (split_cons_inv sep s) as (p & ps & ->). by eexists. Qed.

Lemma join_cons_cons (glue : list N) p (q : list N) (ps : list (list N)) :
  join glue (p :: q :: ps) = p ++ glue ++ join glue (q :: ps).
Proof. done. Qed.

(** Joining the segments with the separator gives the text back. *)
Lemma join_split sep s : join [sep] (split sep s) = s.
Proof.
  induction s as [|c r IH]; [done|]. simpl.
  destruct (split_cons_inv sep r) as (p & ps & Hs). rewrite Hs in *.
  destruct (N.eqb_spec c sep) as [->|Hne].
  - by rewrite <- IH.
  - rewrite <- IH. by destruct ps.
Qed.

(** No segment contains the separator. *)
Lemma split_no_sep sep s : Forall (fun p => sep ∉ p) (split sep s).
Proof.
  induction s as [|c r IH]; simpl.
  - constructor; [apply not_elem_of_nil | constructor].
  - destruct (N.eqb_spec c sep) as [->|Hne].
    + constructor; [apply not_elem_of_nil | done].
    + destruct (split sep r) as [|p ps].
      * constructor; [|constructor]. intros Hin.
        apply list_elem_of_singleton in Hin. congruence.
      * inversion IH as [|? ? Hp Hps]; subst. constructor; [|done].
        intros Hin. apply elem_of_cons in Hin as [Heq|Hin]; [congruence | done].
Qed.

(** A text without the separator is its own single segment. *)
Lemma split_without_sep sep s : sep ∉ s -> split sep s = [s].
Proof.
  induction s as [|c r IH]; intros Hnot; [done|]. simpl.
  destruct (N.eqb_spec c sep) as [->|Hne].
  - exfalso. apply Hnot. left.
  - rewrite IH; [done|]. intros Hin. apply Hnot. by right.
Qed.

Lemma last_rev_head (l : list N) : last (rev l) = head l.
Proof. rewrite rev_alt. apply last_reverse. Qed.

Lemma lstrip_spec s :
  exists l, s = l ++ lstrip s /\ Forall (fun c => isspace c = true) l
            /\ (forall c, head (lstrip s) = Some c -> isspace c = false).
Proof.
  induction s as [|c r (l & Heq & Hl & Hhd)]; simpl.
  - exists []. repeat split; [constructor | done].
  - destruct (isspace c) eqn:Hc.
    + exists (c :: l). repeat split; [by rewrite Heq at 1 | by constructor | done].
    + exists []. repeat split; [constructor|]. simpl. by intros ? [= <-].
Qed.

Lemma lstrip_app_nonspace s c s' :
  isspace c = false -> lstrip (s ++ c :: s') = lstrip s ++ c :: s'.
Proof.
  intros Hc. induction s as [|d r IH]; simpl; [by rewrite Hc|].
  by destruct (isspace d).
Qed.

Lemma lstrip_all_space s :
  Forall (fun c => isspace c = true) s -> lstrip s = [].
Proof. induction 1 as [|c r Hc _ IH]; simpl; [done | by rewrite Hc]. Qed.

Lemma lstrip_idemp s : lstrip (lstrip s) = lstrip s.
Proof.
  induction s as [|c r IH]; simpl; [done|].
  destruct (isspace c) eqn:Hc; [done|]. simpl. by rewrite Hc.
Qed.

(** [strip] removes a whitespace prefix and a whitespace suffix, and what
    is left neither starts nor ends with whitespace. *)
Lemma strip_spec s :
  exists l r, s = l ++ strip s ++ r
    /\ Forall (fun c => isspace c = true) l
    /\ Forall (fun c => isspace c = true) r
    /\ (forall c, head (strip s) = Some c -> isspace c = false)
    /\ (forall c, last (strip s) = Some c -> isspace c = false).
Proof.
  destruct (lstrip_spec s) as (l & Heq & Hl & Hhd).
  destruct (lstrip_spec (rev (lstrip s))) as (r' & Heq' & Hr' & Hhd').
  exists l, (rev r'). unfold strip, rstrip.
  assert (Hmid : lstrip s = rev (lstrip (rev (lstrip s))) ++ rev r').
  { rewrite <- rev_app_distr, <- Heq'. by rewrite rev_involutive. }
  repeat split.
  - by rewrite <- Hmid.
  - done.
  - by apply List.Forall_rev.
  - intros c Hc.
    destruct (lstrip (rev (lstrip s))) as [|d t] eqn:Hd; [done|].
    apply Hhd. rewrite Hmid. 
    destruct (rev (d :: t)) as [|e t'] eqn:He; [done|].
    simpl in *. done.
  - intros c Hc. apply Hhd'.
    by rewrite last_rev_head in Hc.
Qed.
(** A text without whitespace at its ends, between two runs of
    whitespace, is what [strip] gives back. *)
Lemma strip_surround (l x r : list N) :
  Forall (fun c => isspace c = true) l ->
  Forall (fun c => isspace c = true) r ->
  x = [] \/ (exists c d, head x = Some c /\ isspace c = false
                         /\ last x = Some d /\ isspace d = false) ->
  strip (l ++ x ++ r) = x.
Proof.
  intros Hl Hr [->|(c & d & Hc & Hcs & Hd & Hds)]; unfold strip, rstrip.
  - assert (lstrip (l ++ [] ++ r) = []) as ->; [|done].
    apply lstrip_all_space. simpl. by apply Forall_app.
  - destruct x as [|c' x']; [done|]. injection Hc as ->.
    cbn [app]. rewrite lstrip_app_nonspace by done.
    rewrite (lstrip_all_space l) by done. cbn [app].
    apply last_Some in Hd as (x0 & Hx0).
    change (c :: x' ++ r) with ((c :: x') ++ r). rewrite Hx0.
    rewrite rev_app_distr, rev_app_distr. cbn [rev app].
    rewrite lstrip_app_nonspace by done.
    rewrite lstrip_all_space by by apply List.Forall_rev.
    cbn [app]. change (d :: rev x0) with (rev [d] ++ rev x0).
    by rewrite <- rev_app_distr, rev_involutive.
Qed.

End Strings.

Section Address.
Implicit Types (address : list N) (details : place_details).

Lemma parse_address_route address :
  parse_address address !! k_route = strip <$> split comma address !! 0%nat.
Proof.
  unfold parse_address.
  destruct (split comma address !! 0%nat) as [p0|]; [|done].
  destruct (split comma address !! 1%nat) as [p1|]; [|by simplify_map_eq].
  destruct (split comma address !! 2%nat) as [p2|]; by simplify_map_eq.
Qed.

Lemma parse_address_neighborhood address :
  parse_address address !! k_neighborhood
  = strip <$> split comma address !! 1%nat.
Proof.
  unfold parse_address.
  destruct (split_cons_inv comma address) as (p0 & ps & ->). simpl.
  destruct (ps !! 0%nat) as [p1|]; [|by simplify_map_eq].
  destruct (ps !! 1%nat) as [p2|]; by simplify_map_eq.
Qed.

Lemma parse_address_locality address :
  parse_address address !! k_locality
  = strip <$> split comma address !! 2%nat.
Proof.
  unfold parse_address.
  destruct (split_cons_inv comma address) as (p0 & ps & ->). simpl.
  destruct ps as [|p1 ps]; [by simplify_map_eq|]. simpl.
  destruct (ps !! 0%nat) as [p2|]; by simplify_map_eq.
Qed.

Lemma process_pharmacy_Some (w : world) (place_id city : list N)
    (r : pharmacy_data) :
  process_pharmacy w place_id city = Some r ->
  exists details social_links,
    get_company_details w city place_id = details
    /\ details_falsy details = false
    /\ r = assemble place_id details social_links.
Proof.
  unfold process_pharmacy, process_details. intros Hr.
  destruct (details_falsy (get_company_details w city place_id)) eqn:Hf; [done|].
  injection Hr as <-. by eexists _, _.
Qed.
End Address.

(** C8. The segments of an address are what lies between its commas.
    [parse_address] stores the trimmed first, second and third segment
    under route, neighborhood and locality, each exactly when the segment
    exists, where the trimmed form of a segment is the segment without
    the whitespace at its two ends: the segment is its trimmed form
    between two runs of whitespace, and the trimmed form neither starts
    nor ends with whitespace (tabs, line breaks and no-break spaces go as
    spaces do). In every record [process_pharmacy] assembles, Street,
    Neighborhood and City are those trimmed segments of the record's
    address, and a field whose segment is missing (fewer than two, or
    fewer than three, segments) is "N/A". *)
Theorem parse_address_segments :
  let whitespace (s : list N) := Forall (fun c => isspace c = true) s in
  let trimmed (p v : list N) :=
    (exists l r, p = l ++ v ++ r /\ whitespace l /\ whitespace r)
    /\ (forall c, head v = Some c -> isspace c = false)
    /\ (forall c, last v = Some c -> isspace c = false) in
  (forall address : list N,
     let parts := split comma address in
     join [comma] parts = address
     /\ Forall (fun p => comma ∉ p) parts
     /\ parse_address address !! k_route = strip <$> parts !! 0%nat
     /\ parse_address address !! k_neighborhood = strip <$> parts !! 1%nat
     /\ parse_address address !! k_locality = strip <$> parts !! 2%nat)
  /\ (forall p : list N,
        trimmed p (strip p) /\ (forall v, trimmed p v -> v = strip p))
  /\ (let address :=
        [32%N] ++ u "Rua A" ++ [9; 44; 10]%N ++ u "Centro" ++ [160; 44]%N
        ++ u " Campinas " ++ [13; 44]%N ++ u "SP" in
      parse_address address !! k_route = Some (u "Rua A")
      /\ parse_address address !! k_neighborhood = Some (u "Centro")
      /\ parse_address address !! k_locality = Some (u "Campinas"))
  /\ (forall (w : world) (place_id city : list N) (r : pharmacy_data),
        process_pharmacy w place_id city = Some r ->
        let parts := split comma (Address r) in
        Street r = default (u "N/A") (strip <$> parts !! 0%nat)
        /\ Neighborhood r = default (u "N/A") (strip <$> parts !! 1%nat)
        /\ City r = default (u "N/A") (strip <$> parts !! 2%nat)
        /\ ((length parts < 2)%nat -> Neighborhood r = u "N/A")
        /\ ((length parts < 3)%nat -> City r = u "N/A")).
Proof.
  change (u "N/A") with NA. intros whitespace trimmed.
  split; [|split; [|split]].
  - intros address parts. subst parts.
    split; [apply join_split|]. split; [apply split_no_sep|].
    split; [apply parse_address_route|].
    split; [apply parse_address_neighborhood | apply parse_address_locality].
  - intros p. subst trimmed whitespace. cbn beta.
    destruct (strip_spec p) as (l & r & Heq & Hl & Hr & Hhd & Hlast).
    split; [split; [by exists l, r | by split]|].
    intros v ((l' & r' & -> & Hl' & Hr') & Hhd' & Hlast').
    symmetry. apply strip_surround; [done|done|].
    destruct v as [|c v']; [by left | right].
    destruct (last (c :: v')) as [d|] eqn:Hd.
    + exists c, d. repeat split; [by apply Hhd' | by apply Hlast'].
    + by apply last_None in Hd.
  - intros address.
    rewrite parse_address_route, parse_address_neighborhood,
      parse_address_locality. by vm_compute.
  - intros w place_id city r Hr parts.
    destruct (process_pharmacy_Some _ _ _ _ Hr) as (details & links & _ & _ & ->).
    subst parts. unfold assemble. cbn [Address Street Neighborhood City].
    rewrite parse_address_route, parse_address_neighborhood,
      parse_address_locality.
    repeat split; try done.
    + intros Hlen. by rewrite lookup_ge_None_2 by lia.
    + intros Hlen. by rewrite lookup_ge_None_2 by lia.
Qed.

(** C10, as amended. [parse_address] sets the route component for every
    address, so the Street of a record assembled by [process_pharmacy]
    never comes from the "N/A" default: it is the trimmed first segment of
    the record's address (the whole trimmed address when there is no comma,
    the empty string when the formatted address is missing or empty), and
    it reads "N/A" exactly when that segment does. Neighborhood and City do
    take the default, for instance whenever the address has no comma. *)
Theorem street_never_defaulted :
  (forall address : list N, is_Some (parse_address address !! k_route))
  /\ (forall (w : world) (place_id city : list N) (r : pharmacy_data),
        process_pharmacy w place_id city = Some r ->
        Street r = strip (hd [] (split comma (Address r)))
        /\ (Street r = u "N/A" <->
            strip (hd [] (split comma (Address r))) = u "N/A")
        /\ (comma ∉ Address r ->
            Street r = strip (Address r)
            /\ Neighborhood r = u "N/A" /\ City r = u "N/A")
        /\ (formatted_address (get_company_details w city place_id) = None
            \/ formatted_address (get_company_details w city place_id) = Some [] ->
            Street r = [])).
Proof.
  change (u "N/A") with NA.
  assert (Hroute : forall address : list N,
    parse_address address !! k_route
    = Some (strip (hd [] (split comma address)))).
  { intros address. rewrite parse_address_route.
    by destruct (split_cons_inv comma address) as (p & ps & ->). }
  split; [intros address; rewrite Hroute; by eexists|].
  intros w place_id city r Hr.
  destruct (process_pharmacy_Some _ _ _ _ Hr) as (details & links & Hd & _ & ->).
  assert (HS : Street (assemble place_id details links)
               = strip (hd [] (split comma (Address (assemble place_id details links))))).
  { unfold assemble. cbn [Street Address]. by rewrite Hroute. }
  split; [done|]. split; [by rewrite HS|]. split.
  - intros Hno. rewrite HS. rewrite (split_without_sep _ _ Hno).
    split; [done|]. revert Hno. unfold assemble. cbn [Address Neighborhood City].
    intros Hno. rewrite parse_address_neighborhood, parse_address_locality.
    by rewrite (split_without_sep _ _ Hno).
  - rewrite Hd. rewrite HS. unfold assemble. cbn [Address].
    by intros [-> | ->].
Qed.

(** The hypothesis is met by the demo place [p1], whose street is "Rua A". *)
Lemma street_never_defaulted_witness :
  Street <$> process_pharmacy demo_world (u "p1") (u "Campinas")
  = Some (u "Rua A").
Proof.
  destruct (process_pharmacy demo_world (u "p1") (u "Campinas")) as [r|] eqn:Hr;
    [|by vm_compute in Hr].
  destruct (proj2 street_never_defaulted demo_world (u "p1") (u "Campinas") r Hr)
    as (-> & _).
  vm_compute in Hr. injection Hr as <-. reflexivity.
Defined.

(** C10 as first stated fails: the demo place [p3] has the address "N/A",
    and the record assembled for it has the Street "N/A". *)
Lemma street_can_read_NA :
  ~ (forall (w : world) (place_id city : list N) (r : pharmacy_data),
       process_pharmacy w place_id city = Some r -> Street r <> u "N/A").
Proof.
  intros Hnever.
  destruct (process_pharmacy demo_world (u "p3") (u "Campinas")) as [r|] eqn:Hr;
    [|by vm_compute in Hr].
  apply (Hnever _ _ _ _ Hr). vm_compute in Hr. by injection Hr as <-.
Qed.

(* ===================================================================== *)
(** * Properties of the collection loop *)
(* ===================================================================== *)

Section Batch.
Implicit Types (processed place_ids : gset (list N)) (pid city : list N).
Implicit Types (companies : gmap (list N) (list pharmacy_data)).

(** The ids handed to the detail stage: the candidate ids not yet
    processed. *)
Lemma elem_of_unseen_place_ids processed (all_results_city : list candidate) pid :
  pid ∈ unseen_place_ids processed all_results_city <->
  (pid ∉ processed) /\ exists place, place ∈ all_results_city /\ place_id place = pid.
Proof.
  unfold unseen_place_ids.
  set (f := fun (place_ids : gset (list N)) place => _).
  assert (Hgen : forall l (acc : gset (list N)),
    pid ∈ foldl f acc l <->
    pid ∈ acc \/ ((pid ∉ processed) /\ exists place, place ∈ l /\ place_id place = pid)).
  { induction l as [|x l IH]; intros acc; simpl.
    - split; [by left|]. intros [?|(_ & ? & Hin & _)]; [done|].
      by apply elem_of_nil in Hin.
    - rewrite IH. unfold f. split.
      + intros [Hin|(Hn & place & Hin & Heq)].
        * destruct (decide (place_id x ∈ processed)) as [Hp|Hp]; [by left|].
          apply elem_of_union in Hin as [Hin|Hin]; [|by left].
          apply elem_of_singleton in Hin. subst pid. right. split; [done|].
          exists x. split; [left | done].
        * right. split; [done|]. exists place. split; [by right | done].
      + intros [Hin|(Hn & place & Hin & Heq)].
        * left. destruct (decide (place_id x ∈ processed)); set_solver.
        * apply elem_of_cons in Hin as [->|Hin].
          -- left. subst pid. destruct (decide (place_id x ∈ processed)); set_solver.
          -- right. split; [done|]. by exists place. }
  rewrite Hgen. set_solver.
Qed.

(** The records of a batch, in order: the results that are not [None]. *)
Lemma foldl_record_company city (company_details : list (option pharmacy_data)) :
  forall companies processed,
    let kept := omap id company_details in
    foldl (record_company city) (companies, processed) company_details
    = (match kept with
       | [] => companies
       | _ => <[city := default [] (companies !! city) ++ kept]> companies
       end,
       list_to_set (PlaceID <$> kept) ∪ processed).
Proof.
  induction company_details as [|[c|] rest IH]; intros companies processed kept.
  - subst kept. simpl. f_equal. set_solver.
  - change (omap id (Some c :: rest)) with (c :: omap id rest) in kept.
    change (foldl (record_company city) (companies, processed) (Some c :: rest))
      with (foldl (record_company city)
              (<[city := default [] (companies !! city) ++ [c]]> companies,
               {[PlaceID c]} ∪ processed) rest).
    rewrite IH. subst kept. rewrite lookup_insert_eq. cbn [from_option].
    f_equal.
    + destruct (omap id rest) as [|c' kept']; [done|].
      rewrite insert_insert_eq. unfold id. by rewrite <- app_assoc.
    + rewrite fmap_cons. set_solver.
  - apply IH.
Qed.

Lemma omap_id_map {X Y : Type} (f : X -> option Y) (l : list X) :
  omap id (List.map f l) = omap f l.
Proof.
  induction l as [|x l IH]; [done|].
  simpl. destruct (f x); simpl; [f_equal|]; exact IH.
Qed.

Lemma process_pharmacy_PlaceID (w : world) pid city (r : pharmacy_data) :
  process_pharmacy w pid city = Some r -> PlaceID r = pid.
Proof.
  intros Hr. by destruct (process_pharmacy_Some _ _ _ _ Hr) as (? & ? & _ & _ & ->).
Qed.
End Batch.

Section Run.
Variable w : world.
Implicit Types (st : run_state) (pid city : list N) (bairros : list (list N)).
Implicit Types (seen : gset (list N)).

(** An area without new ids leaves the state as it is: no request, no
    write. *)
Lemma collect_city_skip st city bairros :
  place_ids_of_city w st city bairros = ∅ ->
  collect_city w st (city, bairros) = st.
Proof. intros Hempty. unfold collect_city. by rewrite decide_True. Qed.

Lemma collect_city_batch st city bairros :
  place_ids_of_city w st city bairros <> ∅ ->
  let batch := elements (place_ids_of_city w st city bairros) in
  let kept := batch_records w st city bairros in
  let processed := list_to_set (PlaceID <$> kept) ∪ processed_place_ids st in
  collect_city w st (city, bairros) =
  {| processed_place_ids := processed;
     all_companies :=
       match kept with
       | [] => all_companies st
       | _ => <[city := default [] (all_companies st !! city) ++ kept]>
                (all_companies st)
       end;
     state_file := Some (elements processed);
     trace := trace st ++ List.map (DetailsRequested city) batch
                       ++ [StateSaved (elements processed)] |}.
Proof.
  intros Hne batch kept processed. unfold collect_city.
  rewrite decide_False by done.
  rewrite foldl_record_company, omap_id_map. done.
Qed.

Lemma elem_of_batch_records st city bairros (r : pharmacy_data) :
  r ∈ batch_records w st city bairros <->
  exists pid, pid ∈ place_ids_of_city w st city bairros
              /\ process_pharmacy w pid city = Some r.
Proof.
  unfold batch_records. rewrite list_elem_of_omap.
  split; intros (pid & Hin & Hr); exists pid; split; try done.
  - by apply elem_of_elements in Hin.
  - by apply elem_of_elements.
Qed.

Lemma place_ids_unseen st city bairros pid :
  pid ∈ place_ids_of_city w st city bairros -> pid ∉ processed_place_ids st.
Proof.
  unfold place_ids_of_city. rewrite elem_of_unseen_place_ids. by intros [? _].
Qed.

Lemma batch_records_unseen st city bairros (r : pharmacy_data) :
  r ∈ batch_records w st city bairros ->
  PlaceID r ∈ place_ids_of_city w st city bairros.
Proof.
  rewrite elem_of_batch_records. intros (pid & Hin & Hr).
  by rewrite (process_pharmacy_PlaceID _ _ _ _ Hr).
Qed.

Lemma collect_city_grows st (area : list N * list (list N)) :
  processed_place_ids st ⊆ processed_place_ids (collect_city w st area).
Proof.
  destruct area as [city bairros].
  destruct (decide (place_ids_of_city w st city bairros = ∅)) as [He|Hne].
  - by rewrite collect_city_skip.
  - rewrite collect_city_batch by done. simpl. set_solver.
Qed.

Lemma detail_requests_app (t1 t2 : list run_event) :
  detail_requests (t1 ++ t2) = detail_requests t1 ++ detail_requests t2.
Proof. unfold detail_requests. apply flat_map_app. Qed.

Lemma snapshots_app (t1 t2 : list run_event) :
  snapshots (t1 ++ t2) = snapshots t1 ++ snapshots t2.
Proof. unfold snapshots. apply flat_map_app. Qed.

Lemma detail_requests_batch city (batch : list (list N)) :
  detail_requests (List.map (DetailsRequested city) batch) = batch.
Proof. induction batch as [|p l IH]; simpl; [done | by rewrite IH]. Qed.

Lemma snapshots_batch city (batch : list (list N)) :
  snapshots (List.map (DetailsRequested city) batch) = [].
Proof. induction batch as [|p l IH]; simpl; done. Qed.

Lemma ascending_snoc (l : list (list (list N))) (s : list (list N)) :
  ascending l -> (forall s', s' ∈ l -> s' ⊆ s) -> ascending (l ++ [s]).
Proof.
  intros Hl Hs i j s1 s2 Hij H1 H2.
  destruct (decide (j < length l)%nat) as [Hj|Hj].
  - rewrite lookup_app_l in H1, H2 by lia. exact (Hl i j s1 s2 Hij H1 H2).
  - assert (s2 = s) as ->.
    { rewrite lookup_app_r in H2 by lia.
      destruct (j - length l)%nat as [|n]; simpl in H2; [congruence|].
      by rewrite lookup_nil in H2. }
    destruct (decide (i < length l)%nat) as [Hi|Hi].
    + rewrite lookup_app_l in H1 by lia. apply Hs.
      by eapply list_elem_of_lookup_2.
    + rewrite lookup_app_r in H1 by lia.
      destruct (i - length l)%nat as [|n]; simpl in H1.
      * by injection H1 as <-.
      * by rewrite lookup_nil in H1.
Qed.

Lemma enriched_batch st city bairros (c : pharmacy_data) :
  place_ids_of_city w st city bairros <> ∅ ->
  enriched (collect_city w st (city, bairros)) c ->
  enriched st c \/ c ∈ batch_records w st city bairros.
Proof.
  intros Hne (city' & l & Hl & Hc). revert Hl.
  rewrite collect_city_batch by done. cbn [all_companies].
  destruct (batch_records w st city bairros) as [|r kept] eqn:Hk.
  - intros Hl. left. by exists city', l.
  - destruct (decide (city = city')) as [<-|Hcity].
    + rewrite lookup_insert_eq. intros [= <-].
      apply elem_of_app in Hc as [Hc|Hc]; [left | by right].
      destruct (all_companies st !! city) as [l|] eqn:Hl.
      * by exists city, l.
      * by apply elem_of_nil in Hc.
    + rewrite lookup_insert_ne by done. intros Hl. left. by exists city', l.
Qed.

Lemma snapshots_collect_city st city bairros :
  place_ids_of_city w st city bairros <> ∅ ->
  snapshots (trace (collect_city w st (city, bairros)))
  = snapshots (trace st)
    ++ [elements (processed_place_ids (collect_city w st (city, bairros)))].
Proof.
  intros Hne. rewrite collect_city_batch by done. cbn [trace processed_place_ids].
  by rewrite !snapshots_app, snapshots_batch.
Qed.

Lemma collect_city_invariant seen st (area : list N * list (list N)) :
  run_invariant seen st -> run_invariant seen (collect_city w st area).
Proof.
  intros (Hseen & Hfile & Hreq & Henr & Hsnap & Hasc).
  destruct area as [city bairros].
  destruct (decide (place_ids_of_city w st city bairros = ∅)) as [He|Hne].
  { by rewrite collect_city_skip. }
  pose proof (collect_city_grows st (city, bairros)) as Hgrow.
  unfold run_invariant. split; [set_solver|].
  split; [|split; [|split; [|split]]].
  - rewrite collect_city_batch by done. simpl. apply list_to_set_elements_L.
  - rewrite collect_city_batch by done. cbn [trace].
    rewrite !detail_requests_app, detail_requests_batch. simpl.
    rewrite app_nil_r. intros pid Hin.
    apply elem_of_app in Hin as [Hin|Hin]; [by apply Hreq|].
    apply elem_of_elements, place_ids_unseen in Hin. set_solver.
  - intros c Hc0. destruct (enriched_batch _ _ _ _ Hne Hc0) as [Hc|Hc].
    + destruct (Henr c Hc). split; [set_solver | done].
    + pose proof (batch_records_unseen _ _ _ _ Hc) as Hin.
      apply place_ids_unseen in Hin as Hnot.
      split; [|set_solver].
      rewrite collect_city_batch by done. cbn [processed_place_ids].
      apply elem_of_union. left. apply elem_of_list_to_set.
      by apply list_elem_of_fmap_2.
  - intros ids Hids id Hid. rewrite snapshots_collect_city in Hids by done.
    apply elem_of_app in Hids as [Hids|Hids].
    + apply Hgrow. by eapply Hsnap.
    + apply list_elem_of_singleton in Hids. subst ids.
      by apply elem_of_elements in Hid.
  - rewrite snapshots_collect_city by done.
    apply ascending_snoc; [done|].
    intros s' Hs' id Hid. apply elem_of_elements, Hgrow. by eapply Hsnap.
Qed.

Lemma start_state_invariant (file : option (list (list N))) :
  run_invariant (load_processed_place_ids file) (start_state file).
Proof.
  unfold run_invariant, start_state. cbn [processed_place_ids state_file trace].
  split; [done|]. split; [done|]. split; [|split; [|split]].
  - intros pid Hin. by apply elem_of_nil in Hin.
  - intros c (city & l & Hl & _). simpl in Hl. by rewrite lookup_empty in Hl.
  - intros ids Hin. by apply elem_of_nil in Hin.
  - intros i j s1 s2 _ Hi. simpl in Hi. by rewrite lookup_nil in Hi.
Qed.

Lemma foldl_collect_city_invariant seen (areas : list (list N * list (list N))) :
  forall st, run_invariant seen st ->
             run_invariant seen (foldl (collect_city w) st areas).
Proof.
  induction areas as [|area areas IH]; intros st Hst; [done|].
  simpl. by apply IH, collect_city_invariant.
Qed.

Lemma collect_over_invariant (areas : list (list N * list (list N)))
    (file : option (list (list N))) :
  run_invariant (load_processed_place_ids file) (collect_over w areas file).
Proof. apply foldl_collect_city_invariant, start_state_invariant. Qed.

Lemma foldl_collect_city_grows (areas : list (list N * list (list N))) :
  forall st, processed_place_ids st
             ⊆ processed_place_ids (foldl (collect_city w) st areas).
Proof.
  induction areas as [|area areas IH]; intros st; [done|].
  simpl. etransitivity; [apply collect_city_grows | apply IH].
Qed.
End Run.

(* ===================================================================== *)
(** * Properties of the per-city table *)
(* ===================================================================== *)

Section Table.
Variable parse_text : list N -> option Q.
Implicit Types (r : pharmacy_data) (rows farmacias : list pharmacy_data).
Implicit Types (row : table_row) (seen : list (list N * list N)).

Lemma elem_of_drop_duplicates_from seen rows r :
  r ∈ drop_duplicates_from seen rows ->
  r ∈ rows /\ (Name r, Address r) ∉ seen.
Proof.
  revert seen. induction rows as [|x rows IH]; intros seen; simpl.
  - intros Hin. by apply elem_of_nil in Hin.
  - case_bool_decide as Hseen.
    + intros Hin. destruct (IH _ Hin). split; [by right | done].
    + intros Hin. apply elem_of_cons in Hin as [->|Hin]; [split; [left | done]|].
      destruct (IH _ Hin) as [Hr Hk]. split; [by right|].
      intros Hs. apply Hk. by right.
Qed.

(** Every row has a survivor with its name and address. *)
Lemma drop_duplicates_from_covers seen rows r :
  r ∈ rows -> (Name r, Address r) ∉ seen ->
  exists r', r' ∈ drop_duplicates_from seen rows
             /\ Name r' = Name r /\ Address r' = Address r.
Proof.
  revert seen. induction rows as [|x rows IH]; intros seen Hin Hk.
  - by apply elem_of_nil in Hin.
  - simpl. case_bool_decide as Hseen.
    + apply elem_of_cons in Hin as [->|Hin]; [done|]. by apply IH.
    + destruct (decide ((Name x, Address x) = (Name r, Address r))) as [Heq|Hne].
      * exists x. injection Heq as Hn Ha. split; [left | done].
      * apply elem_of_cons in Hin as [->|Hin]; [done|].
        destruct (IH ((Name x, Address x) :: seen) Hin) as (r' & Hr' & Hn & Ha).
        { intros Hs. apply elem_of_cons in Hs as [Hs|Hs]; [congruence | done]. }
        exists r'. split; [by right | done].
Qed.

(** No two survivors share name and address. *)
Lemma drop_duplicates_from_NoDup seen rows :
  NoDup ((fun r => (Name r, Address r)) <$> drop_duplicates_from seen rows).
Proof.
  revert seen. induction rows as [|x rows IH]; intros seen; simpl.
  - constructor.
  - case_bool_decide as Hseen; [apply IH|].
    rewrite fmap_cons. constructor; [|apply IH].
    intros Hin. apply list_elem_of_fmap in Hin as (r' & Heq & Hr').
    apply elem_of_drop_duplicates_from in Hr' as [_ Hk].
    apply Hk. rewrite <- Heq. left.
Qed.

Lemma elem_of_city_table farmacias row :
  row ∈ city_table parse_text farmacias <->
  exists r, r ∈ drop_duplicates farmacias /\ row = to_row parse_text r
            /\ is_Some (to_numeric parse_text (Latitude r))
            /\ is_Some (to_numeric parse_text (Longitude r)).
Proof.
  unfold city_table. rewrite list_elem_of_In, filter_In, in_map_iff.
  unfold has_coordinates. split.
  - intros [(r & <- & Hr) Hc]. exists r. apply list_elem_of_In in Hr.
    simpl in Hc.
    destruct (to_numeric parse_text (Latitude r)); [|done].
    destruct (to_numeric parse_text (Longitude r)); [|done].
    by repeat split.
  - intros (r & Hr & -> & [q1 H1] & [q2 H2]).
    split; [exists r; split; [done | by apply list_elem_of_In]|].
    simpl. by rewrite H1, H2.
Qed.

Lemma city_table_source farmacias row :
  row ∈ city_table parse_text farmacias -> source row ∈ farmacias.
Proof.
  rewrite elem_of_city_table. intros (r & Hr & -> & _).
  by apply elem_of_drop_duplicates_from in Hr as [Hr _].
Qed.
End Table.

(* ===================================================================== *)
(** * The incremental state across areas and runs *)
(* ===================================================================== *)

(** C4. Within a run the set of processed ids only grows: one area leaves
    it a superset of what it was, so does any further stretch of the run,
    and what was loaded at the start is still there at the end. The
    snapshots written by the run are ascending: each contains every id of
    every earlier one. *)
Theorem processed_ids_only_grow (w : world) (file : option (list (list N))) :
  (forall st area,
     processed_place_ids st ⊆ processed_place_ids (collect_city w st area))
  /\ (forall before after,
        processed_place_ids (collect_over w before file)
        ⊆ processed_place_ids (collect_over w (before ++ after) file))
  /\ load_processed_place_ids file ⊆ processed_place_ids (collect_data w file)
  /\ (forall areas, ascending (snapshots (trace (collect_over w areas file))))
  /\ (forall (i j : nat) (s1 s2 : list (list N)),
        (i <= j)%nat ->
        snapshots (trace (collect_data w file)) !! i = Some s1 ->
        snapshots (trace (collect_data w file)) !! j = Some s2 ->
        forall id, id ∈ s1 -> id ∈ s2).
Proof.
  split; [apply collect_city_grows|].
  split; [|split; [|split]].
  - intros before after. unfold collect_over. rewrite foldl_app.
    apply foldl_collect_city_grows.
  - apply (foldl_collect_city_grows w CIDADES_E_BAIRROS (start_state file)).
  - intros areas. apply (collect_over_invariant w areas file).
  - intros i j s1 s2 Hij H1 H2.
    destruct (collect_over_invariant w CIDADES_E_BAIRROS file)
      as (_ & _ & _ & _ & _ & Hasc).
    exact (Hasc i j s1 s2 Hij H1 H2).
Qed.

(** C3. A second run that loads the file left by a first run never sends
    to the detail stage, and never enriches, an id the first run had in its
    set, whatever the upstream answers in the second run (in particular
    when the search data is the same). The file left by the first run holds
    exactly its final set, which contains every id it enriched. For every
    area, an id already in the set is not among the ids handed to the
    detail stage, and an area with no new id leaves the whole state as it
    is: no detail request, no write. *)
Theorem second_run_skips_seen (w1 w2 : world) (file : option (list (list N))) :
  let run1 := collect_data w1 file in
  let run2 := collect_data w2 (state_file run1) in
  load_processed_place_ids (state_file run1) = processed_place_ids run1
  /\ (forall c, enriched run1 c -> PlaceID c ∈ processed_place_ids run1)
  /\ (forall pid, pid ∈ processed_place_ids run1 ->
        pid ∉ detail_requests (trace run2))
  /\ (forall c, enriched run2 c -> PlaceID c ∉ processed_place_ids run1)
  /\ (forall w st city bairros pid,
        pid ∈ processed_place_ids st ->
        pid ∉ place_ids_of_city w st city bairros)
  /\ (forall w st city bairros,
        place_ids_of_city w st city bairros = ∅ ->
        collect_city w st (city, bairros) = st).
Proof.
  intros run1 run2.
  destruct (collect_over_invariant w1 CIDADES_E_BAIRROS file)
    as (_ & Hfile & _ & Henr & _).
  fold (collect_data w1 file) in Hfile, Henr. fold run1 in Hfile, Henr.
  destruct (collect_over_invariant w2 CIDADES_E_BAIRROS (state_file run1))
    as (_ & _ & Hreq2 & Henr2 & _).
  fold (collect_data w2 (state_file run1)) in Hreq2, Henr2.
  fold run2 in Hreq2, Henr2. rewrite Hfile in Hreq2, Henr2.
  split; [done|]. split; [intros c Hc; by destruct (Henr c Hc)|].
  split; [intros pid Hpid Hin; by apply (Hreq2 pid Hin)|].
  split; [intros c Hc; by destruct (Henr2 c Hc)|].
  split.
  - intros w st city bairros pid Hpid Hin. by apply place_ids_unseen in Hin.
  - intros w st city bairros. apply collect_city_skip.
Qed.

Section MissingResult.
Variable w : world.
Implicit Types (st : run_state) (pid city : list N) (bairros : list (list N)).

Lemma process_pharmacy_no_result pid city :
  result (fetch_json (places_details w city pid)).1 = None ->
  process_pharmacy w pid city = None.
Proof.
  intros Hres. unfold process_pharmacy, process_details, get_company_details,
    company_details_of. by rewrite Hres.
Qed.

Lemma process_pharmacy_result pid city (details : place_details) :
  result (fetch_json (places_details w city pid)).1 = Some details ->
  details_falsy details = false ->
  exists r, process_pharmacy w pid city = Some r /\ PlaceID r = pid.
Proof.
  intros Hres Hd. unfold process_pharmacy, process_details, get_company_details,
    company_details_of. rewrite Hres, Hd. by eexists.
Qed.

Lemma batch_record_kept st city bairros (r : pharmacy_data) :
  r ∈ batch_records w st city bairros ->
  (exists l, all_companies (collect_city w st (city, bairros)) !! city = Some l
             /\ r ∈ l)
  /\ PlaceID r ∈ processed_place_ids (collect_city w st (city, bairros)).
Proof.
  intros Hr.
  assert (Hne : place_ids_of_city w st city bairros <> ∅).
  { apply batch_records_unseen in Hr. set_solver. }
  rewrite collect_city_batch by done. cbn [all_companies processed_place_ids].
  split.
  - destruct (batch_records w st city bairros) as [|r0 kept] eqn:Hk.
    { by apply elem_of_nil in Hr. }
    eexists. rewrite lookup_insert_eq. split; [done|].
    apply elem_of_app. by right.
  - apply elem_of_union. left. apply elem_of_list_to_set.
    by apply list_elem_of_fmap_2.
Qed.

Lemma details_requested st city bairros pid :
  pid ∈ place_ids_of_city w st city bairros ->
  DetailsRequested city pid ∈ trace (collect_city w st (city, bairros)).
Proof.
  intros Hin.
  assert (Hne : place_ids_of_city w st city bairros <> ∅) by set_solver.
  rewrite collect_city_batch by done. cbn [trace].
  apply elem_of_app. right. apply elem_of_app. left.
  apply list_elem_of_In, in_map, list_elem_of_In. by apply elem_of_elements.
Qed.
End MissingResult.

(** C5. Take an area reached in a run, and an id [pid] of its batch whose
    details answer lacks [result]. Then [process_pharmacy] returns no
    record for [pid]; no record with that id is held for any city after
    the area, so none is in the table written for the area; and [pid] is
    not in the processed set after the area. Every id of the batch has its
    details requested; and every id whose answer carries a non-empty
    [result] yields a record that is among the area's results and whose id
    is in the processed set after the area. *)
Theorem missing_result_drops_only_that_entity (w : world)
    (file : option (list (list N))) (before : list (list N * list (list N)))
    (city : list N) (bairros : list (list N)) (pid : list N) :
  let st := collect_over w before file in
  let st' := collect_city w st (city, bairros) in
  pid ∈ place_ids_of_city w st city bairros ->
  result (fetch_json (places_details w city pid)).1 = None ->
  process_pharmacy w pid city = None
  /\ (forall c, enriched st' c -> PlaceID c <> pid)
  /\ (forall parse_text l row,
        all_companies st' !! city = Some l ->
        row ∈ city_table parse_text l -> PlaceID (source row) <> pid)
  /\ (pid ∉ processed_place_ids st')
  /\ (forall pid', pid' ∈ place_ids_of_city w st city bairros ->
        DetailsRequested city pid' ∈ trace st'
        /\ (forall details,
              result (fetch_json (places_details w city pid')).1 = Some details ->
              details_falsy details = false ->
              exists r, process_pharmacy w pid' city = Some r
                        /\ PlaceID r = pid'
                        /\ (exists l, all_companies st' !! city = Some l /\ r ∈ l)
                        /\ pid' ∈ processed_place_ids st')).
Proof.
  intros st st' Hpid Hres.
  assert (Hne : place_ids_of_city w st city bairros <> ∅) by set_solver.
  assert (Hnone : process_pharmacy w pid city = None)
    by by apply process_pharmacy_no_result.
  assert (Hunseen : pid ∉ processed_place_ids st) by by eapply place_ids_unseen.
  destruct (collect_over_invariant w before file) as (_ & _ & _ & Henr & _).
  fold st in Henr.
  assert (Hbatch : forall r, r ∈ batch_records w st city bairros -> PlaceID r <> pid).
  { intros r Hr Heq. apply elem_of_batch_records in Hr as (pid' & _ & Hr).
    rewrite <- (process_pharmacy_PlaceID _ _ _ _ Hr), Heq in Hr. congruence. }
  assert (Hall : forall c, enriched st' c -> PlaceID c <> pid).
  { intros c Hc. destruct (enriched_batch w st city bairros c Hne Hc) as [Hold|Hnew].
    - destruct (Henr c Hold) as [Hin _]. congruence.
    - by apply Hbatch. }
  split; [done|]. split; [done|]. split; [|split].
  - intros parse_text l row Hl Hrow. apply Hall. exists city, l.
    split; [done|]. by eapply city_table_source.
  - subst st'. rewrite collect_city_batch by done. cbn [processed_place_ids].
    intros Hin. apply elem_of_union in Hin as [Hin|Hin]; [|done].
    apply elem_of_list_to_set, list_elem_of_fmap in Hin as (r & Heq & Hr).
    by apply (Hbatch r Hr).
  - intros pid' Hpid'. split; [by apply details_requested|].
    intros details Hd Hfalsy.
    destruct (process_pharmacy_result w pid' city details Hd Hfalsy) as (r & Hr & Hid).
    exists r. split; [done|]. split; [done|].
    assert (Hin : r ∈ batch_records w st city bairros).
    { apply elem_of_batch_records. by exists pid'. }
    destruct (batch_record_kept w st city bairros r Hin) as [Hl Hp].
    split; [done|]. by rewrite <- Hid.
Qed.

(* ===================================================================== *)
(** * The statements at work on the demo upstream *)
(* ===================================================================== *)

(** [fetch_json] on the details request of [p1]: a 503, a sleep of half a
    second, then the payload. *)
Lemma fetch_json_retry_success_witness :
  exists d, fetch_json (demo_place (u "Campinas") (u "p1"))
            = (d, [Request 0; Sleep (Qmake 1 2); Request 1])
            /\ is_Some (result d).
Proof.
  eexists. split.
  - refine (proj1 (fetch_json_retry_success
                     (demo_place (u "Campinas") (u "p1"))
                     default_retries default_backoff 1 _ _ _ _)).
    + unfold default_retries. lia.
    + intros j Hj. assert (j = 0%nat) as -> by lia. reflexivity.
    + reflexivity.
  - by eexists.
Defined.

(** [fetch_json] on the details request of an unknown id: a 404, no retry,
    the empty dict. *)
Lemma fetch_json_failure_witness :
  (fetch_json (demo_place (u "Campinas") (u "p9"))).1 = ∅.
Proof.
  refine (proj1 (fetch_json_failure (demo_place (u "Campinas") (u "p9"))
                   default_retries default_backoff _)).
  intros j Hj. reflexivity.
Defined.

Lemma classify_company_size_total_witness :
  classify_company_size (Some 150%Z) = u "Grande"
  /\ classify_company_size (Some 42%Z) = u "Média"
  /\ classify_company_size (Some (-3)%Z) = u "Pequena".
Proof.
  destruct classify_company_size_total as (_ & _ & Hbig & Hmid & Hsmall & _).
  split; [apply Hbig; lia|]. split; [apply Hmid; lia | apply Hsmall; lia].
Defined.

(** The record of [p1]: "Rua A", "10 - Sousas", "Campinas - SP". *)
Lemma parse_address_segments_witness :
  exists r, process_pharmacy demo_world (u "p1") (u "Campinas") = Some r
            /\ Street r = u "Rua A"
            /\ Neighborhood r = u "10 - Sousas"
            /\ City r = u "Campinas - SP".
Proof.
  eexists. split; [vm_compute; reflexivity|].
  edestruct (proj2 (proj2 (proj2 parse_address_segments))
               demo_world (u "p1") (u "Campinas"))
    as (HS & HN & HC & _); [vm_compute; reflexivity|].
  rewrite HS, HN, HC. vm_compute. done.
Defined.

(** Two runs on the demo upstream: the second asks details for [p2] only. *)
Lemma second_run_skips_seen_witness :
  let run1 := collect_data demo_world None in
  u "p1" ∈ processed_place_ids run1
  /\ u "p1" ∉ detail_requests (trace (collect_data demo_world (state_file run1))).
Proof.
  intros run1.
  assert (Hin : u "p1" ∈ processed_place_ids run1).
  { refine (bool_decide_unpack _ _); vm_compute; exact I. }
  split; [exact Hin|].
  exact (proj1 (proj2 (proj2 (second_run_skips_seen demo_world demo_world None)))
           (u "p1") Hin).
Defined.

(** The two snapshots of the demo run: p3, p1 and then p4, p3, p1. *)
Lemma processed_ids_only_grow_witness :
  snapshots (trace (collect_data demo_world None))
  = [[u "p3"; u "p1"]; [u "p4"; u "p3"; u "p1"]]
  /\ (forall id, id ∈ [u "p3"; u "p1"] -> id ∈ [u "p4"; u "p3"; u "p1"]).
Proof.
  split; [vm_compute; reflexivity|].
  refine (proj2 (proj2 (proj2 (proj2 (processed_ids_only_grow demo_world None))))
            0%nat 1%nat _ _ _ _ _); [lia | |]; vm_compute; reflexivity.
Defined.

(** In Campinas the answer for [p2] has no [result]: [p2] is dropped, and
    its siblings [p1] and [p3] are enriched. *)
Lemma missing_result_drops_only_that_entity_witness :
  let area := (u "Campinas", List.map u ["Sousas"]%string) in
  let st' := collect_city demo_world (start_state None) area in
  (u "p2" ∉ processed_place_ids st')
  /\ u "p1" ∈ processed_place_ids st'
  /\ u "p3" ∈ processed_place_ids st'.
Proof.
  intros area st'.
  edestruct (missing_result_drops_only_that_entity demo_world None []
               (u "Campinas") (List.map u ["Sousas"]%string) (u "p2"))
    as (_ & _ & _ & Hout & Hsib).
  { refine (bool_decide_unpack _ _); vm_compute; exact I. }
  { vm_compute. reflexivity. }
  split; [exact Hout|]. split.
  - edestruct (Hsib (u "p1")) as (_ & Hok).
    { refine (bool_decide_unpack _ _); vm_compute; exact I. }
    edestruct Hok as (r & _ & _ & _ & Hin); [vm_compute; reflexivity | reflexivity |].
    exact Hin.
  - edestruct (Hsib (u "p3")) as (_ & Hok).
    { refine (bool_decide_unpack _ _); vm_compute; exact I. }
    edestruct Hok as (r & _ & _ & _ & Hin); [vm_compute; reflexivity | reflexivity |].
    exact Hin.
Defined.

(* ===================================================================== *)
(** * Properties of [normalize_name] *)
(* ===================================================================== *)

(** Boolean character tests, read as arithmetic facts. *)
Ltac char_arith :=
  repeat match goal with
         | H : _ = true |- _ =>
             rewrite ?orb_true_iff, ?andb_true_iff, ?N.leb_le, ?N.eqb_eq,
               ?N.ltb_lt in H
         end;
  rewrite ?orb_true_iff, ?andb_true_iff, ?N.leb_le, ?N.eqb_eq, ?N.ltb_lt;
  try lia.

Section Characters.
Implicit Types (c : N) (s : list N).
Local Open Scope N_scope.

Lemma is_word_not_space c : is_word c = true -> isspace c = false.
Proof.
  intros Hw. apply not_true_is_false. intros Hs.
  unfold is_word, isspace in *. char_arith.
Qed.

Lemma is_word_ascii c : is_word c = true -> is_ascii c = true.
Proof. intros Hw. unfold is_word, is_ascii in *. char_arith. Qed.

Lemma is_word_lower c : is_word (lower c) = is_word c.
Proof.
  unfold lower.
  destruct ((65 <=? c) && (c <=? 90)) eqn:Hup; [|done].
  assert (is_word c = true) as -> by (unfold is_word; char_arith).
  unfold is_word. char_arith.
Qed.

Lemma isspace_32 : isspace 32 = true.
Proof. reflexivity. Qed.
End Characters.

Section Stages.
Implicit Types (c : N) (s : list N) (prev : option N).

Lemma elem_of_ascii_ignore s c : c ∈ ascii_ignore s -> is_ascii c = true.
Proof.
  unfold ascii_ignore. rewrite list_elem_of_In, filter_In. by intros [_ ?].
Qed.

(** The first substitution only deletes. *)
Lemma elem_of_remove_suffixes s :
  forall prev (skip : nat) c, c ∈ remove_suffixes prev skip s -> c ∈ s.
Proof.
  induction s as [|d r IH]; intros prev skip c; simpl; [done|].
  destruct skip as [|k].
  - destruct (match_suffix_at prev (d :: r)).
    + intros Hin. right. by eapply IH.
    + intros Hin. apply elem_of_cons in Hin as [->|Hin]; [left|].
      right. by eapply IH.
  - intros Hin. right. by eapply IH.
Qed.

Lemma elem_of_remove_punctuation s c :
  c ∈ remove_punctuation s <->
  c ∈ s /\ (is_word c = true \/ isspace c = true).
Proof.
  unfold remove_punctuation.
  by rewrite list_elem_of_In, filter_In, orb_true_iff, list_elem_of_In.
Qed.

(** The third substitution leaves the other characters alone and writes
    one space for each run of whitespace. *)
Lemma elem_of_collapse_whitespace s :
  forall (in_run : bool) c,
    c ∈ collapse_whitespace in_run s ->
    c = 32%N \/ (c ∈ s /\ isspace c = false).
Proof.
  induction s as [|d r IH]; intros in_run c; simpl.
  - intros Hin. by apply elem_of_nil in Hin.
  - destruct (isspace d) eqn:Hd.
    + destruct in_run.
      * intros Hin. destruct (IH _ _ Hin) as [?|[? ?]]; [by left|].
        right. split; [by right | done].
      * intros Hin. apply elem_of_cons in Hin as [->|Hin]; [by left|].
        destruct (IH _ _ Hin) as [?|[? ?]]; [by left|].
        right. split; [by right | done].
    + intros Hin. apply elem_of_cons in Hin as [->|Hin].
      * right. split; [left | done].
      * destruct (IH _ _ Hin) as [?|[? ?]]; [by left|].
        right. split; [by right | done].
Qed.

Lemma collapse_whitespace_head s c :
  head (collapse_whitespace true s) = Some c -> isspace c = false.
Proof.
  induction s as [|d r IH]; simpl; [done|].
  destruct (isspace d) eqn:Hd; [done|]. simpl. by intros [= <-].
Qed.

Lemma collapse_whitespace_single s :
  forall (in_run : bool) (l1 l2 : list N) c d,
    collapse_whitespace in_run s = l1 ++ c :: d :: l2 ->
    isspace c = true -> isspace d = false.
Proof.
  induction s as [|x r IH]; intros in_run l1 l2 c d; simpl.
  - by destruct l1.
  - destruct (isspace x) eqn:Hx.
    + destruct in_run; [apply IH|].
      destruct l1 as [|y l1]; simpl.
      * intros [= <- Hr] _. apply (collapse_whitespace_head r).
        by rewrite Hr.
      * intros [= <- Hr]. exact (IH _ _ _ _ _ Hr).
    + destruct l1 as [|y l1]; simpl.
      * intros [= <- Hr]. congruence.
      * intros [= <- Hr]. exact (IH _ _ _ _ _ Hr).
Qed.

Lemma elem_of_strip s c : c ∈ strip s -> c ∈ s.
Proof.
  intros Hin. destruct (strip_spec s) as (l & r & Heq & _).
  rewrite Heq. apply elem_of_app. right. apply elem_of_app. by left.
Qed.

Lemma strip_infix s :
  exists l r, s = l ++ strip s ++ r.
Proof. destruct (strip_spec s) as (l & r & Heq & _). by exists l, r. Qed.
End Stages.

Section Normalized.
Variable nfkd : list N -> list N.
Implicit Types (name : list N) (c : N).

(** Only ASCII letters, digits, underscores and spaces are left. *)
Lemma normalize_name_chars name c :
  c ∈ normalize_name nfkd name ->
  is_ascii c = true /\ (is_word c = true \/ c = 32%N).
Proof.
  unfold normalize_name. destruct name as [|a name'].
  { intros Hin. by apply elem_of_nil in Hin. }
  intros Hin. apply elem_of_strip, elem_of_collapse_whitespace in Hin.
  destruct Hin as [->|[Hin Hns]]; [split; [done | by right]|].
  apply elem_of_remove_punctuation in Hin as [Hin [Hw|Hs]]; [|congruence].
  split; [|by left]. by apply is_word_ascii.
Qed.

(** No whitespace at either end, and no two spaces in a row. *)
Lemma normalize_name_spacing name :
  head (normalize_name nfkd name) <> Some 32%N
  /\ last (normalize_name nfkd name) <> Some 32%N
  /\ (forall l1 l2, normalize_name nfkd name <> l1 ++ [32; 32]%N ++ l2).
Proof.
  unfold normalize_name. destruct name as [|a name']; [split; [done|split; [done|]]|].
  { intros [|? [|? ?]] ?; done. }
  set (x := collapse_whitespace false _).
  destruct (strip_spec x) as (l & r & Heq & _ & _ & Hhd & Hlast).
  split; [|split].
  - intros Hh. by apply Hhd in Hh.
  - intros Hl. by apply Hlast in Hl.
  - intros l1 l2 Hdouble.
    assert (Hx : x = (l ++ l1) ++ 32%N :: 32%N :: (l2 ++ r)).
    { rewrite Heq at 1. rewrite Hdouble. simpl. by rewrite <- !app_assoc. }
    by apply collapse_whitespace_single in Hx.
Qed.
End Normalized.

Section Suffixes.
Implicit Types (c : N) (s p r w rest lit alt : list N) (prev : option N).

Lemma match_literal_Some lit : forall s r,
  match_literal lit s = Some r <->
  exists p, s = p ++ r /\ List.map lower p = List.map lower lit.
Proof.
  induction lit as [|a lit IH]; intros s r; simpl.
  - split.
    + intros [= ->]. by exists [].
    + intros (p & -> & Hp). by destruct p.
  - destruct s as [|c s].
    + split; [done|]. intros ([|? ?] & ? & ?); done.
    + destruct (N.eqb_spec (lower a) (lower c)) as [Heq|Hne].
      * rewrite IH. split.
        -- intros (p & -> & Hp). exists (c :: p). simpl. by rewrite Heq, Hp.
        -- intros ([|c' p] & Hs & Hp); [done|]. simpl in *.
           injection Hs as <- ->. injection Hp as _ Hp. by exists p.
      * split; [done|]. intros ([|c' p] & Hs & Hp); [done|]. simpl in *.
        injection Hs as <- ->. injection Hp as Hc _. congruence.
Qed.

(** A piece without spaces at the head of a word followed by a space, or
    by nothing, lies inside the word. *)
Lemma prefix_inside_word p : forall r w rest,
  p ++ r = w ++ rest -> 32%N ∉ p ->
  rest = [] \/ (exists s, rest = 32%N :: s) ->
  exists w', w = p ++ w' /\ r = w' ++ rest.
Proof.
  induction p as [|a p IH]; intros r w rest Heq Hno Hrest; simpl in *.
  - by exists w.
  - destruct w as [|b w]; simpl in *.
    + destruct Hrest as [->|(s & ->)]; [done|]. injection Heq as -> _.
      exfalso. apply Hno. left.
    + injection Heq as -> Heq.
      destruct (IH r w rest Heq) as (w' & -> & ->); [|done|by exists w'].
      intros Hin. apply Hno. by right.
Qed.

Lemma forallb_is_word_lower p :
  forallb is_word (List.map lower p) = forallb is_word p.
Proof.
  induction p as [|c p IH]; simpl; [done|]. by rewrite is_word_lower, IH.
Qed.

Lemma last_is_word p :
  p <> [] -> forallb is_word p = true -> is_word_at (last p) = true.
Proof.
  intros Hne Hall. destruct (last p) as [c|] eqn:Hl.
  - simpl. apply last_Some in Hl as (p' & ->).
    rewrite forallb_app in Hall. simpl in Hall.
    apply andb_true_iff in Hall as [_ Hc]. by apply andb_true_iff in Hc as [Hc _].
  - by apply last_None in Hl.
Qed.

Lemma Forall_forallb_is_word p :
  Forall (fun c => is_word c = true) p <-> forallb is_word p = true.
Proof. rewrite forallb_forall, Forall_forall. by setoid_rewrite list_elem_of_In. Qed.

(** At the start of a word, an alternative that matches up to a word
    boundary is a spelling of the whole word. *)
Lemma first_alternative_Some (alts : list (list N)) w rest (n : nat) :
  Forall (fun alt => alt <> [] /\ 32%N ∉ List.map lower alt) alts ->
  Forall (fun c => is_word c = true) w ->
  rest = [] \/ (exists s, rest = 32%N :: s) ->
  first_alternative alts (w ++ rest) = Some n ->
  exists alt, alt ∈ alts /\ forallb is_word alt = true
              /\ List.map lower alt = List.map lower w /\ n = length w.
Proof.
  intros Halts Hw Hrest. induction alts as [|alt alts IH]; simpl; [done|].
  inversion Halts as [|? ? [Hne H32] Halts']; subst.
  assert (Hnext : first_alternative alts (w ++ rest) = Some n ->
    exists alt0, alt0 ∈ alt :: alts /\ forallb is_word alt0 = true
                 /\ List.map lower alt0 = List.map lower w /\ n = length w).
  { intros Hn. destruct (IH Halts' Hn) as (alt0 & Hin & Hrem).
    exists alt0. split; [by right | done]. }
  destruct (match_literal alt (w ++ rest)) as [r|] eqn:Hm; [|done].
  destruct (word_boundary (last alt) (head r)) eqn:Hb; [|done].
  intros [= <-]. clear Hnext IH.
  apply match_literal_Some in Hm as (p & Hs & Hp).
  assert (Hno : 32%N ∉ p).
  { intros Hin. apply H32. rewrite <- Hp.
    apply list_elem_of_In. apply list_elem_of_In in Hin.
    change 32%N with (lower 32). by apply in_map. }
  destruct (prefix_inside_word p r w rest (eq_sym Hs) Hno Hrest) as (w' & -> & ->).
  apply Forall_app in Hw as [Hp_word Hw'].
  assert (Halt : forallb is_word alt = true).
  { rewrite <- forallb_is_word_lower, <- Hp, forallb_is_word_lower.
    by apply Forall_forallb_is_word. }
  unfold word_boundary in Hb. rewrite (last_is_word alt Hne Halt) in Hb.
  destruct w' as [|c w'].
  - exists alt. split; [left|]. split; [done|]. rewrite app_nil_r.
    split; [done|]. by rewrite <- (length_map lower alt), <- Hp, length_map.
  - simpl in Hb. inversion Hw' as [|? ? Hc _]; subst. by rewrite Hc in Hb.
Qed.

(** A spelling of the word among the alternatives makes one of them match. *)
Lemma first_alternative_hit (alts : list (list N)) alt w rest :
  alt ∈ alts -> alt <> [] -> forallb is_word alt = true ->
  List.map lower alt = List.map lower w ->
  rest = [] \/ (exists s, rest = 32%N :: s) ->
  is_Some (first_alternative alts (w ++ rest)).
Proof.
  intros Hin Hne Halt Hlow Hrest.
  induction alts as [|a alts IH]; [by apply elem_of_nil in Hin|]. simpl.
  destruct (match_literal a (w ++ rest)) as [r|] eqn:Hm.
  - destruct (word_boundary (last a) (head r)) eqn:Hb; [by eexists|].
    apply elem_of_cons in Hin as [<-|Hin]; [|by apply IH].
    exfalso.
    assert (Hm' : match_literal alt (w ++ rest) = Some rest).
    { apply match_literal_Some. by exists w. }
    rewrite Hm' in Hm. injection Hm as <-.
    unfold word_boundary in Hb. rewrite (last_is_word alt Hne Halt) in Hb.
    by destruct Hrest as [->|(s & ->)].
  - apply elem_of_cons in Hin as [<-|Hin]; [|by apply IH].
    exfalso.
    assert (Hm' : match_literal alt (w ++ rest) = Some rest).
    { apply match_literal_Some. by exists w. }
    congruence.
Qed.

Lemma LEGAL_SUFFIXES_shape :
  Forall (fun alt => alt <> [] /\ 32%N ∉ List.map lower alt) LEGAL_SUFFIXES.
Proof. refine (bool_decide_unpack _ _). vm_compute. exact I. Qed.

Lemma is_legal_suffix_true w :
  is_legal_suffix w = true <->
  exists alt, alt ∈ LEGAL_SUFFIXES /\ forallb is_word alt = true
              /\ List.map lower alt = List.map lower w.
Proof.
  unfold is_legal_suffix. rewrite bool_decide_eq_true, list_elem_of_In, in_map_iff.
  split.
  - intros (alt & Hlow & Hin). apply filter_In in Hin as [Hin Hw].
    exists alt. by rewrite list_elem_of_In.
  - intros (alt & Hin & Hw & Hlow). exists alt. split; [done|].
    apply filter_In. by rewrite <- list_elem_of_In.
Qed.
End Suffixes.

Section Scan.
Implicit Types (c : N) (s w rest : list N) (prev : option N).
Implicit Types (ws : list (list N)).

Lemma match_suffix_at_word w rest prev :
  w <> [] -> Forall (fun c => is_word c = true) w ->
  is_word_at prev = false ->
  rest = [] \/ (exists s, rest = 32%N :: s) ->
  match_suffix_at prev (w ++ rest)
  = if is_legal_suffix w then Some (length w) else None.
Proof.
  intros Hne Hw Hprev Hrest. unfold match_suffix_at, word_boundary.
  rewrite Hprev. destruct w as [|c w']; [done|].
  inversion Hw as [|? ? Hc Hw']; subst. cbn [app head is_word_at].
  rewrite Hc. cbn [xorb].
  change (c :: w' ++ rest) with ((c :: w') ++ rest).
  destruct (first_alternative LEGAL_SUFFIXES ((c :: w') ++ rest)) as [n|] eqn:Hfa.
  - destruct (first_alternative_Some _ _ _ _ LEGAL_SUFFIXES_shape Hw Hrest Hfa)
      as (alt & Hin & Halt & Hlow & ->).
    assert (is_legal_suffix (c :: w') = true) as ->; [|done].
    apply is_legal_suffix_true. by exists alt.
  - destruct (is_legal_suffix (c :: w')) eqn:Hlegal; [|done].
    apply is_legal_suffix_true in Hlegal as (alt & Hin & Halt & Hlow).
    assert (Hshape := LEGAL_SUFFIXES_shape).
    rewrite Forall_forall in Hshape.
    destruct (Hshape alt Hin) as [Hane _].
    destruct (first_alternative_hit LEGAL_SUFFIXES alt (c :: w') rest
                Hin Hane Halt Hlow Hrest) as [n Hn].
    congruence.
Qed.

Lemma remove_suffixes_skip s : forall prev rest,
  remove_suffixes prev (length s) (s ++ rest)
  = remove_suffixes (from_option Some prev (last s)) 0 rest.
Proof.
  induction s as [|c s IH]; intros prev rest; [done|].
  simpl. rewrite IH. f_equal. rewrite last_cons. by destruct (last s).
Qed.

Lemma remove_suffixes_inside w : forall prev rest,
  Forall (fun c => is_word c = true) w ->
  is_word_at prev = true ->
  remove_suffixes prev 0 (w ++ rest)
  = w ++ remove_suffixes (from_option Some prev (last w)) 0 rest.
Proof.
  induction w as [|c w IH]; intros prev rest Hw Hprev; [done|].
  inversion Hw as [|? ? Hc Hw']; subst.
  cbn [app remove_suffixes]. unfold match_suffix_at, word_boundary.
  rewrite Hprev. cbn [head is_word_at]. rewrite Hc. cbn [xorb].
  rewrite IH by done. simpl. do 2 f_equal. rewrite last_cons.
  by destruct (last w).
Qed.

(** One word of the text: dropped when it is a legal suffix, kept
    otherwise. *)
Lemma remove_suffixes_word w rest prev :
  is_token w -> is_word_at prev = false ->
  rest = [] \/ (exists s, rest = 32%N :: s) ->
  remove_suffixes prev 0 (w ++ rest)
  = (if is_legal_suffix w then [] else w) ++ remove_suffixes (last w) 0 rest.
Proof.
  intros [Hne Hw] Hprev Hrest.
  pose proof (match_suffix_at_word w rest prev Hne Hw Hprev Hrest) as Hm.
  destruct w as [|c w']; [done|]. inversion Hw as [|? ? Hc Hw']; subst.
  assert (Hlast : from_option Some (Some c) (last w') = last (c :: w')).
  { rewrite last_cons. by destruct (last w'). }
  cbn [app remove_suffixes]. cbn [app] in Hm. rewrite Hm.
  destruct (is_legal_suffix (c :: w')).
  - cbn [length Nat.pred app]. by rewrite remove_suffixes_skip, Hlast.
  - rewrite remove_suffixes_inside by done. by rewrite Hlast.
Qed.

Lemma remove_suffixes_space s prev :
  remove_suffixes prev 0 (32%N :: s) = 32%N :: remove_suffixes (Some 32%N) 0 s.
Proof.
  cbn [remove_suffixes].
  assert (match_suffix_at prev (32%N :: s) = None) as ->; [|done].
  unfold match_suffix_at. by destruct (word_boundary prev (head (32%N :: s))).
Qed.

(** The first substitution on words separated by single spaces. *)
Lemma remove_suffixes_words ws : forall prev,
  Forall is_token ws -> is_word_at prev = false ->
  remove_suffixes prev 0 (join [32%N] ws)
  = join [32%N] (List.map (fun w => if is_legal_suffix w then [] else w) ws).
Proof.
  induction ws as [|w ws IH]; intros prev Hws Hprev; [done|].
  inversion Hws as [|? ? Hw Hws']; subst.
  destruct ws as [|w2 ws].
  - simpl. rewrite <- (app_nil_r w) at 1.
    rewrite remove_suffixes_word by (done || by left). simpl.
    by rewrite app_nil_r.
  - rewrite join_cons_cons. cbn [List.map]. rewrite join_cons_cons.
    rewrite remove_suffixes_word; [|done|done|right; by eexists].
    f_equal. cbn [app]. rewrite remove_suffixes_space. f_equal.
    by apply IH.
Qed.
End Scan.

Section Spacing.
Implicit Types (c : N) (s w x l r : list N) (ws : list (list N)).


Lemma filter_cons_if (f : list N -> bool) w ws :
  List.filter f (w :: ws) = if f w then w :: List.filter f ws else List.filter f ws.
Proof. done. Qed.

Lemma collapse_whitespace_word w : forall (in_run : bool) s,
  w <> [] -> Forall (fun c => is_word c = true) w ->
  collapse_whitespace in_run (w ++ s) = w ++ collapse_whitespace false s.
Proof.
  induction w as [|c w IH]; intros in_run s Hne Hw; [done|].
  inversion Hw as [|? ? Hc Hw']; subst. cbn [app collapse_whitespace].
  rewrite (is_word_not_space c Hc). f_equal.
  destruct w as [|c2 w]; [done|]. by apply IH.
Qed.

Lemma join_tokens_ends ws :
  ws <> [] -> Forall is_token ws ->
  exists c d, head (join [32%N] ws) = Some c /\ isspace c = false
              /\ last (join [32%N] ws) = Some d /\ isspace d = false.
Proof.
  induction ws as [|w ws IH]; intros Hne Hws; [done|].
  inversion Hws as [|? ? [Hwne Hw] Hws']; subst.
  destruct w as [|c w]; [done|]. inversion Hw as [|? ? Hc Hw']; subst.
  destruct ws as [|w2 ws].
  - simpl. exists c. destruct (last (c :: w)) as [d|] eqn:Hd.
    + exists d. repeat split; try done; [by apply is_word_not_space|].
      apply last_Some in Hd as (w0 & Hw0). rewrite Hw0 in Hw.
      apply Forall_app in Hw as [_ Hd]. inversion Hd; subst.
      by apply is_word_not_space.
    + by apply last_None in Hd.
  - destruct IH as (c2 & d & Hh & Hcs & Hl & Hds); [done|done|].
    exists c, d. rewrite join_cons_cons. repeat split; try done.
    + by apply is_word_not_space.
    + rewrite !last_app, Hl. done.
Qed.

(** After the first two substitutions the text is the words, a dropped
    word leaving an empty place; the third substitution joins the words
    that are left, with at most one space after them. *)
Lemma collapse_whitespace_words ws :
  Forall is_token ws ->
  let kept := List.filter (fun w => negb (is_legal_suffix w)) ws in
  exists trail, Forall (fun c => isspace c = true) trail
    /\ collapse_whitespace true
         (join [32%N] (List.map (fun w => if is_legal_suffix w then [] else w) ws))
       = join [32%N] kept ++ trail.
Proof.
  induction ws as [|w ws IH]; intros Hws kept; subst kept.
  { exists []. by split. }
  inversion Hws as [|? ? [Hne Hw] Hws']; subst.
  destruct (IH Hws') as (trail & Htrail & Heq). clear IH.
  destruct ws as [|w2 ws].
  - simpl. destruct (is_legal_suffix w); simpl.
    + exists []. by split.
    + exists []. split; [done|]. rewrite app_nil_r.
      rewrite <- (app_nil_r w) at 1. rewrite collapse_whitespace_word by done.
      simpl. by rewrite app_nil_r.
  - rewrite (filter_cons_if _ w). cbn [List.map]. rewrite join_cons_cons.
    cbn [List.map] in Heq.
    destruct (is_legal_suffix w); cbn [negb app].
    + cbn [collapse_whitespace]. rewrite isspace_32. by exists trail.
    + rewrite collapse_whitespace_word by done.
      cbn [collapse_whitespace]. rewrite isspace_32, Heq.
      destruct (List.filter (fun w => negb (is_legal_suffix w)) (w2 :: ws))
        as [|k kept'] eqn:Hk.
      * exists (32%N :: trail). split; [by constructor|]. done.
      * exists trail. split; [done|]. rewrite join_cons_cons.
        by rewrite <- !app_assoc.
Qed.

Lemma filter_tokens ws (f : list N -> bool) :
  Forall is_token ws -> Forall is_token (List.filter f ws).
Proof.
  intros Hws. rewrite Forall_forall in *. intros w Hin.
  apply list_elem_of_In, filter_In in Hin as [Hin _].
  by apply Hws, list_elem_of_In.
Qed.

Lemma strip_collapse_words ws :
  Forall is_token ws ->
  strip (collapse_whitespace false
           (join [32%N] (List.map (fun w => if is_legal_suffix w then [] else w) ws)))
  = join [32%N] (List.filter (fun w => negb (is_legal_suffix w)) ws).
Proof.
  intros Hws.
  set (kept := List.filter (fun w => negb (is_legal_suffix w)) ws).
  assert (Hends : join [32%N] kept = []
    \/ (exists c d, head (join [32%N] kept) = Some c /\ isspace c = false
                    /\ last (join [32%N] kept) = Some d /\ isspace d = false)).
  { destruct kept as [|k kept'] eqn:Hk; [by left|]. right.
    apply join_tokens_ends; [done|]. rewrite <- Hk. by apply filter_tokens. }
  assert (Hlead : exists lead trail,
    Forall (fun c => isspace c = true) lead
    /\ Forall (fun c => isspace c = true) trail
    /\ collapse_whitespace false
         (join [32%N] (List.map (fun w => if is_legal_suffix w then [] else w) ws))
       = lead ++ join [32%N] kept ++ trail).
  { destruct ws as [|w ws].
    { exists [], []. by repeat split. }
    inversion Hws as [|? ? [Hne Hw] Hws']; subst.
    destruct (is_legal_suffix w) eqn:Hlegal.
    - destruct ws as [|w2 ws].
      + exists [], []. subst kept. simpl. rewrite Hlegal. by repeat split.
      + destruct (collapse_whitespace_words (w2 :: ws) Hws')
          as (trail & Htrail & Heq).
        exists [32%N], trail. split; [by constructor|]. split; [done|].
        subst kept. rewrite (filter_cons_if _ w). cbn [List.map].
        rewrite Hlegal. cbn [negb].
        rewrite join_cons_cons. cbn [app collapse_whitespace].
        rewrite isspace_32. cbn [List.map] in Heq. by rewrite Heq.
    - destruct (collapse_whitespace_words (w :: ws) Hws)
        as (trail & Htrail & Heq).
      exists [], trail. split; [done|]. split; [done|]. cbn [app].
      subst kept. rewrite <- Heq. cbn [List.map]. rewrite Hlegal.
      destruct ws as [|w2 ws].
      + simpl. rewrite <- (app_nil_r w).
        by rewrite !collapse_whitespace_word.
      + cbn [List.map]. rewrite join_cons_cons.
        rewrite (collapse_whitespace_word w false) by done.
        by rewrite (collapse_whitespace_word w true) by done. }
  destruct Hlead as (lead & trail & Hl & Ht & ->).
  by apply strip_surround.
Qed.
End Spacing.

Section Words.
Variable nfkd : list N -> list N.
Implicit Types (name s : list N) (c : N) (ws : list (list N)).

Lemma normalize_name_stages name s :
  name <> [] -> nfkd name = s ->
  normalize_name nfkd name
  = strip (collapse_whitespace false
             (remove_punctuation (remove_suffixes None 0 (ascii_ignore s)))).
Proof. intros Hne <-. by destruct name. Qed.

Lemma filter_all (f : N -> bool) s :
  (forall c, c ∈ s -> f c = true) -> List.filter f s = s.
Proof.
  induction s as [|c s IH]; intros Hall; simpl; [done|].
  rewrite Hall by left. rewrite IH; [done|]. intros d Hd. apply Hall. by right.
Qed.

Lemma elem_of_join ws c :
  c ∈ join [32%N] ws -> c = 32%N \/ exists w, w ∈ ws /\ c ∈ w.
Proof.
  induction ws as [|w ws IH]; [by intros ?%elem_of_nil|].
  destruct ws as [|w2 ws].
  - simpl. intros Hin. right. exists w. split; [left | done].
  - rewrite join_cons_cons. intros Hin.
    apply elem_of_app in Hin as [Hin|Hin].
    { right. exists w. split; [left | done]. }
    apply elem_of_cons in Hin as [->|Hin]; [by left|].
    destruct (IH Hin) as [?|(w' & Hw' & Hc)]; [by left|].
    right. exists w'. split; [by right | done].
Qed.

Lemma join_words_chars ws c :
  Forall (fun w => Forall (fun c => is_word c = true) w) ws ->
  c ∈ join [32%N] ws -> is_word c = true \/ c = 32%N.
Proof.
  intros Hws Hin. destruct (elem_of_join _ _ Hin) as [->|(w & Hw & Hc)]; [by right|].
  left. rewrite Forall_forall in Hws. specialize (Hws w Hw).
  rewrite Forall_forall in Hws. by apply Hws.
Qed.

(** On words separated by single spaces, [normalize_name] drops the
    words that spell a legal suffix and keeps the others as they are. *)
Lemma normalize_name_words ws :
  Forall is_token ws ->
  nfkd (join [32%N] ws) = join [32%N] ws ->
  normalize_name nfkd (join [32%N] ws)
  = join [32%N] (List.filter (fun w => negb (is_legal_suffix w)) ws).
Proof.
  intros Hws Hnfkd.
  destruct (decide (join [32%N] ws = [])) as [Hnil|Hne].
  { rewrite Hnil. destruct ws as [|w [|w2 ws]]; [done| |by destruct w].
    simpl in Hnil. subst w. inversion Hws as [|? ? [? ?] ?]. done. }
  rewrite (normalize_name_stages _ _ Hne Hnfkd).
  assert (Hwords : Forall (fun w => Forall (fun c => is_word c = true) w) ws).
  { eapply Forall_impl; [exact Hws|]. by intros w [_ ?]. }
  unfold ascii_ignore. rewrite filter_all.
  2:{ intros c Hc. destruct (join_words_chars _ _ Hwords Hc) as [?| ->]; [|done].
      by apply is_word_ascii. }
  rewrite remove_suffixes_words by done.
  unfold remove_punctuation. rewrite filter_all.
  2:{ intros c Hc. apply orb_true_iff.
      assert (Herased : Forall (fun w => Forall (fun c => is_word c = true) w)
                (List.map (fun w => if is_legal_suffix w then [] else w) ws)).
      { clear -Hwords. induction Hwords as [|w ws Hw _ IH]; [constructor|].
        cbn [List.map]. constructor; [|done]. by destruct (is_legal_suffix w). }
      destruct (join_words_chars _ _ Herased Hc) as [?| ->]; [by left | by right]. }
  by apply strip_collapse_words.
Qed.
End Words.

Lemma nfkd_latin1_ascii (s : list N) :
  Forall (fun c => is_ascii c = true) s -> nfkd_latin1 s = s.
Proof.
  unfold nfkd_latin1. induction 1 as [|c s Hc _ IH]; [done|].
  cbn [flat_map]. rewrite IH.
  assert (latin1_decomposition c = [c]) as ->; [|done].
  unfold is_ascii in Hc. apply N.ltb_lt in Hc. unfold latin1_decomposition.
  destruct (N.leb_spec 192 c); [lia|]. cbn [andb].
  destruct (N.leb_spec 224 c); [lia|]. cbn [andb].
  repeat (match goal with
          | |- context [N.eqb c ?k] => destruct (N.eqb_spec c k); [lia|]
          end).
  done.
Qed.

(* ===================================================================== *)
(** * The first pattern on any text *)
(* ===================================================================== *)

Section Letters.
Implicit Types (c : N) (s w lit alt rest p r : list N).

Lemma lower_nonword c : is_word c = false -> lower c = c.
Proof.
  intros Hw. unfold lower.
  destruct ((65 <=? c)%N && (c <=? 90)%N) eqn:Hup; [|done].
  exfalso. apply not_true_iff_false in Hw. apply Hw.
  unfold is_word. char_arith.
Qed.

Lemma lower_eq_word (c p : N) : lower c = lower p -> is_word c = is_word p.
Proof.
  intros Heq. by rewrite <- (is_word_lower c), <- (is_word_lower p), Heq.
Qed.

Lemma lower_eq_nonword (c p : N) : is_word p = false -> lower c = p -> c = p.
Proof.
  intros Hp Heq.
  assert (Hc : is_word c = false).
  { rewrite <- is_word_lower, Heq. done. }
  by rewrite (lower_nonword c Hc) in Heq.
Qed.

Lemma spells_length lit w : spells lit w = true -> length w = length lit.
Proof.
  unfold spells. intros Hs%bool_decide_eq_true.
  by rewrite <- (length_map lower w), Hs, length_map.
Qed.

Lemma spells_word lit w :
  spells lit w = true -> forallb is_word lit = true ->
  Forall (fun c => is_word c = true) w.
Proof.
  unfold spells. intros Hs%bool_decide_eq_true Hlit.
  apply Forall_forallb_is_word.
  by rewrite <- forallb_is_word_lower, Hs, forallb_is_word_lower.
Qed.

Lemma first_alternative_cons alt (alts : list (list N)) s :
  first_alternative (alt :: alts) s
  = if try_alt alt s then Some (length alt) else first_alternative alts s.
Proof.
  unfold try_alt. simpl. destruct (match_literal alt s); [|done].
  by destruct (word_boundary _ _).
Qed.

Lemma match_literal_app lit1 : forall lit2 s,
  match_literal (lit1 ++ lit2) s
  = match match_literal lit1 s with
    | Some r => match_literal lit2 r
    | None => None
    end.
Proof.
  induction lit1 as [|p lit1 IH]; intros lit2 s; [done|]. simpl.
  destruct s as [|c s]; [done|]. by destruct (lower p =? lower c)%N.
Qed.

(** A run of word characters at the head of a word that is followed by a
    non-word character, or by nothing, lies inside the word. *)
Lemma word_prefix p : forall r w rest,
  p ++ r = w ++ rest -> Forall (fun c => is_word c = true) p ->
  is_word_at (head rest) = false ->
  exists w', w = p ++ w' /\ r = w' ++ rest.
Proof.
  induction p as [|a p IH]; intros r w rest Heq Hp Hrest; simpl in *.
  - by exists w.
  - inversion Hp as [|? ? Ha Hp']; subst.
    destruct w as [|b w]; simpl in *.
    + subst rest. simpl in Hrest. congruence.
    + injection Heq as -> Heq.
      destruct (IH r w rest Heq Hp' Hrest) as (w' & -> & ->). by exists w'.
Qed.

Lemma match_literal_word lit w rest r :
  forallb is_word lit = true ->
  is_word_at (head rest) = false ->
  match_literal lit (w ++ rest) = Some r ->
  exists p w', w = p ++ w' /\ r = w' ++ rest
               /\ List.map lower p = List.map lower lit.
Proof.
  intros Hlit Hrest Hm. apply match_literal_Some in Hm as (p & Hs & Hp).
  assert (Hpw : Forall (fun c => is_word c = true) p).
  { apply Forall_forallb_is_word.
    by rewrite <- forallb_is_word_lower, Hp, forallb_is_word_lower. }
  destruct (word_prefix p r w rest (eq_sym Hs) Hpw Hrest) as (w' & -> & ->).
  by exists p, w'.
Qed.

(** An alternative made of word characters, tried at the start of a word:
    it matches when it spells the whole word. *)
Lemma try_alt_word alt w rest :
  alt <> [] -> forallb is_word alt = true ->
  Forall (fun c => is_word c = true) w ->
  is_word_at (head rest) = false ->
  try_alt alt (w ++ rest) = spells alt w.
Proof.
  intros Hne Halt Hw Hrest. unfold try_alt, spells.
  destruct (match_literal alt (w ++ rest)) as [r|] eqn:Hm.
  - destruct (match_literal_word _ _ _ _ Halt Hrest Hm) as (p & w' & -> & -> & Hp).
    unfold word_boundary. rewrite (last_is_word alt Hne Halt). cbn [xorb].
    destruct w' as [|c w'].
    + rewrite !app_nil_r. cbn [app]. rewrite Hrest. cbn [negb].
      symmetry. by apply bool_decide_eq_true.
    + apply Forall_app in Hw as [_ Hw']. inversion Hw' as [|? ? Hc _]; subst.
      cbn [app head is_word_at]. rewrite Hc. cbn [negb].
      symmetry. apply bool_decide_eq_false. intros Heq.
      apply (f_equal length) in Heq, Hp. rewrite !length_map in Heq, Hp.
      rewrite length_app in Heq. simpl in Heq. lia.
  - symmetry. apply bool_decide_eq_false. intros Heq.
    assert (match_literal alt (w ++ rest) = Some rest); [|congruence].
    apply match_literal_Some. by exists w.
Qed.
End Letters.

Section Alternatives.
Implicit Types (c : N) (s w lit alt rest p r : list N) (prev : option N).

Lemma match_literal_at_word lit w rest :
  forallb is_word lit = true ->
  Forall (fun c => is_word c = true) w ->
  is_word_at (head rest) = false ->
  match match_literal lit (w ++ rest) with
  | Some r => (spells lit w = true /\ r = rest)
              \/ (spells lit w = false
                  /\ exists c r', r = c :: r' /\ is_word c = true)
  | None => spells lit w = false
  end.
Proof.
  intros Hlit Hw Hrest. unfold spells.
  destruct (match_literal lit (w ++ rest)) as [r|] eqn:Hm.
  - destruct (match_literal_word _ _ _ _ Hlit Hrest Hm) as (p & w' & -> & -> & Hp).
    destruct w' as [|c w'].
    + left. rewrite app_nil_r. split; [by apply bool_decide_eq_true | done].
    + right. apply Forall_app in Hw as [_ Hw']. inversion Hw' as [|? ? Hc _]; subst.
      split; [|by exists c, (w' ++ rest)].
      apply bool_decide_eq_false. intros Heq.
      apply (f_equal length) in Heq, Hp. rewrite !length_map in Heq, Hp.
      rewrite length_app in Heq. simpl in Heq. lia.
  - apply bool_decide_eq_false. intros Heq.
    assert (match_literal lit (w ++ rest) = Some rest); [|congruence].
    apply match_literal_Some. by exists w.
Qed.

Lemma match_literal_nonword_head (q : N) lit c r :
  is_word q = false -> is_word c = true ->
  match_literal (q :: lit) (c :: r) = None.
Proof.
  intros Hq Hc. simpl.
  destruct (N.eqb_spec (lower q) (lower c)) as [Heq|Hne]; [|done].
  apply lower_eq_word in Heq. congruence.
Qed.

(** [Ltda\.] at the start of a word: the word spells Ltda, a dot follows,
    and a word character follows the dot. *)
Lemma try_alt_ltda_dot w rest :
  Forall (fun c => is_word c = true) w ->
  is_word_at (head rest) = false ->
  try_alt [76; 116; 100; 97; 46]%N (w ++ rest)
  = spells [76; 116; 100; 97]%N w && dot_then_word rest.
Proof.
  intros Hw Hrest. unfold try_alt.
  change [76; 116; 100; 97; 46]%N with ([76; 116; 100; 97] ++ [46])%N.
  rewrite match_literal_app.
  pose proof (match_literal_at_word [76; 116; 100; 97]%N w rest eq_refl Hw Hrest)
    as Hm.
  destruct (match_literal [76; 116; 100; 97]%N (w ++ rest)) as [r|];
    [|by rewrite Hm].
  destruct Hm as [[-> ->]|[-> (c & r' & -> & Hc)]].
  - cbn [andb]. destruct rest as [|c rest']; [done|].
    cbn [match_literal dot_then_word]. change (lower 46) with 46%N.
    destruct (N.eqb_spec 46 (lower c)) as [Heq|Hne].
    + symmetry in Heq. apply (lower_eq_nonword c 46 eq_refl) in Heq. subst c.
      unfold word_boundary. cbn [is_word_at head].
      by destruct (is_word_at (head rest')).
    + destruct (N.eqb_spec c 46) as [->|_]; [done|done].
  - cbn [andb]. by rewrite (match_literal_nonword_head 46 [] c r' eq_refl Hc).
Qed.

(** [S\/A] at the start of a word: the word spells S, then a slash, then
    a word that spells A. *)
Lemma try_alt_s_a w rest :
  Forall (fun c => is_word c = true) w ->
  is_word_at (head rest) = false ->
  try_alt [83; 47; 65]%N (w ++ rest) = spells [83]%N w && slash_a rest.
Proof.
  intros Hw Hrest. unfold try_alt.
  change [83; 47; 65]%N with ([83] ++ [47; 65])%N.
  rewrite match_literal_app.
  pose proof (match_literal_at_word [83]%N w rest eq_refl Hw Hrest) as Hm.
  destruct (match_literal [83]%N (w ++ rest)) as [r|]; [|by rewrite Hm].
  destruct Hm as [[-> ->]|[-> (c & r' & -> & Hc)]].
  - cbn [andb]. destruct rest as [|c [|d rest']]; [done| |].
    + cbn [match_literal slash_a]. by destruct (lower 47 =? lower c)%N.
    + cbn [match_literal slash_a].
      change (lower 47) with 47%N. change (lower 65) with 97%N.
      destruct (N.eqb_spec 47 (lower c)) as [Heq|Hne].
      * symmetry in Heq. apply (lower_eq_nonword c 47 eq_refl) in Heq. subst c.
        change (47 =? 47)%N with true. cbn [andb]. rewrite (N.eqb_sym 97).
        destruct (lower d =? 97)%N; [|done]. cbn [andb].
        unfold word_boundary. cbn [is_word_at last].
        by destruct (is_word_at (head rest')).
      * destruct (N.eqb_spec c 47) as [->|_]; [done|done].
  - cbn [andb]. by rewrite (match_literal_nonword_head 47 [65%N] c r' eq_refl Hc).
Qed.

(** An alternative starts with a letter, so none matches at a character
    that is not a word character. *)
Lemma match_suffix_at_nonword c rest prev :
  is_word c = false -> match_suffix_at prev (c :: rest) = None.
Proof.
  intros Hc. unfold match_suffix_at.
  destruct (word_boundary prev (head (c :: rest))); [|done].
  assert (Hall : Forall (fun alt => exists q alt', alt = q :: alt'
                                     /\ is_word q = true) LEGAL_SUFFIXES).
  { repeat constructor; by eexists _, _. }
  induction Hall as [|alt alts (q & alt' & -> & Hq) _ IH]; [done|].
  simpl. destruct (N.eqb_spec (lower q) (lower c)) as [Heq|Hne]; [|done].
  apply lower_eq_word in Heq. congruence.
Qed.

Lemma remove_suffixes_nonword c rest prev :
  is_word c = false ->
  remove_suffixes prev 0 (c :: rest) = c :: remove_suffixes (Some c) 0 rest.
Proof.
  intros Hc. cbn [remove_suffixes]. by rewrite match_suffix_at_nonword.
Qed.

(** What precedes does not matter to the scan of a text that starts with
    a non-word character. *)
Lemma remove_suffixes_from_nonword s prev prev' :
  is_word_at (head s) = false ->
  remove_suffixes prev 0 s = remove_suffixes prev' 0 s.
Proof.
  destruct s as [|c s]; [done|]. cbn [head is_word_at]. intros Hc.
  by rewrite !remove_suffixes_nonword.
Qed.

Lemma is_legal_suffix_spells w :
  is_legal_suffix w
  = spells [76; 116; 100; 97]%N w || spells [69; 73; 82; 69; 76; 73]%N w
    || spells [83; 65]%N w || spells [76; 105; 109; 105; 116; 101; 100]%N w
    || spells [76; 116; 100]%N w.
Proof.
  unfold is_legal_suffix, spells.
  apply eq_true_iff_eq. rewrite !orb_true_iff, !bool_decide_eq_true.
  change (List.map (List.map lower) (List.filter (forallb is_word) LEGAL_SUFFIXES))
    with [List.map lower [76; 116; 100; 97]%N;
          List.map lower [69; 73; 82; 69; 76; 73]%N;
          List.map lower [83; 65]%N;
          List.map lower [76; 105; 109; 105; 116; 101; 100]%N;
          List.map lower [76; 116; 100]%N].
  rewrite !elem_of_cons, elem_of_nil. tauto.
Qed.

(** The pattern tried at the start of a word [w] of the text. *)
Lemma match_suffix_at_token w rest prev :
  is_token w -> is_word_at prev = false -> is_word_at (head rest) = false ->
  match_suffix_at prev (w ++ rest)
  = if is_legal_suffix w then
      Some (if spells [76; 116; 100; 97]%N w && dot_then_word rest
            then S (length w) else length w)
    else if spells [83]%N w && slash_a rest then Some 3%nat
    else None.
Proof.
  intros [Hne Hw] Hprev Hrest. unfold match_suffix_at, word_boundary.
  rewrite Hprev. destruct w as [|c w']; [done|].
  inversion Hw as [|? ? Hc Hw']; subst. cbn [app head is_word_at].
  rewrite Hc. cbn [xorb].
  change (c :: w' ++ rest) with ((c :: w') ++ rest).
  set (w := c :: w') in *.
  change LEGAL_SUFFIXES with
    [[76; 116; 100; 97; 46]; [76; 116; 100; 97]; [69; 73; 82; 69; 76; 73];
     [83; 47; 65]; [83; 65]; [76; 105; 109; 105; 116; 101; 100];
     [76; 116; 100]]%N.
  rewrite !first_alternative_cons.
  rewrite try_alt_ltda_dot, try_alt_s_a by done.
  rewrite !try_alt_word by done.
  rewrite is_legal_suffix_spells.
  destruct (spells [76; 116; 100; 97]%N w) eqn:H1.
  { cbn [orb andb]. rewrite (spells_length _ _ H1).
    by destruct (dot_then_word rest). }
  cbn [orb andb].
  destruct (spells [69; 73; 82; 69; 76; 73]%N w) eqn:H2.
  { cbn [orb]. by rewrite (spells_length _ _ H2). }
  cbn [orb].
  destruct (spells [83]%N w) eqn:H3.
  { assert (spells [83; 65]%N w = false) as ->.
    { apply not_true_is_false. intros H4.
      apply spells_length in H3, H4. simpl in *. lia. }
    assert (spells [76; 105; 109; 105; 116; 101; 100]%N w = false) as ->.
    { apply not_true_is_false. intros H4.
      apply spells_length in H3, H4. simpl in *. lia. }
    assert (spells [76; 116; 100]%N w = false) as ->.
    { apply not_true_is_false. intros H4.
      apply spells_length in H3, H4. simpl in *. lia. }
    cbn [orb andb]. by destruct (slash_a rest). }
  cbn [andb].
  destruct (spells [83; 65]%N w) eqn:H4.
  { cbn [orb]. by rewrite (spells_length _ _ H4). }
  cbn [orb].
  destruct (spells [76; 105; 109; 105; 116; 101; 100]%N w) eqn:H5.
  { cbn [orb]. by rewrite (spells_length _ _ H5). }
  cbn [orb].
  destruct (spells [76; 116; 100]%N w) eqn:H6; [|done].
  by rewrite (spells_length _ _ H6).
Qed.
End Alternatives.

Section TokenScan.
Implicit Types (c : N) (s t w m a b rest : list N) (prev : option N).

Lemma legal_suffix_token w : is_legal_suffix w = true -> is_token w.
Proof.
  intros (alt & Hin & Halt & Hlow)%is_legal_suffix_true.
  assert (Hshape := LEGAL_SUFFIXES_shape). rewrite Forall_forall in Hshape.
  destruct (Hshape alt Hin) as [Hne _]. split.
  - intros ->. by destruct alt.
  - apply Forall_forallb_is_word.
    by rewrite <- forallb_is_word_lower, <- Hlow, forallb_is_word_lower.
Qed.

(** One word of the text, with anything after it: a legal suffix is
    dropped, with the dot after Ltda when a word character follows the
    dot; a word S is dropped with "/A" after it; any other word stays. *)
Lemma remove_suffixes_token w rest prev :
  is_token w -> is_word_at prev = false -> is_word_at (head rest) = false ->
  remove_suffixes prev 0 (w ++ rest)
  = if is_legal_suffix w then
      if spells [76; 116; 100; 97]%N w && dot_then_word rest
      then remove_suffixes (Some 46%N) 0 (tail rest)
      else remove_suffixes (last w) 0 rest
    else if spells [83]%N w && slash_a rest
      then remove_suffixes (rest !! 1%nat) 0 (drop 2 rest)
      else w ++ remove_suffixes (last w) 0 rest.
Proof.
  intros Htok Hprev Hrest.
  pose proof (match_suffix_at_token w rest prev Htok Hprev Hrest) as Hm.
  destruct Htok as [Hne Hw].
  destruct w as [|c w']; [done|]. inversion Hw as [|? ? Hc Hw']; subst.
  assert (Hlast : from_option Some (Some c) (last w') = last (c :: w')).
  { rewrite last_cons. by destruct (last w'). }
  cbn [app remove_suffixes]. cbn [app] in Hm. rewrite Hm.
  destruct (is_legal_suffix (c :: w')).
  - destruct (spells [76; 116; 100; 97]%N (c :: w') && dot_then_word rest) eqn:Hdot.
    + apply andb_true_iff in Hdot as [_ Hdot].
      destruct rest as [|d rest']; [done|]. cbn [dot_then_word] in Hdot.
      apply andb_true_iff in Hdot as [->%N.eqb_eq _].
      cbn [Nat.pred tail length].
      replace (w' ++ 46%N :: rest') with ((w' ++ [46%N]) ++ rest')
        by by rewrite <- app_assoc.
      replace (S (length w')) with (length (w' ++ [46%N]))
        by (rewrite length_app; simpl; lia).
      rewrite remove_suffixes_skip. by rewrite last_snoc.
    + cbn [length Nat.pred]. by rewrite remove_suffixes_skip, Hlast.
  - destruct (spells [83]%N (c :: w') && slash_a rest) eqn:Hsa.
    + apply andb_true_iff in Hsa as [Hs Hsa].
      apply spells_length in Hs. destruct w' as [|? ?]; [|done].
      destruct rest as [|d [|e rest']]; [done|done|].
      reflexivity.
    + rewrite remove_suffixes_inside by done. by rewrite Hlast.
Qed.

Lemma remove_suffixes_prev s prev prev' :
  is_word_at prev = is_word_at prev' ->
  remove_suffixes prev 0 s = remove_suffixes prev' 0 s.
Proof.
  intros Heq. destruct s as [|c s]; [done|]. cbn [remove_suffixes].
  unfold match_suffix_at, word_boundary. by rewrite Heq.
Qed.

Lemma remove_punctuation_app s t :
  remove_punctuation (s ++ t) = remove_punctuation s ++ remove_punctuation t.
Proof. apply List.filter_app. Qed.

Lemma remove_punctuation_word w :
  Forall (fun c => is_word c = true) w -> remove_punctuation w = w.
Proof.
  intros Hw. apply filter_all. intros c Hc.
  rewrite Forall_forall in Hw. by rewrite (Hw c Hc).
Qed.

Lemma words_kept_nonword c t :
  is_word c = false ->
  words_kept (c :: t) = remove_punctuation [c] ++ words_kept t.
Proof.
  intros Hc. unfold words_kept. rewrite remove_suffixes_nonword by done.
  change (c :: remove_suffixes (Some c) 0 t)
    with ([c] ++ remove_suffixes (Some c) 0 t).
  rewrite remove_punctuation_app. f_equal. f_equal.
  apply remove_suffixes_prev. simpl. done.
Qed.

Lemma words_kept_legal w rest :
  is_legal_suffix w = true -> is_word_at (head rest) = false ->
  words_kept (w ++ rest) = words_kept rest.
Proof.
  intros Hlegal Hrest. unfold words_kept.
  rewrite (remove_suffixes_token w rest None (legal_suffix_token w Hlegal)
             eq_refl Hrest).
  rewrite Hlegal.
  destruct (spells [76; 116; 100; 97]%N w && dot_then_word rest) eqn:Hdot.
  - apply andb_true_iff in Hdot as [_ Hdot].
    destruct rest as [|d rest']; [done|]. cbn [dot_then_word] in Hdot.
    apply andb_true_iff in Hdot as [->%N.eqb_eq _]. cbn [tail].
    by rewrite (remove_suffixes_nonword 46 rest' None eq_refl).
  - f_equal. by apply remove_suffixes_from_nonword.
Qed.

Lemma words_kept_s_a m b :
  spells [83; 47; 65]%N m = true -> is_word_at (head b) = false ->
  words_kept (m ++ b) = words_kept b.
Proof.
  intros Hm Hb. unfold spells in Hm. apply bool_decide_eq_true in Hm.
  destruct m as [|c1 [|c2 [|c3 [|? ?]]]]; try done.
  cbn [List.map] in Hm. injection Hm as H1 H2 H3.
  change (lower 47) with 47%N in H2. change (lower 65) with 97%N in H3.
  apply (lower_eq_nonword c2 47 eq_refl) in H2. subst c2.
  assert (Hc1 : is_word c1 = true) by by rewrite (lower_eq_word c1 83 H1).
  unfold words_kept.
  change ([c1; 47%N; c3] ++ b) with ([c1] ++ 47%N :: c3 :: b).
  rewrite (remove_suffixes_token [c1] (47%N :: c3 :: b) None); [| |done|done].
  2:{ split; [done|]. by constructor. }
  assert (is_legal_suffix [c1] = false) as ->.
  { rewrite is_legal_suffix_spells. unfold spells.
    rewrite !bool_decide_eq_false_2; [done|..]; by intros [=]. }
  assert (spells [83]%N [c1] && slash_a (47%N :: c3 :: b) = true) as ->.
  { apply andb_true_iff. split.
    - unfold spells. apply bool_decide_eq_true. cbn [List.map]. by rewrite H1.
    - cbn [slash_a]. rewrite H3, Hb. done. }
  cbn [lookup list_lookup drop]. f_equal.
  by apply remove_suffixes_from_nonword.
Qed.

Lemma words_kept_other w rest :
  is_token w -> is_legal_suffix w = false ->
  is_word_at (head rest) = false ->
  spells [83]%N w && slash_a rest = false ->
  words_kept (w ++ rest) = w ++ words_kept rest.
Proof.
  intros Htok Hlegal Hrest Hsa. unfold words_kept.
  rewrite (remove_suffixes_token w rest None Htok eq_refl Hrest).
  rewrite Hlegal, Hsa. rewrite remove_punctuation_app.
  rewrite remove_punctuation_word by apply Htok. do 2 f_equal.
  by apply remove_suffixes_from_nonword.
Qed.

(** A text is empty, or starts with a character that is not a word
    character, or starts with a word that runs up to such a character or
    to the end. *)
Lemma text_cases s :
  s = []
  \/ (exists c s', s = c :: s' /\ is_word c = false)
  \/ (exists w s', s = w ++ s' /\ is_token w /\ is_word_at (head s') = false).
Proof.
  induction s as [|c s IH]; [by left|]. right.
  destruct (is_word c) eqn:Hc; [right | left; by exists c, s].
  destruct IH as [->|[(d & s' & -> & Hd)|(w & s' & -> & [Hne Hw] & Hs')]].
  - exists [c], []. split; [done|]. split; [|done]. split; [done|]. by constructor.
  - exists [c], (d :: s'). split; [done|]. split; [|done].
    split; [done|]. by constructor.
  - exists (c :: w), s'. split; [done|]. split; [|done].
    split; [done|]. by constructor.
Qed.
End TokenScan.

Section Standalone.
Implicit Types (c : N) (s t w m a b rest : list N).

Lemma last_nonword_cons c a :
  is_word_at (last (c :: a)) = false -> is_word_at (last a) = false.
Proof. destruct a as [|d a]; [done|]. by rewrite last_cons_cons. Qed.

Lemma last_nonword_app w a :
  is_token w -> is_word_at (last (w ++ a)) = false ->
  a <> [] /\ is_word_at (last a) = false.
Proof.
  intros [Hne Hw] Hlast. destruct a as [|d a].
  - rewrite app_nil_r in Hlast.
    rewrite last_is_word in Hlast; [done|done|by apply Forall_forallb_is_word].
  - split; [done|]. by rewrite last_app_cons in Hlast.
Qed.

Lemma nonword_not_a c : is_word c = false -> (lower c =? 97)%N = false.
Proof.
  intros Hc. apply N.eqb_neq. intros Heq.
  by rewrite <- is_word_lower, Heq in Hc.
Qed.

(** What the pattern deletes as a unit: a word that spells Ltda, EIRELI,
    SA, Limited or Ltd, or the three characters "S/A". *)
Lemma suffix_head m :
  is_legal_suffix m = true \/ spells [83; 47; 65]%N m = true ->
  exists c m', m = c :: m' /\ is_word c = true /\ (lower c =? 97)%N = false.
Proof.
  rewrite is_legal_suffix_spells, !orb_true_iff. unfold spells.
  rewrite !bool_decide_eq_true.
  intros Hm. destruct m as [|c m']; [naive_solver|]. exists c, m'.
  split; [done|]. cbn [List.map] in Hm.
  assert (Hc : lower c = 108%N \/ lower c = 101%N \/ lower c = 115%N).
  { destruct Hm as [[[[[Hm|Hm]|Hm]|Hm]|Hm]|Hm]; injection Hm as Hc _;
      rewrite Hc; vm_compute; tauto. }
  split.
  - rewrite <- is_word_lower. by destruct Hc as [->|[->| ->]].
  - apply N.eqb_neq. by destruct Hc as [->|[->| ->]].
Qed.

Lemma spells_s_slash_a w c d :
  spells [83]%N w = true -> (c =? 47)%N = true -> (lower d =? 97)%N = true ->
  spells [83; 47; 65]%N (w ++ [c; d]) = true.
Proof.
  unfold spells. rewrite !bool_decide_eq_true.
  intros Hw ->%N.eqb_eq Hd%N.eqb_eq.
  rewrite map_app, Hw. cbn [List.map app]. by rewrite Hd.
Qed.

(** A piece of text that leaves nothing when it heads a text, and that
    does not start with the letter A, leaves nothing either when it stands
    between two characters that are not word characters. *)
Lemma words_kept_erase_between a m b :
  (forall t, is_word_at (head t) = false -> words_kept (m ++ t) = words_kept t) ->
  (exists c m', m = c :: m' /\ (lower c =? 97)%N = false) ->
  is_word_at (last a) = false -> is_word_at (head b) = false ->
  words_kept (a ++ m ++ b) = words_kept (a ++ b).
Proof.
  intros Hbase (c1 & m' & Hm1 & Hc1a) Hlast Hb.
  remember (length a) as n eqn:Hn.
  revert a Hn Hlast. induction n as [n IH] using lt_wf_ind.
  intros a Hn Hlast.
  destruct (text_cases a) as [->|[(c & a' & -> & Hc)|(w & a' & -> & Htok & Ha')]].
  - cbn [app]. by apply Hbase.
  - cbn [app]. rewrite !words_kept_nonword by done. f_equal.
    eapply IH; [|reflexivity|by eapply last_nonword_cons].
    subst n. simpl. lia.
  - destruct (last_nonword_app w a' Htok Hlast) as [Hne' Hlast'].
    assert (Hshort : (length a' < n)%nat).
    { subst n. rewrite length_app. destruct Htok as [Hw _].
      destruct w; [done|]. simpl. lia. }
    destruct a' as [|c a'']; [done|]. cbn [head is_word_at] in Ha'.
    rewrite <- !app_assoc.
    destruct (is_legal_suffix w) eqn:Hlegal.
    { rewrite (words_kept_legal w ((c :: a'') ++ m ++ b)) by done.
      rewrite (words_kept_legal w ((c :: a'') ++ b)) by done.
      by eapply IH. }
    assert (Hflag : spells [83]%N w && slash_a ((c :: a'') ++ m ++ b)
                    = spells [83]%N w && slash_a ((c :: a'') ++ b)).
    { f_equal. destruct a'' as [|d [|e a3]].
      - subst m. cbn [app slash_a]. rewrite Hc1a.
        destruct b as [|d b']; [by rewrite andb_false_r|].
        cbn [slash_a]. cbn [head is_word_at] in Hb.
        by rewrite (nonword_not_a d Hb), !andb_false_r.
      - cbn [app slash_a].
        assert (Hd : is_word d = false).
        { apply last_nonword_cons in Hlast'. done. }
        rewrite (nonword_not_a d Hd). by rewrite !andb_false_r.
      - done. }
    destruct (spells [83]%N w && slash_a ((c :: a'') ++ b)) eqn:Hsa.
    + apply andb_true_iff in Hsa as [Hs Hsa].
      destruct a'' as [|d [|e a3]].
      * destruct b as [|d b']; [done|]. cbn [app slash_a] in Hsa.
        cbn [head is_word_at] in Hb.
        by rewrite (nonword_not_a d Hb), andb_false_r in Hsa.
      * cbn [app slash_a] in Hsa.
        assert (Hd : is_word d = false).
        { apply last_nonword_cons in Hlast'. done. }
        by rewrite (nonword_not_a d Hd), andb_false_r in Hsa.
      * cbn [app slash_a head is_word_at] in Hsa.
        apply andb_true_iff in Hsa as [[H47 Ha]%andb_true_iff He].
        apply negb_true_iff in He.
        pose proof (spells_s_slash_a w c d Hs H47 Ha) as Hsp.
        change (w ++ (c :: d :: e :: a3) ++ m ++ b)
          with (w ++ [c; d] ++ (e :: a3) ++ m ++ b).
        change (w ++ (c :: d :: e :: a3) ++ b)
          with (w ++ [c; d] ++ (e :: a3) ++ b).
        rewrite !(app_assoc w [c; d]).
        rewrite !(words_kept_s_a (w ++ [c; d])) by done.
        eapply IH; [|reflexivity|].
        -- simpl in Hshort. simpl. lia.
        -- by do 2 apply last_nonword_cons in Hlast'.
    + rewrite (words_kept_other w ((c :: a'') ++ m ++ b));
        [|done|done|done|by rewrite Hflag].
      rewrite (words_kept_other w ((c :: a'') ++ b)) by done.
      f_equal. by eapply IH.
Qed.

(** One of the seven alternatives of the pattern, in any letter case,
    standing in the text with no word character before or after it,
    leaves nothing: the text is kept as it would be without it. *)
Lemma words_kept_erase a m b lit :
  lit ∈ LEGAL_SUFFIXES -> spells lit m = true ->
  is_word_at (last a) = false -> is_word_at (head b) = false ->
  words_kept (a ++ m ++ b) = words_kept (a ++ b).
Proof.
  intros Hlit Hsp Hlast Hb.
  assert (Hunit : forall m0,
    is_legal_suffix m0 = true \/ spells [83; 47; 65]%N m0 = true ->
    forall b0, is_word_at (head b0) = false ->
    words_kept (a ++ m0 ++ b0) = words_kept (a ++ b0)).
  { intros m0 Hm0 b0 Hb0.
    destruct (suffix_head m0 Hm0) as (c & m' & -> & _ & Hc).
    apply words_kept_erase_between; [|by exists c, m'|done|done].
    intros t Ht. destruct Hm0 as [Hm0|Hm0];
      [by apply words_kept_legal | by apply words_kept_s_a]. }
  change LEGAL_SUFFIXES with
    [[76; 116; 100; 97; 46]; [76; 116; 100; 97]; [69; 73; 82; 69; 76; 73];
     [83; 47; 65]; [83; 65]; [76; 105; 109; 105; 116; 101; 100];
     [76; 116; 100]]%N in Hlit.
  rewrite !elem_of_cons, elem_of_nil in Hlit.
  destruct Hlit as [->|[->|[->|[->|[->|[->|[->|[]]]]]]]].
  - (* Ltda. : the word Ltda, then the dot *)
    unfold spells in Hsp. apply bool_decide_eq_true in Hsp.
    destruct m as [|c1 [|c2 [|c3 [|c4 [|c5 [|? ?]]]]]]; try done.
    cbn [List.map] in Hsp. injection Hsp as H1 H2 H3 H4 H5.
    change (lower 46) with 46%N in H5.
    apply (lower_eq_nonword c5 46 eq_refl) in H5. subst c5.
    change ([c1; c2; c3; c4; 46%N] ++ b) with ([c1; c2; c3; c4] ++ [46%N] ++ b).
    rewrite (Hunit [c1; c2; c3; c4]); [| |done].
    2:{ left. rewrite is_legal_suffix_spells. unfold spells.
        rewrite (bool_decide_eq_true_2 (List.map lower [c1; c2; c3; c4]
                   = List.map lower [76; 116; 100; 97]%N)); [done|].
        cbn [List.map]. by rewrite H1, H2, H3, H4. }
    apply words_kept_erase_between; [|by exists 46%N, []|done|done].
    intros t Ht. cbn [app]. by rewrite (words_kept_nonword 46 t eq_refl).
  - apply Hunit; [|done]. left. rewrite is_legal_suffix_spells. by rewrite Hsp.
  - apply Hunit; [|done]. left. rewrite is_legal_suffix_spells. rewrite Hsp.
    by rewrite !orb_true_r.
  - apply Hunit; [|done]. by right.
  - apply Hunit; [|done]. left. rewrite is_legal_suffix_spells. rewrite Hsp.
    by rewrite !orb_true_r.
  - apply Hunit; [|done]. left. rewrite is_legal_suffix_spells. rewrite Hsp.
    by rewrite !orb_true_r.
  - apply Hunit; [|done]. left. rewrite is_legal_suffix_spells. rewrite Hsp.
    by rewrite !orb_true_r.
Qed.

Lemma last_not_slash_cons c a :
  last (c :: a) <> Some 47%N -> last a <> Some 47%N.
Proof. destruct a as [|d a]; [done|]. by rewrite last_cons_cons. Qed.

(** A word that is not a legal suffix stays where it is, unless it is the
    letter S directly before a slash or the letter A directly after
    one. *)
Lemma words_kept_keep a w b :
  is_word_at (last a) = false -> is_word_at (head b) = false ->
  is_token w -> is_legal_suffix w = false ->
  (spells [83]%N w = true -> head b <> Some 47%N) ->
  (spells [65]%N w = true -> last a <> Some 47%N) ->
  exists x, words_kept (a ++ w ++ b) = x ++ w ++ words_kept b.
Proof.
  intros Hlast Hb Hw Hlegal Hs Ha. remember (length a) as n eqn:Hn.
  revert a Hn Hlast Ha. induction n as [n IH] using lt_wf_ind.
  intros a Hn Hlast Ha.
  destruct (text_cases a) as [->|[(c & a' & -> & Hc)|(v & a' & -> & Htok & Ha')]].
  - exists []. cbn [app]. apply words_kept_other; [done|done|done|].
    destruct (spells [83]%N w) eqn:Hsw; [|done]. cbn [andb].
    destruct b as [|c [|d b']]; [done|done|]. cbn [slash_a].
    destruct (N.eqb_spec c 47) as [->|_]; [|done].
    by destruct (Hs eq_refl).
  - destruct (IH (length a')) with (a := a') as [x Hx];
      [subst n; simpl; lia | done | by eapply last_nonword_cons | |].
    { intros Hsp. specialize (Ha Hsp). by apply last_not_slash_cons in Ha. }
    exists (remove_punctuation [c] ++ x). cbn [app].
    rewrite words_kept_nonword by done. by rewrite Hx, <- app_assoc.
  - destruct (last_nonword_app v a' Htok Hlast) as [Hne' Hlast'].
    assert (Hshort : (length a' < n)%nat).
    { subst n. rewrite length_app. destruct Htok as [Hv _].
      destruct v; [done|]. simpl. lia. }
    destruct a' as [|c a'']; [done|]. cbn [head is_word_at] in Ha'.
    rewrite last_app_cons in Ha.
    rewrite <- !app_assoc.
    destruct (IH _ Hshort (c :: a'') eq_refl Hlast' Ha) as [x Hx].
    destruct (is_legal_suffix v) eqn:Hlegalv.
    { rewrite words_kept_legal by done. by exists x. }
    destruct (spells [83]%N v && slash_a ((c :: a'') ++ w ++ b)) eqn:Hsa.
    + apply andb_true_iff in Hsa as [Hsv Hsa].
      destruct a'' as [|d a3].
      * exfalso. destruct Hw as [Hne Hword].
        destruct w as [|c1 w']; [done|]. cbn [app slash_a] in Hsa.
        apply andb_true_iff in Hsa as [[H47 Hc1]%andb_true_iff Hend].
        apply negb_true_iff in Hend. apply N.eqb_eq in H47. subst c.
        destruct w' as [|c2 w''].
        -- apply Ha; [|done]. unfold spells. apply bool_decide_eq_true.
           cbn [List.map]. apply N.eqb_eq in Hc1. by rewrite Hc1.
        -- inversion Hword as [|? ? _ Hword']; subst.
           inversion Hword' as [|? ? Hc2 _]; subst.
           cbn [app head is_word_at] in Hend. congruence.
      * cbn [app slash_a] in Hsa.
        apply andb_true_iff in Hsa as [[H47 Hd]%andb_true_iff Hend].
        apply negb_true_iff in Hend.
        destruct a3 as [|e a4].
        { exfalso. destruct Hw as [Hne Hword].
          destruct w as [|c1 w']; [done|]. inversion Hword as [|? ? Hc1 _]; subst.
          cbn [app head is_word_at] in Hend. congruence. }
        cbn [app head is_word_at] in Hend.
        pose proof (spells_s_slash_a v c d Hsv H47 Hd) as Hsp.
        destruct (IH (length (e :: a4))) with (a := e :: a4) as [y Hy];
          [simpl in Hshort; simpl; lia | done
          | by do 2 apply last_nonword_cons in Hlast' | |].
        { intros Hspa. specialize (Ha Hspa).
          by do 2 apply last_not_slash_cons in Ha. }
        exists y.
        change (v ++ (c :: d :: e :: a4) ++ w ++ b)
          with (v ++ [c; d] ++ (e :: a4) ++ w ++ b).
        rewrite (app_assoc v [c; d]).
        by rewrite (words_kept_s_a (v ++ [c; d])).
    + exists (v ++ x). rewrite words_kept_other by done.
      by rewrite Hx, <- app_assoc.
Qed.
End Standalone.

Section Survives.
Implicit Types (c : N) (s t w x y : list N).

Lemma collapse_whitespace_keep w y x : forall in_run : bool,
  is_token w ->
  exists x', collapse_whitespace in_run (x ++ w ++ y)
             = x' ++ w ++ collapse_whitespace false y.
Proof.
  intros in_run [Hne Hw]. revert in_run.
  induction x as [|c x IH]; intros in_run.
  - exists []. cbn [app]. by apply collapse_whitespace_word.
  - cbn [app collapse_whitespace]. destruct (isspace c).
    + destruct in_run.
      * destruct (IH true) as [x' ->]. by exists x'.
      * destruct (IH true) as [x' ->]. by exists (32%N :: x').
    + destruct (IH false) as [x' ->]. by exists (c :: x').
Qed.

Lemma lstrip_keep w y x :
  is_token w -> exists l, lstrip (x ++ w ++ y) = l ++ w ++ y.
Proof.
  intros [Hne Hw]. induction x as [|c x [l IH]].
  - exists []. cbn [app]. destruct w as [|c w']; [done|].
    inversion Hw as [|? ? Hc _]; subst. cbn [app lstrip].
    by rewrite (is_word_not_space c Hc).
  - cbn [app lstrip]. destruct (isspace c); [by exists l | by exists (c :: x)].
Qed.

Lemma strip_keep w y x :
  is_token w -> exists l r, strip (x ++ w ++ y) = l ++ w ++ r.
Proof.
  intros Htok. unfold strip, rstrip.
  destruct (lstrip_keep w y x Htok) as [l ->].
  rewrite !rev_app_distr, <- app_assoc.
  assert (Hrev : is_token (rev w)).
  { destruct Htok as [Hne Hw]. split.
    - intros Hnil. apply Hne. by rewrite <- (rev_involutive w), Hnil.
    - by apply List.Forall_rev. }
  destruct (lstrip_keep (rev w) (rev l) (rev y) Hrev) as [r ->].
  exists l, (rev r). by rewrite !rev_app_distr, !rev_involutive, <- app_assoc.
Qed.
End Survives.

Section Folded.
Variable nfkd : list N -> list N.
Implicit Types (c : N) (name s t w m a b lit : list N).

Lemma normalize_name_words_kept name :
  name <> [] ->
  normalize_name nfkd name
  = strip (collapse_whitespace false (words_kept (ascii_ignore (nfkd name)))).
Proof. by destruct name. Qed.

Lemma normalize_name_folded t :
  (forall s, Forall (fun c => is_ascii c = true) s -> nfkd s = s) ->
  Forall (fun c => is_ascii c = true) t ->
  normalize_name nfkd t = strip (collapse_whitespace false (words_kept t)).
Proof.
  intros Hascii Ht. destruct (decide (t = [])) as [->|Hne]; [done|].
  rewrite normalize_name_words_kept by done. rewrite (Hascii t Ht).
  unfold ascii_ignore. rewrite filter_all; [done|].
  intros c Hc. rewrite Forall_forall in Ht. by apply Ht.
Qed.

Lemma ascii_ignore_ascii s : Forall (fun c => is_ascii c = true) (ascii_ignore s).
Proof. apply Forall_forall. intros c Hc. by eapply elem_of_ascii_ignore. Qed.

(** A legal suffix that stands by itself in the folded text counts for
    nothing in the result. *)
Lemma normalize_name_erases name a m b lit :
  (forall s, Forall (fun c => is_ascii c = true) s -> nfkd s = s) ->
  ascii_ignore (nfkd name) = a ++ m ++ b ->
  lit ∈ LEGAL_SUFFIXES -> List.map lower m = List.map lower lit ->
  is_word_at (last a) = false -> is_word_at (head b) = false ->
  normalize_name nfkd name = normalize_name nfkd (a ++ b).
Proof.
  intros Hascii Ht Hlit Hm Hlast Hb.
  assert (Hall := ascii_ignore_ascii (nfkd name)). rewrite Ht in Hall.
  assert (Hname : name <> []).
  { intros ->. rewrite (Hascii [] (List.Forall_nil _)) in Ht.
    assert (Hshape := LEGAL_SUFFIXES_shape). rewrite Forall_forall in Hshape.
    destruct (Hshape lit Hlit) as [Hne _].
    destruct a; [|done]. destruct m; [|done]. by destruct lit. }
  rewrite normalize_name_words_kept by done. rewrite Ht.
  rewrite (words_kept_erase a m b lit); [|done| |done|done].
  2:{ unfold spells. by apply bool_decide_eq_true. }
  rewrite normalize_name_folded; [done|done|].
  apply Forall_app in Hall as [Ha Hmb]. apply Forall_app in Hmb as [_ Hb'].
  by apply Forall_app.
Qed.

(** Any other word of the folded text is still in the result, unless it
    is the letter S directly before a slash or the letter A directly
    after one. *)
Lemma normalize_name_keeps name a w b :
  (forall s, Forall (fun c => is_ascii c = true) s -> nfkd s = s) ->
  ascii_ignore (nfkd name) = a ++ w ++ b -> is_token w ->
  is_word_at (last a) = false -> is_word_at (head b) = false ->
  is_legal_suffix w = false ->
  (List.map lower w = [115%N] -> head b <> Some 47%N) ->
  (List.map lower w = [97%N] -> last a <> Some 47%N) ->
  exists l r, normalize_name nfkd name = l ++ w ++ r.
Proof.
  intros Hascii Ht Hw Hlast Hb Hlegal Hs Ha.
  assert (Hname : name <> []).
  { intros ->. rewrite (Hascii [] (List.Forall_nil _)) in Ht.
    destruct Hw as [Hne _]. destruct a; [|done]. by destruct w. }
  rewrite normalize_name_words_kept by done. rewrite Ht.
  destruct (words_kept_keep a w b) as [x ->]; try done.
  { unfold spells. intros Hsp%bool_decide_eq_true. by apply Hs. }
  { unfold spells. intros Hsp%bool_decide_eq_true. by apply Ha. }
  destruct (collapse_whitespace_keep w (words_kept b) x false Hw) as [x' ->].
  by apply strip_keep.
Qed.
End Folded.

(** C9, as amended. Let [nfkd] be the NFKD normalisation: it leaves ASCII
    text as it is, and it decomposes "Farmácia São João Ltda." into the
    base letters followed by their combining marks. Then [normalize_name]
    turns that name into "Farmacia Sao Joao": all ASCII, none of its words
    a legal suffix, no token "Ltda". For every input, the result holds
    only ASCII letters, digits, underscores and single spaces (no accented
    character, no punctuation), with no space at either end and no two
    spaces in a row. For every input, a piece of the ASCII-folded text
    that spells one of Ltda., Ltda, EIRELI, S/A, SA, Limited and Ltd, in
    any letter case, and has no word character directly before or after
    it, counts for nothing: the name normalises as it would without the
    piece, whatever else the text holds. Every other word of the folded
    text is still in the result, unless it is the letter S directly
    before a slash or the letter A directly after one. On
    words separated by single spaces the result is those words without
    the legal suffixes. The suffixes go before the punctuation does, so a
    suffix written with other punctuation inside is not removed:
    "Drogaria Lider S.A." gives "Drogaria Lider SA". *)
Theorem normalize_name_strips (nfkd : list N -> list N) :
  (forall s, Forall (fun c => is_ascii c = true) s -> nfkd s = s) ->
  nfkd (u "Farmácia São João Ltda.")
    = u "Farma" ++ [769%N] ++ u "cia Sa" ++ [771%N] ++ u "o Joa" ++ [771%N]
      ++ u "o Ltda." ->
  let out := normalize_name nfkd (u "Farmácia São João Ltda.") in
  out = u "Farmacia Sao Joao"
  /\ Forall (fun c => is_ascii c = true) out
  /\ split 32%N out = [u "Farmacia"; u "Sao"; u "Joao"]
  /\ Forall (fun w => is_legal_suffix w = false) (split 32%N out)
  /\ (u "Ltda" ∉ split 32%N out)
  /\ (forall name c, c ∈ normalize_name nfkd name ->
        is_ascii c = true /\ (is_word c = true \/ c = 32%N))
  /\ (forall name,
        head (normalize_name nfkd name) <> Some 32%N
        /\ last (normalize_name nfkd name) <> Some 32%N
        /\ (forall l1 l2, normalize_name nfkd name <> l1 ++ [32; 32]%N ++ l2))
  /\ (forall ws, Forall is_token ws ->
        normalize_name nfkd (join [32%N] ws)
        = join [32%N] (List.filter (fun w => negb (is_legal_suffix w)) ws))
  /\ (forall w, is_legal_suffix w = true <->
        List.map lower w
        ∈ List.map u ["ltda"; "eireli"; "sa"; "limited"; "ltd"]%string)
  /\ normalize_name nfkd (u "Drogaria S/A") = u "Drogaria"
  /\ normalize_name nfkd (u "Farma Ltda.ME") = u "Farma ME"
  /\ normalize_name nfkd (u "Droga Raia LTDA - Loja 2") = u "Droga Raia Loja 2"
  /\ normalize_name nfkd (u "Farma, Ltda. (Centro)") = u "Farma Centro"
  /\ normalize_name nfkd (u "Drogaria Lider S.A.") = u "Drogaria Lider SA"
  /\ (forall name a m b lit,
        ascii_ignore (nfkd name) = a ++ m ++ b ->
        lit ∈ LEGAL_SUFFIXES -> List.map lower m = List.map lower lit ->
        is_word_at (last a) = false -> is_word_at (head b) = false ->
        normalize_name nfkd name = normalize_name nfkd (a ++ b))
  /\ (forall name a w b,
        ascii_ignore (nfkd name) = a ++ w ++ b -> is_token w ->
        is_word_at (last a) = false -> is_word_at (head b) = false ->
        is_legal_suffix w = false ->
        (List.map lower w = u "s" -> head b <> Some 47%N) ->
        (List.map lower w = u "a" -> last a <> Some 47%N) ->
        exists l r, normalize_name nfkd name = l ++ w ++ r).
Proof.
  intros Hascii Hexample out.
  assert (Hout : out = u "Farmacia Sao Joao").
  { subst out.
    assert (Hne : u "Farmácia São João Ltda." <> []) by by vm_compute.
    rewrite (normalize_name_stages nfkd _ _ Hne Hexample).
    vm_compute. reflexivity. }
  assert (Hrun : forall name : list N,
    name <> [] -> Forall (fun c => is_ascii c = true) name ->
    normalize_name nfkd name = normalize_name (fun s => s) name).
  { intros name Hne Hall.
    rewrite (normalize_name_stages nfkd name name Hne (Hascii name Hall)).
    by rewrite (normalize_name_stages (fun s => s) name name Hne eq_refl). }
  split; [done|]. rewrite Hout.
  split; [refine (bool_decide_unpack _ _); vm_compute; exact I|].
  split; [vm_compute; reflexivity|].
  split; [vm_compute; repeat constructor|].
  split; [vm_compute; intros Hin;
          repeat (apply elem_of_cons in Hin as [Hin|Hin]; [done|]);
          by apply elem_of_nil in Hin|].
  split; [apply normalize_name_chars|].
  split; [apply normalize_name_spacing|].
  split.
  { intros ws Hws. apply normalize_name_words; [done|]. apply Hascii.
    apply Forall_forall. intros c Hc.
    destruct (join_words_chars ws c) as [?| ->]; [|done|by apply is_word_ascii|done].
    eapply Forall_impl; [exact Hws|]. by intros w [_ ?]. }
  split.
  { intros w. unfold is_legal_suffix. by rewrite bool_decide_eq_true. }
  assert (Hrun' : forall name out' : list N,
    bool_decide (name <> [] /\ Forall (fun c => is_ascii c = true) name) = true ->
    normalize_name (fun s => s) name = out' ->
    normalize_name nfkd name = out').
  { intros name out' [Hne Hall]%bool_decide_eq_true <-. by apply Hrun. }
  split; [by apply Hrun'; vm_compute|].
  split; [by apply Hrun'; vm_compute|].
  split; [by apply Hrun'; vm_compute|].
  split; [by apply Hrun'; vm_compute|].
  split; [by apply Hrun'; vm_compute|].
  split.
  - intros name a m b lit. by apply normalize_name_erases.
  - intros name a w b. by apply normalize_name_keeps.
Qed.

(** The Latin-1 table meets both hypotheses; with it, a name with other
    Portuguese letters is folded the same way, and suffixes that stand
    between punctuation go through the general statement. *)
Lemma normalize_name_strips_witness :
  normalize_name nfkd_latin1 (u "Farmácia São João Ltda.") = u "Farmacia Sao Joao"
  /\ normalize_name nfkd_latin1 (u "Drogaria S/A") = u "Drogaria"
  /\ normalize_name nfkd_latin1 (u "Ação Pública & Cia. EIRELI") = u "Acao Publica Cia"
  /\ normalize_name nfkd_latin1 (u "Farmácia (Eireli), São João - S/A")
     = normalize_name nfkd_latin1 (u "Farmacia (), Sao Joao - S/A")
  /\ exists l r, normalize_name nfkd_latin1 (u "Farmácia (Eireli), São João - S/A")
                 = l ++ u "Joao" ++ r.
Proof.
  destruct (normalize_name_strips nfkd_latin1 nfkd_latin1_ascii)
    as (Hex & _ & _ & _ & _ & _ & _ & _ & _ & Hsa & _ & _ & _ & _ & Herase & Hkeep).
  { vm_compute. reflexivity. }
  split; [exact Hex|]. split; [exact Hsa|].
  split; [vm_compute; reflexivity|]. split.
  - apply (Herase _ (u "Farmacia (") (u "Eireli") (u "), Sao Joao - S/A")
             (u "EIRELI")).
    + vm_compute. reflexivity.
    + refine (bool_decide_unpack _ _). vm_compute. exact I.
    + vm_compute. reflexivity.
    + reflexivity.
    + reflexivity.
  - apply (Hkeep _ (u "Farmacia (Eireli), Sao ") (u "Joao") (u " - S/A")).
    + vm_compute. reflexivity.
    + split; [done|]. repeat constructor.
    + reflexivity.
    + reflexivity.
    + reflexivity.
    + by vm_compute.
    + by vm_compute.
Defined.

(** C9 as first stated fails: the result can hold a legal suffix. The
    dots of "S.A." keep the pattern from matching and go with the
    punctuation, which leaves the word "SA". *)
Lemma normalize_name_can_leave_suffix :
  ~ (forall nfkd : list N -> list N,
       (forall s, Forall (fun c => is_ascii c = true) s -> nfkd s = s) ->
       forall name w,
         w ∈ split 32%N (normalize_name nfkd name) -> is_legal_suffix w = false).
Proof.
  intros Hnone.
  assert (Hsa : is_legal_suffix (u "SA") = false); [|by vm_compute in Hsa].
  apply (Hnone nfkd_latin1 nfkd_latin1_ascii (u "Drogaria Lider S.A.")).
  refine (bool_decide_unpack _ _). vm_compute. exact I.
Qed.

(* ===================================================================== *)
(** * Further properties of the fetcher *)
(* ===================================================================== *)

Section FetcherShape.
Context {A : Type} `{Empty A}.
Variable get : nat -> attempt_result A.
Variable backoff_factor : Q.

(** What a call looks like from outside: it issues the attempts
    [start .. start + m - 1], every one but the last failed with a
    retryable condition, and the last one decides the result. *)
Lemma fetch_attempts_shape (n : nat) : forall start : nat,
  exists m : nat,
    (m <= n)%nat
    /\ requests (fetch_attempts get backoff_factor (seq start n)).2 = seq start m
    /\ (forall j, (S j < m)%nat -> retryable (get (start + j)) = true)
    /\ ((m < n)%nat ->
        exists k, m = S k /\ retryable (get (start + k)) = false)
    /\ ((fetch_attempts get backoff_factor (seq start n)).1 = ∅
        \/ exists k, m = S k
             /\ get (start + k) = Payload (fetch_attempts get backoff_factor (seq start n)).1)
    /\ exists s : nat,
         (s <= m)%nat
         /\ sleeps (fetch_attempts get backoff_factor (seq start n)).2
            = List.map (wait_time backoff_factor) (seq start s).
Proof.
  induction n as [|n IH]; intros start.
  { exists 0%nat. simpl. repeat split; try done; try lia.
    - by left.
    - exists 0%nat. by split. }
  destruct (retryable (get start)) eqn:Hr.
  - change (seq start (S n)) with (start :: seq (S start) n).
    rewrite fetch_attempts_retry by done. cbn [fst snd].
    destruct (IH (S start)) as (m & Hm & Hreq & Hbefore & Hstop & Hres & s & Hs & Hsl).
    exists (S m). split; [lia|]. split; [simpl; by rewrite Hreq|].
    split; [|split; [|split]].
    + intros [|j] Hj; [by rewrite Nat.add_0_r|].
      replace (start + S j)%nat with (S start + j)%nat by lia. apply Hbefore. lia.
    + intros Hlt. destruct Hstop as (k & -> & Hk); [lia|].
      exists (S k). split; [done|].
      by replace (start + S k)%nat with (S start + k)%nat by lia.
    + destruct Hres as [Hres|(k & -> & Hk)]; [by left|].
      right. exists (S k). split; [done|].
      by replace (start + S k)%nat with (S start + k)%nat by lia.
    + exists (S s). split; [lia|]. simpl. by rewrite Hsl.
  - exists 1%nat. split; [lia|].
    assert (Hone : requests (fetch_attempts get backoff_factor (seq start (S n))).2
                   = [start]
                   /\ sleeps (fetch_attempts get backoff_factor (seq start (S n))).2 = []
                   /\ ((fetch_attempts get backoff_factor (seq start (S n))).1 = ∅
                       \/ get start
                          = Payload (fetch_attempts get backoff_factor (seq start (S n))).1)).
    { simpl. destruct (get start) as [d|status| |] eqn:Hg; simpl in Hr; try done.
      - repeat split; by right.
      - rewrite Hr. repeat split; by left. }
    destruct Hone as (Hreq & Hsl & Hres).
    split; [done|]. split; [intros j Hj; lia|].
    split; [intros _; exists 0%nat; by rewrite Nat.add_0_r|].
    split.
    + destruct Hres as [?|Hres]; [by left|]. right. exists 0%nat.
      by rewrite Nat.add_0_r.
    + exists 0%nat. split; [lia|]. by rewrite Hsl.
Qed.
End FetcherShape.

(** X1. [fetch_json] issues its attempts in order, from attempt 0, never
    more than [retries] of them; every attempt before the last one issued
    failed with a retryable condition, and the call stops short of
    [retries] attempts only on an attempt that succeeded or failed with a
    status outside the retry list. *)
Theorem fetch_json_requests_in_order {A : Type} `{Empty A}
    (get : nat -> attempt_result A) (retries : nat) (backoff_factor : Q) :
  exists m : nat,
    (m <= retries)%nat
    /\ requests (fetch_json_with get retries backoff_factor).2 = seq 0 m
    /\ (forall j, (S j < m)%nat -> retryable (get j) = true)
    /\ ((m < retries)%nat ->
        exists k, m = S k /\ retryable (get k) = false).
Proof.
  destruct (fetch_attempts_shape get backoff_factor retries 0%nat)
    as (m & Hm & Hreq & Hbefore & Hstop & _).
  exists m. by repeat split.
Qed.

(** X2. What [fetch_json] returns is the empty dict or the payload of the
    last attempt it issued; in the second case that attempt is the first
    one that succeeded. *)
Theorem fetch_json_result_origin {A : Type} `{Empty A}
    (get : nat -> attempt_result A) (retries : nat) (backoff_factor : Q) :
  let call := fetch_json_with get retries backoff_factor in
  call.1 = ∅
  \/ exists k, (k < retries)%nat
       /\ get k = Payload call.1
       /\ requests call.2 = seq 0 (S k)
       /\ (forall j, (j < k)%nat -> succeeded (get j) = false).
Proof.
  intros call. subst call.
  destruct (fetch_attempts_shape get backoff_factor retries 0%nat)
    as (m & Hm & Hreq & Hbefore & _ & [Hres|(k & -> & Hk)] & _); [by left|].
  right. exists k. split; [lia|]. split; [done|]. split; [done|].
  intros j Hj. specialize (Hbefore j ltac:(lia)). simpl in Hbefore.
  by destruct (get j).
Qed.

Section Backoff.
Variable backoff_factor : Q.
Local Open Scope Q_scope.

Lemma wait_time_succ (j : nat) :
  wait_time backoff_factor (S j) == 2 * wait_time backoff_factor j.
Proof.
  unfold wait_time. rewrite Nat2Z.inj_succ, Z.pow_succ_r by lia.
  rewrite inject_Z_mult. ring.
Qed.

(** The backoffs of the attempts [start .. start + s - 1] add up to the
    backoff of attempt [start + s] minus that of attempt [start]. *)
Lemma sum_wait_times (s : nat) : forall start : nat,
  fold_right Qplus 0 (List.map (wait_time backoff_factor) (seq start s))
  == wait_time backoff_factor (start + s) - wait_time backoff_factor start.
Proof.
  induction s as [|s IH]; intros start.
  - simpl. rewrite Nat.add_0_r. ring.
  - cbn [seq List.map fold_right]. rewrite IH.
    replace (start + S s)%nat with (S start + s)%nat by lia.
    rewrite (wait_time_succ start). ring.
Qed.

Lemma wait_time_mono (i j : nat) :
  0 <= backoff_factor -> (i <= j)%nat ->
  wait_time backoff_factor i <= wait_time backoff_factor j.
Proof.
  intros Hb Hij. unfold wait_time.
  rewrite (Qmult_comm backoff_factor), (Qmult_comm backoff_factor).
  apply Qmult_le_compat_r; [|done].
  rewrite <- Zle_Qle. apply Z.pow_le_mono_r; lia.
Qed.
End Backoff.

(** X3. With a backoff factor that is not negative, the sleeps of one call
    add up to at most [backoff_factor * (2^retries - 1)] seconds: three and
    a half seconds for the default arguments. *)
Theorem fetch_json_total_sleep {A : Type} `{Empty A}
    (get : nat -> attempt_result A) (retries : nat) (backoff_factor : Q) :
  (0 <= backoff_factor)%Q ->
  (total_sleep (fetch_json_with get retries backoff_factor).2
   <= backoff_factor * (inject_Z (2 ^ Z.of_nat retries) - 1))%Q
  /\ (retries = default_retries -> backoff_factor = default_backoff ->
      (total_sleep (fetch_json get).2 <= 7 # 2)%Q).
Proof.
  intros Hb.
  assert (Hgen : (total_sleep (fetch_json_with get retries backoff_factor).2
                  <= backoff_factor * (inject_Z (2 ^ Z.of_nat retries) - 1))%Q).
  { destruct (fetch_attempts_shape get backoff_factor retries 0%nat)
      as (m & Hm & _ & _ & _ & _ & s & Hs & Hsl).
    unfold total_sleep, fetch_json_with. rewrite Hsl, sum_wait_times.
    cbn [Nat.add].
    assert (Hmono := wait_time_mono backoff_factor s retries Hb ltac:(lia)).
    unfold wait_time in *. simpl (Z.of_nat 0). rewrite Z.pow_0_r.
    setoid_replace (backoff_factor * (inject_Z (2 ^ Z.of_nat retries) - 1))%Q
      with (backoff_factor * inject_Z (2 ^ Z.of_nat retries)
            - backoff_factor * inject_Z 1)%Q using relation Qeq by ring.
    apply Qplus_le_compat; [done | apply Qle_refl]. }
  split; [done|]. intros -> ->. unfold fetch_json.
  eapply Qle_trans; [exact Hgen|]. by vm_compute.
Qed.

Lemma fetch_json_total_sleep_witness :
  (total_sleep (fetch_json (demo_place (u "Campinas") (u "p1"))).2 <= 7 # 2)%Q.
Proof.
  refine (proj2 (fetch_json_total_sleep (demo_place (u "Campinas") (u "p1"))
                   default_retries default_backoff _) eq_refl eq_refl).
  by vm_compute.
Defined.

(* ===================================================================== *)
(** * The search stage *)
(* ===================================================================== *)

Section Search.
Variable w : world.
Implicit Types (city bairro keyword : list N).

Lemma fetch_json_no_success {A : Type} `{Empty A} (get : nat -> attempt_result A) :
  (forall j, (j < default_retries)%nat -> succeeded (get j) = false) ->
  (fetch_json get).1 = ∅.
Proof.
  intros Hno. unfold fetch_json, fetch_json_with.
  apply fetch_attempts_no_success. intros j Hj. apply Hno.
  apply list_elem_of_In, in_seq in Hj. lia.
Qed.

Lemma search_keyword_first_page_empty city bairro keyword :
  (fetch_json (places_search w city bairro keyword FirstPage)).1 = ∅ ->
  search_keyword w city bairro keyword = [].
Proof. intros Hempty. unfold search_keyword. by rewrite Hempty. Qed.

Lemma flat_map_nil {X Y : Type} (f : X -> list Y) (l : list X) :
  (forall x, x ∈ l -> f x = []) -> flat_map f l = [].
Proof.
  induction l as [|x l IH]; intros Hall; [done|]. simpl.
  rewrite Hall by left. rewrite IH; [done|]. intros y Hy. apply Hall. by right.
Qed.
End Search.

(** X4. When every attempt of the first-page request fails, for each of the
    keywords, [search_pharmacies_by_bairro] returns the empty list: the
    failures stay inside the fetcher, and the follow-up pages play no
    part. *)
Theorem search_fails_quietly (w : world) (city bairro : list N) :
  (forall keyword j,
     keyword ∈ KEYWORDS -> (j < default_retries)%nat ->
     succeeded (places_search w city bairro keyword FirstPage j) = false) ->
  search_pharmacies_by_bairro w city bairro = [].
Proof.
  intros Hfail. unfold search_pharmacies_by_bairro. apply flat_map_nil.
  intros keyword Hk. apply search_keyword_first_page_empty.
  apply fetch_json_no_success. intros j Hj. by apply Hfail.
Qed.

Lemma search_fails_quietly_witness :
  search_pharmacies_by_bairro
    {| CUSTOM_SEARCH_ENGINE_ID := None;
       places_search := fun _ _ _ _ _ => ClientResponseError 500;
       places_details := demo_place;
       custom_search := fun _ _ _ _ => OtherException |}
    (u "Campinas") (u "Sousas") = [].
Proof. apply search_fails_quietly. intros keyword j _ _. reflexivity. Defined.

(** X5. For one keyword, the results of the first page are taken whatever
    status the answer carries; a follow-up page is consulted only when the
    first answer has a page token, and its results are added only when its
    status is "OK". Nothing else is returned. *)
Theorem search_keyword_pages (w : world) (city bairro keyword : list N) :
  let data := (fetch_json (places_search w city bairro keyword FirstPage)).1 in
  let first := get_or (results data) [] in
  (next_page_token data = None ->
     search_keyword w city bairro keyword = first)
  /\ (forall token,
        next_page_token data = Some token ->
        let data_next :=
          (fetch_json (places_search w city bairro keyword (NextPage token))).1 in
        (search_status data_next = Some (u "OK") ->
           search_keyword w city bairro keyword
           = first ++ get_or (results data_next) [])
        /\ (search_status data_next <> Some (u "OK") ->
              search_keyword w city bairro keyword = first)).
Proof.
  intros data first. subst data first. unfold search_keyword.
  change (u "OK") with OK.
  generalize (fetch_json (places_search w city bairro keyword FirstPage)).1.
  intros data. split.
  - intros Htok. rewrite Htok.
    destruct (search_falsy data) eqn:Hf; [|by rewrite app_nil_r].
    by destruct data as [[?|] [?|] [?|]].
  - intros token Htok. rewrite Htok.
    assert (Hnf : search_falsy data = false)
      by by destruct data as [[?|] [?|] [?|]].
    rewrite Hnf.
    generalize (fetch_json (places_search w city bairro keyword (NextPage token))).1.
    intros data_next. split.
    + intros Hok. rewrite bool_decide_eq_true_2 by done.
      destruct (search_falsy data_next) eqn:Hf; [|done]. simpl.
      by destruct data_next as [[?|] [?|] [?|]].
    + intros Hno. rewrite bool_decide_eq_false_2 by done.
      by rewrite andb_false_r, app_nil_r.
Qed.

Lemma search_keyword_pages_witness :
  search_keyword demo_world (u "Campinas") (u "Sousas") (u "drogaria")
  = get_or (results (fetch_json (places_search demo_world (u "Campinas")
                                   (u "Sousas") (u "drogaria") FirstPage)).1) [].
Proof.
  apply (proj1 (search_keyword_pages demo_world (u "Campinas") (u "Sousas")
                  (u "drogaria"))).
  reflexivity.
Defined.

(* ===================================================================== *)
(** * Enrichment of one place *)
(* ===================================================================== *)

(** X6. When every attempt of the details request fails, whatever the
    failures are, [process_pharmacy] returns no record: the place is
    dropped, nothing is raised. *)
Theorem process_pharmacy_network_failure (w : world) (place_id city : list N) :
  (forall j, (j < default_retries)%nat ->
             succeeded (places_details w city place_id j) = false) ->
  get_company_details w city place_id = ∅
  /\ process_pharmacy w place_id city = None.
Proof.
  intros Hfail.
  assert (Hd : get_company_details w city place_id = ∅).
  { unfold get_company_details. by rewrite fetch_json_no_success. }
  split; [done|]. unfold process_pharmacy. by rewrite Hd.
Qed.

Lemma process_pharmacy_network_failure_witness :
  process_pharmacy demo_world (u "p9") (u "Campinas") = None.
Proof.
  apply (process_pharmacy_network_failure demo_world (u "p9") (u "Campinas")).
  intros j _. reflexivity.
Defined.

(** X7. [process_pharmacy] returns a record exactly when the details answer
    carries a [result] with at least one field; the [status] of the answer
    plays no part. *)
Theorem process_pharmacy_drop_condition (w : world) (place_id city : list N) :
  let data := (fetch_json (places_details w city place_id)).1 in
  (process_pharmacy w place_id city = None <->
     result data = None \/ result data = Some ∅)
  /\ (forall data' : details_response,
        result data' = result data ->
        company_details_of data' = get_company_details w city place_id).
Proof.
  intros data. subst data. unfold process_pharmacy, process_details,
    get_company_details, company_details_of.
  generalize (fetch_json (places_details w city place_id)).1. intros data.
  split.
  - destruct (result data) as [d|] eqn:Hres.
    + destruct (details_falsy d) eqn:Hf.
      * split; [intros _; right|done]. f_equal.
        by destruct d as [[?|] [?|] [?|] [?|] [?|] [?|] [?|]].
      * split; [done|]. intros [?|[= ->]]; done.
    + split; [by left | done].
  - by intros data' ->.
Qed.

(** X8. Without a search engine id the social search is not consulted:
    whatever it would answer, [process_pharmacy] returns the same thing,
    and a record it returns has no social link. *)
Theorem no_engine_no_social_search (w : world) (place_id city : list N)
    (other : list N -> list N -> list N -> nat
             -> attempt_result custom_search_response) :
  str_falsy (CUSTOM_SEARCH_ENGINE_ID w) = true ->
  process_pharmacy
    {| CUSTOM_SEARCH_ENGINE_ID := CUSTOM_SEARCH_ENGINE_ID w;
       places_search := places_search w;
       places_details := places_details w;
       custom_search := other |} place_id city
  = process_pharmacy w place_id city
  /\ (forall r, process_pharmacy w place_id city = Some r -> SocialLinks r = []).
Proof.
  intros Hno. unfold process_pharmacy, process_details, get_company_details.
  cbn [CUSTOM_SEARCH_ENGINE_ID places_details]. rewrite Hno. split; [done|].
  intros r. destruct (details_falsy _); [done|]. by intros [= <-].
Qed.

Lemma no_engine_no_social_search_witness :
  exists r, process_pharmacy demo_world (u "p1") (u "Campinas") = Some r
            /\ SocialLinks r = [].
Proof.
  eexists. split; [vm_compute; reflexivity|].
  refine (proj2 (no_engine_no_social_search demo_world (u "p1") (u "Campinas")
                   (fun _ _ _ _ => TimeoutError) _) _ _);
    [reflexivity | vm_compute; reflexivity].
Defined.

(** X9. With a search engine id, the social links of a record are the
    [link] of every item of the social search answer, in the order of the
    answer and however many there are; an answer without [items], or a
    failed search, gives no link. *)
Theorem social_links_are_all_items (w : world) (place_id city : list N)
    (r : pharmacy_data) :
  str_falsy (CUSTOM_SEARCH_ENGINE_ID w) = false ->
  process_pharmacy w place_id city = Some r ->
  let answer := (fetch_json (custom_search w city place_id (Name r))).1 in
  SocialLinks r = List.map link (get_or (items answer) [])
  /\ length (SocialLinks r) = length (get_or (items answer) [])
  /\ ((forall j, (j < default_retries)%nat ->
         succeeded (custom_search w city place_id (Name r) j) = false) ->
      SocialLinks r = []).
Proof.
  intros Hcse Hr answer. subst answer.
  unfold process_pharmacy, process_details in Hr.
  destruct (details_falsy _); [done|]. injection Hr as <-.
  rewrite Hcse. unfold get_social_media_links. rewrite Hcse.
  cbn [SocialLinks Name assemble].
  assert (Hlinks : forall data : custom_search_response,
    social_links_of data = List.map link (get_or (items data) [])).
  { intros [[its|]]; done. }
  rewrite Hlinks. split; [done|]. split; [by rewrite length_map|].
  intros Hfail. by rewrite fetch_json_no_success.
Qed.

Lemma social_links_are_all_items_witness :
  let answer := {| items := Some (List.map (fun s => {| link := u s |})
                      ["a"; "b"; "c"; "d"; "e"; "f"]%string) |} in
  let w := {| CUSTOM_SEARCH_ENGINE_ID := Some (u "cx");
              places_search := demo_search;
              places_details := demo_place;
              custom_search := fun _ _ _ _ => Payload answer |} in
  exists r, process_pharmacy w (u "p1") (u "Campinas") = Some r
            /\ length (SocialLinks r) = 6%nat.
Proof.
  intros answer w. eexists. split; [vm_compute; reflexivity|].
  refine (proj1 (proj2 (social_links_are_all_items w (u "p1") (u "Campinas") _ _ _)));
    [reflexivity | vm_compute; reflexivity].
Defined.

Section AddressParts.
Implicit Types (address s rest : list N) (sep : N).

Lemma split_app sep s : forall rest,
  split sep (s ++ sep :: rest) = split sep s ++ split sep rest.
Proof.
  induction s as [|c s IH]; intros rest; simpl.
  - by rewrite N.eqb_refl.
  - rewrite IH. destruct (N.eqb c sep); [done|].
    destruct (split_cons_inv sep s) as (p & ps & ->). done.
Qed.

Lemma parse_address_lookup address (k v : list N) :
  parse_address address !! k = Some v ->
  exists (i : nat) p, (i < 3)%nat /\ split comma address !! i = Some p
                      /\ v = strip p
                      /\ k = nth i [k_route; k_neighborhood; k_locality] [].
Proof.
  unfold parse_address.
  destruct (split comma address !! 0%nat) as [p0|] eqn:H0; [|by rewrite lookup_empty].
  destruct (split comma address !! 1%nat) as [p1|] eqn:H1.
  2:{ intros Hk. apply lookup_insert_Some in Hk as [[<- <-]|[_ Hk]];
        [|by rewrite lookup_empty in Hk].
      exists 0%nat, p0. repeat split; try done; lia. }
  destruct (split comma address !! 2%nat) as [p2|] eqn:H2.
  2:{ intros Hk. apply lookup_insert_Some in Hk as [[<- <-]|[_ Hk]].
      { exists 1%nat, p1. repeat split; try done; lia. }
      apply lookup_insert_Some in Hk as [[<- <-]|[_ Hk]];
        [|by rewrite lookup_empty in Hk].
      exists 0%nat, p0. repeat split; try done; lia. }
  intros Hk. apply lookup_insert_Some in Hk as [[<- <-]|[_ Hk]].
  { exists 2%nat, p2. repeat split; try done; lia. }
  apply lookup_insert_Some in Hk as [[<- <-]|[_ Hk]].
  { exists 1%nat, p1. repeat split; try done; lia. }
  apply lookup_insert_Some in Hk as [[<- <-]|[_ Hk]];
    [|by rewrite lookup_empty in Hk].
  exists 0%nat, p0. repeat split; try done; lia.
Qed.
End AddressParts.

(** X10. Whatever the address, [parse_address] only ever sets the keys
    route, neighborhood and locality, as many of them as the address has
    segments (three at most), and every value it stores is free of commas
    and has no whitespace at either end. *)
Theorem parse_address_entries (address : list N) :
  size (parse_address address) = Nat.min 3 (length (split comma address))
  /\ (forall k v, parse_address address !! k = Some v ->
        k ∈ [u "route"; u "neighborhood"; u "locality"]
        /\ (comma ∉ v)
        /\ (forall c, head v = Some c -> isspace c = false)
        /\ (forall c, last v = Some c -> isspace c = false)).
Proof.
  split.
  - unfold parse_address.
    destruct (split comma address) as [|p0 [|p1 [|p2 ps]]] eqn:Hs; simpl.
    + by destruct (split_cons_inv comma address) as (? & ? & ?); simplify_eq.
    + rewrite !map_size_insert_None by by simplify_map_eq.
      by rewrite map_size_empty.
    + rewrite !map_size_insert_None by by simplify_map_eq.
      by rewrite map_size_empty.
    + rewrite !map_size_insert_None by by simplify_map_eq.
      by rewrite map_size_empty.
  - intros k v Hk.
    destruct (parse_address_lookup address k v Hk) as (i & p & Hi & Hp & -> & ->).
    split; [|split; [|split]].
    + change (u "route") with k_route.
      change (u "neighborhood") with k_neighborhood.
      change (u "locality") with k_locality.
      destruct i as [|[|[|i]]]; [left | right; left | right; right; left | lia].
    + intros Hin. apply elem_of_strip in Hin.
      pose proof (split_no_sep comma address) as Hno.
      rewrite Forall_forall in Hno. apply (Hno p); [|done].
      by eapply list_elem_of_lookup_2.
    + by destruct (strip_spec p) as (? & ? & _ & _ & _ & Hh & _).
    + by destruct (strip_spec p) as (? & ? & _ & _ & _ & _ & Hl).
Qed.

Lemma parse_address_entries_witness :
  parse_address (u " Rua A ,10 - Sousas, Campinas - SP, Brasil") !! u "route"
  = Some (u "Rua A")
  /\ (comma ∉ u "Rua A").
Proof.
  split; [vm_compute; reflexivity|].
  refine (proj1 (proj2 (proj2 (parse_address_entries
            (u " Rua A ,10 - Sousas, Campinas - SP, Brasil")) (u "route")
            (u "Rua A") _))).
  vm_compute. reflexivity.
Defined.

(** X11. What follows the third comma of an address is ignored: an address
    with at least three segments parses the same with anything appended
    after a further comma. *)
Theorem parse_address_ignores_tail (address rest : list N) :
  (3 <= length (split comma address))%nat ->
  parse_address (address ++ comma :: rest) = parse_address address.
Proof.
  intros Hlen. unfold parse_address. rewrite split_app.
  by rewrite !lookup_app_l by lia.
Qed.

Lemma parse_address_ignores_tail_witness :
  parse_address (u "Rua A, Sousas, Campinas, SP, Brasil")
  = parse_address (u "Rua A, Sousas, Campinas").
Proof.
  change (u "Rua A, Sousas, Campinas, SP, Brasil")
    with (u "Rua A, Sousas, Campinas" ++ comma :: u " SP, Brasil").
  apply parse_address_ignores_tail. vm_compute. lia.
Defined.

(** X12. The size label never goes down when the review count goes up, and
    an absent count is classified like a count of zero. *)
Theorem classify_company_size_monotone (n m : Z) :
  (n <= m)%Z ->
  (size_rank (classify_company_size (Some n))
   <= size_rank (classify_company_size (Some m)))%nat
  /\ classify_company_size None = classify_company_size (Some 0%Z).
Proof.
  intros Hnm. split; [|done]. unfold classify_company_size.
  destruct (Z.eqb_spec n 0); destruct (Z.eqb_spec m 0);
    destruct (Z.leb_spec 100 n); destruct (Z.leb_spec 100 m);
    destruct (Z.leb_spec 20 n); destruct (Z.leb_spec 20 m);
    try lia; vm_compute; lia.
Qed.

Lemma classify_company_size_monotone_witness :
  (size_rank (classify_company_size (Some 19%Z))
   <= size_rank (classify_company_size (Some 250%Z)))%nat.
Proof. apply (classify_company_size_monotone 19 250). lia. Defined.

(** X13. A place whose details have no [geometry], no [location] in it, or
    no [lat] or [lng] in that, gets a record with an absent coordinate, and
    such a record never has a row in the table written for its city. *)
Theorem no_geometry_no_row (w : world) (place_id city : list N)
    (r : pharmacy_data) (parse_text : list N -> option Q)
    (farmacias : list pharmacy_data) :
  process_pharmacy w place_id city = Some r ->
  (forall g l, geometry (get_company_details w city place_id) = Some g ->
               location g = Some l -> lat l = None \/ lng l = None) ->
  (Latitude r = None \/ Longitude r = None)
  /\ (forall row, row ∈ city_table parse_text farmacias -> source row <> r).
Proof.
  intros Hr Hgeo.
  assert (Hcoord : Latitude r = None \/ Longitude r = None).
  { destruct (process_pharmacy_Some _ _ _ _ Hr) as (details & links & Hd & _ & ->).
    rewrite Hd in Hgeo. unfold assemble. cbn [Latitude Longitude].
    destruct (geometry details) as [g|]; cbn [get_or location lat]; [|by left].
    destruct (location g) as [l|] eqn:Hl; cbn [get_or lat]; [|by left].
    by apply (Hgeo g l). }
  split; [done|]. intros row Hrow Heq.
  apply elem_of_city_table in Hrow as (r0 & _ & -> & [q1 H1] & [q2 H2]).
  simpl in Heq. subst r0. destruct Hcoord as [Hc|Hc]; rewrite Hc in *; done.
Qed.

Lemma no_geometry_no_row_witness :
  let bare := {| name := Some (u "Drogaria Sem Mapa"); formatted_address := None;
                 rating := None; formatted_phone_number := None; types := None;
                 geometry := None; user_ratings_total := None |} in
  let w := {| CUSTOM_SEARCH_ENGINE_ID := None;
              places_search := demo_search;
              places_details := fun _ _ _ =>
                Payload {| details_status := Some OK; result := Some bare |};
              custom_search := fun _ _ _ _ => OtherException |} in
  exists r, process_pharmacy w (u "p7") (u "Campinas") = Some r
            /\ (forall row, row ∈ city_table no_text_is_numeric [r] ->
                  source row <> r).
Proof.
  intros bare w. eexists. split; [vm_compute; reflexivity|].
  refine (proj2 (no_geometry_no_row w (u "p7") (u "Campinas") _
                   no_text_is_numeric _ _ _));
    [vm_compute; reflexivity | intros g l [=]].
Defined.

(** X14. Saving the set of processed ids and loading it back gives the
    same set; the saved list has no repetition and holds exactly the ids
    of the set; a loaded list gives the set of its ids, and is saved back
    as a rearrangement of itself when it has no repetition; no file loads
    as the empty set. *)
Theorem processed_ids_round_trip (place_ids : gset (list N)) :
  load_processed_place_ids (Some (save_processed_place_ids place_ids)) = place_ids
  /\ NoDup (save_processed_place_ids place_ids)
  /\ (forall pid, pid ∈ save_processed_place_ids place_ids <-> pid ∈ place_ids)
  /\ (forall ids pid, pid ∈ load_processed_place_ids (Some ids) <-> pid ∈ ids)
  /\ (forall ids, NoDup ids ->
        save_processed_place_ids (load_processed_place_ids (Some ids)) ≡ₚ ids)
  /\ load_processed_place_ids None = ∅.
Proof.
  unfold load_processed_place_ids, save_processed_place_ids.
  split; [apply list_to_set_elements_L|]. split; [apply NoDup_elements|].
  split; [intros pid; apply elem_of_elements|].
  split; [intros ids pid; apply elem_of_list_to_set|].
  split; [|done]. intros ids. apply elements_list_to_set.
Qed.

Lemma processed_ids_round_trip_witness :
  save_processed_place_ids (load_processed_place_ids (Some [u "p2"; u "p1"]))
  ≡ₚ [u "p2"; u "p1"].
Proof.
  refine (proj1 (proj2 (proj2 (proj2 (proj2 (processed_ids_round_trip ∅))))) _ _).
  refine (bool_decide_unpack _ _). vm_compute. exact I.
Defined.

(* ===================================================================== *)
(** * Further properties of the collection loop *)
(* ===================================================================== *)

Section RunShape.
Variable w : world.
Implicit Types (st : run_state) (pid city : list N) (bairros : list (list N)).
Implicit Types (areas : list (list N * list (list N))).

(** Induction along a run, one area after the other. *)
Lemma collect_over_ind (file : option (list (list N)))
    (P : list (list N * list (list N)) -> run_state -> Prop) :
  P [] (start_state file) ->
  (forall before area,
     P before (collect_over w before file) ->
     P (before ++ [area]) (collect_city w (collect_over w before file) area)) ->
  forall areas, P areas (collect_over w areas file).
Proof.
  intros Hstart Hstep areas. induction areas as [|area before IH] using rev_ind.
  - exact Hstart.
  - unfold collect_over at 1. rewrite foldl_app. simpl. by apply Hstep.
Qed.

Lemma detail_request_pairs_app (t1 t2 : list run_event) :
  detail_request_pairs (t1 ++ t2)
  = detail_request_pairs t1 ++ detail_request_pairs t2.
Proof. unfold detail_request_pairs. apply flat_map_app. Qed.

Lemma detail_request_pairs_batch city (batch : list (list N)) :
  detail_request_pairs (List.map (DetailsRequested city) batch)
  = pair city <$> batch.
Proof. induction batch as [|p l IH]; simpl; [done | by rewrite IH]. Qed.

(** What one area adds to the requests of the run. *)
Lemma detail_request_pairs_collect_city st city bairros :
  detail_request_pairs (trace (collect_city w st (city, bairros)))
  = detail_request_pairs (trace st)
    ++ (pair city <$> elements (place_ids_of_city w st city bairros)).
Proof.
  destruct (decide (place_ids_of_city w st city bairros = ∅)) as [He|Hne].
  - rewrite collect_city_skip by done. rewrite He, elements_empty. simpl.
    by rewrite app_nil_r.
  - rewrite collect_city_batch by done. cbn [trace].
    rewrite !detail_request_pairs_app, detail_request_pairs_batch. simpl.
    by rewrite app_nil_r.
Qed.

(** The ids of the records of a batch are ids of the batch, each once. *)
Lemma omap_PlaceID_sublist (f : list N -> option pharmacy_data) (l : list (list N)) :
  (forall pid r, f pid = Some r -> PlaceID r = pid) ->
  PlaceID <$> omap f l `sublist_of` l.
Proof.
  intros Hf. induction l as [|pid l IH]; [done|]. simpl.
  destruct (f pid) as [r|] eqn:Hr; simpl.
  - rewrite (Hf _ _ Hr). by apply sublist_skip.
  - by apply sublist_cons.
Qed.

Lemma batch_records_NoDup st city bairros :
  NoDup (PlaceID <$> batch_records w st city bairros).
Proof.
  assert (Hsub : PlaceID <$> batch_records w st city bairros
                 `sublist_of` elements (place_ids_of_city w st city bairros)).
  { apply omap_PlaceID_sublist. intros pid r. apply process_pharmacy_PlaceID. }
  eapply sublist_NoDup in Hsub; [done | apply NoDup_elements].
Qed.

Lemma batch_records_skip st city bairros :
  place_ids_of_city w st city bairros = ∅ -> batch_records w st city bairros = [].
Proof. intros He. unfold batch_records. by rewrite He, elements_empty. Qed.

(** The state after one area, skipped or not. *)
Lemma processed_collect_city st city bairros :
  processed_place_ids (collect_city w st (city, bairros))
  = list_to_set (PlaceID <$> batch_records w st city bairros)
    ∪ processed_place_ids st.
Proof.
  destruct (decide (place_ids_of_city w st city bairros = ∅)) as [He|Hne].
  - rewrite collect_city_skip, batch_records_skip by done. set_solver.
  - by rewrite collect_city_batch.
Qed.

Lemma all_companies_collect_city st city bairros (city' : list N) :
  all_companies (collect_city w st (city, bairros)) !! city'
  = if decide (city' = city /\ batch_records w st city bairros <> [])
    then Some (default [] (all_companies st !! city)
               ++ batch_records w st city bairros)
    else all_companies st !! city'.
Proof.
  destruct (decide (place_ids_of_city w st city bairros = ∅)) as [He|Hne].
  { rewrite collect_city_skip, batch_records_skip by done.
    rewrite decide_False; [done|]. by intros [_ ?]. }
  rewrite collect_city_batch by done. cbn [all_companies].
  destruct (batch_records w st city bairros) as [|r kept] eqn:Hk.
  { rewrite decide_False; [done|]. by intros [_ ?]. }
  destruct (decide (city' = city)) as [->|Hc].
  - rewrite lookup_insert_eq. by rewrite decide_True.
  - rewrite lookup_insert_ne by done. rewrite decide_False; [done|]. by intros [? _].
Qed.
End RunShape.

(** X15. With the cities of the run all different, as the keys of
    [CIDADES_E_BAIRROS] are, no (city, id) pair has its details requested
    twice in a run: however often an id comes back from the searches of a
    city, it is in the batch of that city once. *)
Theorem details_requested_once (w : world) (file : option (list (list N))) :
  (forall areas : list (list N * list (list N)),
     NoDup areas.*1 ->
     NoDup (detail_request_pairs (trace (collect_over w areas file))))
  /\ NoDup (detail_request_pairs (trace (collect_data w file))).
Proof.
  assert (Hgen : forall areas : list (list N * list (list N)),
    NoDup areas.*1 ->
    NoDup (detail_request_pairs (trace (collect_over w areas file)))
    /\ (forall city pid,
          (city, pid) ∈ detail_request_pairs (trace (collect_over w areas file)) ->
          city ∈ areas.*1)).
  { apply (collect_over_ind w file (fun areas st =>
      NoDup areas.*1 ->
      NoDup (detail_request_pairs (trace st))
      /\ (forall city pid, (city, pid) ∈ detail_request_pairs (trace st) ->
                           city ∈ areas.*1))).
    - intros _. split; [constructor|]. intros city pid Hin.
      by apply elem_of_nil in Hin.
    - intros before [city bairros] IH Hnd.
      rewrite fmap_app in Hnd. apply NoDup_app in Hnd as (Hnd & Hfresh & _).
      destruct (IH Hnd) as [Hold Hcities].
      rewrite detail_request_pairs_collect_city. split.
      + apply NoDup_app. split; [done|]. split.
        * intros [c p] Hin Hnew. apply list_elem_of_fmap in Hnew as (p' & [= -> ->] & _).
          apply (Hfresh city); [by eapply Hcities|]. simpl. left.
        * apply NoDup_fmap_2; [|apply NoDup_elements]. by intros ? ? [=].
      + intros c p Hin. rewrite fmap_app. apply elem_of_app.
        apply elem_of_app in Hin as [Hin|Hin]; [left; by eapply Hcities|].
        right. apply list_elem_of_fmap in Hin as (p' & [= -> ->] & _). simpl. left. }
  split; [intros areas Hnd; by apply Hgen|].
  apply Hgen. refine (bool_decide_unpack _ _). vm_compute. exact I.
Qed.

(** X16. The details a run asks for are those of ids that the search of
    the same city returned in this run, and every record a run holds for a
    city had its details requested for that city. *)
Theorem requests_come_from_search (w : world)
    (areas : list (list N * list (list N))) (file : option (list (list N))) :
  let run := collect_over w areas file in
  (forall city pid,
     (city, pid) ∈ detail_request_pairs (trace run) ->
     exists bairros place,
       (city, bairros) ∈ areas
       /\ place ∈ all_results_of_city w city bairros
       /\ place_id place = pid)
  /\ (forall city l r,
        all_companies run !! city = Some l -> r ∈ l ->
        (city, PlaceID r) ∈ detail_request_pairs (trace run)).
Proof.
  apply (collect_over_ind w file (fun areas st =>
    (forall city pid,
       (city, pid) ∈ detail_request_pairs (trace st) ->
       exists bairros place,
         (city, bairros) ∈ areas
         /\ place ∈ all_results_of_city w city bairros
         /\ place_id place = pid)
    /\ (forall city l r,
          all_companies st !! city = Some l -> r ∈ l ->
          (city, PlaceID r) ∈ detail_request_pairs (trace st)))).
  - split.
    + intros city pid Hin. by apply elem_of_nil in Hin.
    + intros city l r Hl. simpl in Hl. by rewrite lookup_empty in Hl.
  - intros before [city bairros] [Hreq Hrec]. split.
    + intros c p. rewrite detail_request_pairs_collect_city.
      intros Hin. apply elem_of_app in Hin as [Hin|Hin].
      * destruct (Hreq c p Hin) as (b & place & Hb & Hp & Hid).
        exists b, place. split; [|done]. apply elem_of_app. by left.
      * apply list_elem_of_fmap in Hin as (p' & [= -> ->] & Hin).
        apply elem_of_elements in Hin. unfold place_ids_of_city in Hin.
        apply elem_of_unseen_place_ids in Hin as (_ & place & Hp & Hid).
        exists bairros, place. split; [|done]. apply elem_of_app. right. left.
    + intros c l r. rewrite all_companies_collect_city.
      rewrite detail_request_pairs_collect_city.
      case_decide as Hc.
      * destruct Hc as [-> _]. intros [= <-] Hin.
        apply elem_of_app in Hin as [Hin|Hin]; apply elem_of_app.
        -- left. destruct (all_companies (collect_over w before file) !! city)
             as [l0|] eqn:Hl0; [by eapply Hrec | by apply elem_of_nil in Hin].
        -- right. apply list_elem_of_fmap. exists (PlaceID r). split; [done|].
           apply elem_of_elements. by apply batch_records_unseen.
      * intros Hl Hin. apply elem_of_app. left. by eapply Hrec.
Qed.

Lemma requests_come_from_search_witness :
  exists l,
    all_companies (collect_over demo_world CIDADES_E_BAIRROS None) !! u "Campinas"
    = Some l
    /\ (forall r, r ∈ l ->
          (u "Campinas", PlaceID r)
          ∈ detail_request_pairs
              (trace (collect_over demo_world CIDADES_E_BAIRROS None))).
Proof.
  eexists. split; [vm_compute; reflexivity|]. intros r Hr.
  eapply (proj2 (requests_come_from_search demo_world CIDADES_E_BAIRROS None));
    [|exact Hr].
  vm_compute. reflexivity.
Defined.

Lemma omap_length_le {X Y : Type} (f : X -> option Y) (l : list X) :
  (length (omap f l) <= length l)%nat.
Proof.
  induction l as [|x l IH]; [done|].
  change (omap f (x :: l))
    with (match f x with Some y => y :: omap f l | None => omap f l end).
  destruct (f x); simpl; lia.
Qed.

Lemma omap_length_all {X Y : Type} (f : X -> option Y) (l : list X) :
  (forall x, x ∈ l -> is_Some (f x)) -> length (omap f l) = length l.
Proof.
  induction l as [|x l IH]; intros Hall; [done|].
  destruct (Hall x) as [y Hy]; [left|].
  assert (IH' : length (omap f l) = length l).
  { apply IH. intros z Hz. apply Hall. by right. }
  change (omap f (x :: l))
    with (match f x with Some y => y :: omap f l | None => omap f l end).
  rewrite Hy. simpl. by rewrite IH'.
Qed.

(** X17. One area makes the set of processed ids grow by exactly the
    number of records its batch yields, and the list of its city by the
    same number, leaving the other cities alone; the batch yields at most
    one record per id, and one per id when every id of the batch gets a
    record. *)
Theorem area_grows_set_by_its_records (w : world) (st : run_state)
    (city : list N) (bairros : list (list N)) :
  let st' := collect_city w st (city, bairros) in
  let kept := batch_records w st city bairros in
  size (processed_place_ids st')
    = (size (processed_place_ids st) + length kept)%nat
  /\ length (default [] (all_companies st' !! city))
     = (length (default [] (all_companies st !! city)) + length kept)%nat
  /\ (forall city', city' <> city ->
        all_companies st' !! city' = all_companies st !! city')
  /\ (length kept <= size (place_ids_of_city w st city bairros))%nat
  /\ ((forall pid, pid ∈ place_ids_of_city w st city bairros ->
         is_Some (process_pharmacy w pid city)) ->
      length kept = size (place_ids_of_city w st city bairros)).
Proof.
  intros st' kept. subst st' kept.
  split; [|split; [|split; [|split]]].
  - rewrite processed_collect_city. rewrite size_union.
    + rewrite size_list_to_set by apply batch_records_NoDup.
      rewrite length_fmap. lia.
    + intros pid Hnew Hold. apply elem_of_list_to_set in Hnew.
      apply list_elem_of_fmap in Hnew as (r & -> & Hr).
      apply batch_records_unseen, place_ids_unseen in Hr. done.
  - rewrite all_companies_collect_city. case_decide as Hc.
    + simpl. by rewrite length_app.
    + destruct (batch_records w st city bairros); [simpl; lia|].
      exfalso. apply Hc. by split.
  - intros city' Hne. rewrite all_companies_collect_city.
    rewrite decide_False; [done|]. by intros [? _].
  - unfold batch_records, size, set_size. simpl. apply omap_length_le.
  - intros Hall. unfold batch_records, size, set_size. simpl.
    apply omap_length_all. intros pid Hin. apply Hall.
    by apply elem_of_elements.
Qed.

(** X18. A run never holds two records with the same id: two records with
    one id, in the lists of whichever cities, are the same entry of the
    same list. *)
Theorem enriched_once (w : world) (areas : list (list N * list (list N)))
    (file : option (list (list N))) :
  let run := collect_over w areas file in
  forall city1 l1 (i : nat) r1 city2 l2 (j : nat) r2,
    all_companies run !! city1 = Some l1 -> l1 !! i = Some r1 ->
    all_companies run !! city2 = Some l2 -> l2 !! j = Some r2 ->
    PlaceID r1 = PlaceID r2 ->
    city1 = city2 /\ i = j.
Proof.
  apply (collect_over_ind w file (fun _ st =>
    forall city1 l1 (i : nat) r1 city2 l2 (j : nat) r2,
      all_companies st !! city1 = Some l1 -> l1 !! i = Some r1 ->
      all_companies st !! city2 = Some l2 -> l2 !! j = Some r2 ->
      PlaceID r1 = PlaceID r2 ->
      city1 = city2 /\ i = j)).
  { intros city1 l1 i r1 city2 l2 j r2 Hl1. simpl in Hl1.
    by rewrite lookup_empty in Hl1. }
  intros before [city bairros] IH.
  set (st := collect_over w before file) in *.
  destruct (collect_over_invariant w before file) as (_ & _ & _ & Henr & _).
  fold st in Henr.
  (* a record of the new state is an old one, at its place, or one of the batch *)
  assert (Hsort : forall c l (i : nat) r,
    all_companies (collect_city w st (city, bairros)) !! c = Some l ->
    l !! i = Some r ->
    (exists l0, all_companies st !! c = Some l0 /\ l0 !! i = Some r)
    \/ (c = city
        /\ (length (default [] (all_companies st !! city)) <= i)%nat
        /\ batch_records w st city bairros
           !! (i - length (default [] (all_companies st !! city)))%nat = Some r)).
  { intros c l i r. rewrite all_companies_collect_city. case_decide as Hc.
    - destruct Hc as [-> _]. intros [= <-] Hi.
      apply lookup_app_Some in Hi as [Hi|[Hlen Hi]]; [left | by right].
      destruct (all_companies st !! city) as [l0|]; [by exists l0|].
      simpl in Hi. by rewrite lookup_nil in Hi.
    - intros Hl Hi. left. by exists l. }
  assert (Hold : forall c l0 (i : nat) r,
    all_companies st !! c = Some l0 -> l0 !! i = Some r ->
    PlaceID r ∈ processed_place_ids st).
  { intros c l0 i r Hl Hi. apply Henr. exists c, l0. split; [done|].
    by eapply list_elem_of_lookup_2. }
  assert (Hnew : forall (k : nat) r,
    batch_records w st city bairros !! k = Some r ->
    PlaceID r ∉ processed_place_ids st).
  { intros k r Hk. eapply place_ids_unseen, batch_records_unseen.
    by eapply list_elem_of_lookup_2. }
  intros city1 l1 i r1 city2 l2 j r2 Hl1 Hi Hl2 Hj Hid.
  destruct (Hsort _ _ _ _ Hl1 Hi) as [(l1' & Hl1' & Hi')|(-> & Hlen1 & Hk1)];
    destruct (Hsort _ _ _ _ Hl2 Hj) as [(l2' & Hl2' & Hj')|(-> & Hlen2 & Hk2)].
  - by eapply IH.
  - exfalso. apply (Hnew _ _ Hk2). rewrite <- Hid. by eapply Hold.
  - exfalso. apply (Hnew _ _ Hk1). rewrite Hid. by eapply Hold.
  - split; [done|].
    pose proof (batch_records_NoDup w st city bairros) as Hnd.
    assert (Heq : (i - length (default [] (all_companies st !! city)))%nat
                  = (j - length (default [] (all_companies st !! city)))%nat).
    { eapply NoDup_lookup; [exact Hnd| |].
      - rewrite list_lookup_fmap, Hk1. simpl. reflexivity.
      - rewrite list_lookup_fmap, Hk2. simpl. by rewrite Hid. }
    lia.
Qed.

Lemma enriched_once_witness :
  exists l r1 r2,
    all_companies (collect_over demo_world CIDADES_E_BAIRROS None) !! u "Campinas"
    = Some l
    /\ l !! 0%nat = Some r1 /\ l !! 1%nat = Some r2
    /\ PlaceID r1 <> PlaceID r2.
Proof.
  eexists _, _, _. split; [vm_compute; reflexivity|].
  split; [reflexivity|]. split; [reflexivity|]. intros Hid.
  assert (Hsame := enriched_once demo_world CIDADES_E_BAIRROS None
            (u "Campinas") _ 0%nat _ (u "Campinas") _ 1%nat _
            ltac:(vm_compute; reflexivity) ltac:(reflexivity)
            ltac:(vm_compute; reflexivity) ltac:(reflexivity) Hid).
  by destruct Hsame.
Defined.

(** X19. A city has a list in [all_companies] only if it is one of the
    cities of the run, and the list is never empty. *)
Theorem city_lists_not_empty (w : world) (areas : list (list N * list (list N)))
    (file : option (list (list N))) (city : list N) (l : list pharmacy_data) :
  all_companies (collect_over w areas file) !! city = Some l ->
  l <> [] /\ city ∈ areas.*1.
Proof.
  revert city l.
  apply (collect_over_ind w file (fun areas st =>
    forall city l, all_companies st !! city = Some l ->
                   l <> [] /\ city ∈ areas.*1)).
  - intros city l Hl. simpl in Hl. by rewrite lookup_empty in Hl.
  - intros before [c bairros] IH city l. rewrite all_companies_collect_city.
    rewrite fmap_app. case_decide as Hc.
    + destruct Hc as [-> Hne]. intros [= <-]. split.
      * intros Hnil. apply app_eq_nil in Hnil as [_ ?]. done.
      * apply elem_of_app. right. left.
    + intros Hl. destruct (IH city l Hl). split; [done|].
      apply elem_of_app. by left.
Qed.

Lemma city_lists_not_empty_witness :
  exists l,
    all_companies (collect_over demo_world CIDADES_E_BAIRROS None) !! u "Campinas"
    = Some l /\ l <> [].
Proof.
  eexists. split; [vm_compute; reflexivity|].
  refine (proj1 (city_lists_not_empty demo_world CIDADES_E_BAIRROS None
                   (u "Campinas") _ _)).
  vm_compute. reflexivity.
Defined.

(** X20. When every id the searches return is already in the loaded set,
    the run changes nothing: no details are requested, no record is held,
    and the state file is neither rewritten nor created. *)
Theorem nothing_new_nothing_done (w : world)
    (areas : list (list N * list (list N))) (file : option (list (list N))) :
  (forall city bairros place,
     (city, bairros) ∈ areas ->
     place ∈ all_results_of_city w city bairros ->
     place_id place ∈ load_processed_place_ids file) ->
  collect_over w areas file = start_state file.
Proof.
  revert areas.
  apply (collect_over_ind w file (fun areas st =>
    (forall city bairros place,
       (city, bairros) ∈ areas ->
       place ∈ all_results_of_city w city bairros ->
       place_id place ∈ load_processed_place_ids file) ->
    st = start_state file)); [done|].
  intros before [city bairros] IH Hseen.
  rewrite IH.
  2:{ intros c b place Hin. apply Hseen. apply elem_of_app. by left. }
  apply collect_city_skip. apply set_eq. intros pid. split; [|set_solver].
  unfold place_ids_of_city. rewrite elem_of_unseen_place_ids.
  intros (Hnot & place & Hp & <-). exfalso. apply Hnot. simpl.
  apply (Hseen city bairros); [|done]. apply elem_of_app. right. left.
Qed.

Lemma nothing_new_nothing_done_witness :
  let file := Some [u "p1"; u "p2"; u "p3"; u "p4"] in
  collect_over demo_world CIDADES_E_BAIRROS file = start_state file.
Proof.
  intros file. apply nothing_new_nothing_done.
  intros city bairros place Harea Hplace.
  refine (bool_decide_unpack _ _).
  repeat (apply elem_of_cons in Harea as [[= -> ->]|Harea];
          [vm_compute in Hplace;
           repeat (apply elem_of_cons in Hplace as [->|Hplace];
                   [vm_compute; exact I|]);
           by apply elem_of_nil in Hplace|]).
  by apply elem_of_nil in Harea.
Defined.

(** X21. At the end of a run the state file holds the last snapshot the
    run wrote, or what it held before when the run wrote none. *)
Theorem state_file_is_last_snapshot (w : world)
    (areas : list (list N * list (list N))) (file : option (list (list N))) :
  state_file (collect_over w areas file)
  = match last (snapshots (trace (collect_over w areas file))) with
    | Some ids => Some ids
    | None => file
    end.
Proof.
  apply (collect_over_ind w file (fun _ st =>
    state_file st = match last (snapshots (trace st)) with
                    | Some ids => Some ids
                    | None => file
                    end)); [done|].
  intros before [city bairros] IH.
  destruct (decide (place_ids_of_city w (collect_over w before file) city bairros = ∅))
    as [He|Hne].
  - by rewrite collect_city_skip.
  - rewrite snapshots_collect_city by done. rewrite last_snoc.
    by rewrite collect_city_batch.
Qed.

(* ===================================================================== *)
(** * Further properties of the table and of the files of [main] *)
(* ===================================================================== *)

Section TableOrder.
Variable parse_text : list N -> option Q.
Implicit Types (r : pharmacy_data) (rows farmacias : list pharmacy_data).
Implicit Types (seen : list (list N * list N)).

Lemma drop_duplicates_from_sublist seen rows :
  drop_duplicates_from seen rows `sublist_of` rows.
Proof.
  revert seen. induction rows as [|x rows IH]; intros seen; simpl; [done|].
  case_bool_decide; [by apply sublist_cons | by apply sublist_skip].
Qed.

Lemma drop_duplicates_from_first seen rows r :
  r ∈ drop_duplicates_from seen rows ->
  exists l1 l2, rows = l1 ++ r :: l2
    /\ forall r', r' ∈ l1 -> (Name r', Address r') <> (Name r, Address r).
Proof.
  revert seen. induction rows as [|x rows IH]; intros seen; simpl.
  { intros Hin. by apply elem_of_nil in Hin. }
  case_bool_decide as Hseen.
  - intros Hin. pose proof (elem_of_drop_duplicates_from _ _ _ Hin) as [_ Hk].
    destruct (IH _ Hin) as (l1 & l2 & -> & Hl1).
    exists (x :: l1), l2. split; [done|]. intros r' Hr'.
    apply elem_of_cons in Hr' as [->|Hr']; [|by apply Hl1].
    intros Heq. apply Hk. by rewrite <- Heq.
  - intros Hin. apply elem_of_cons in Hin as [->|Hin].
    { exists [], rows. split; [done|]. intros r' Hr'. by apply elem_of_nil in Hr'. }
    pose proof (elem_of_drop_duplicates_from _ _ _ Hin) as [_ Hk].
    destruct (IH _ Hin) as (l1 & l2 & -> & Hl1).
    exists (x :: l1), l2. split; [done|]. intros r' Hr'.
    apply elem_of_cons in Hr' as [->|Hr']; [|by apply Hl1].
    intros Heq. apply Hk. rewrite <- Heq. left.
Qed.

Lemma drop_duplicates_from_idemp seen rows :
  drop_duplicates_from seen (drop_duplicates_from seen rows)
  = drop_duplicates_from seen rows.
Proof.
  revert seen. induction rows as [|x rows IH]; intros seen; simpl; [done|].
  case_bool_decide as Hseen; [apply IH|].
  simpl. rewrite bool_decide_eq_false_2 by done. by rewrite IH.
Qed.

Lemma table_rows_sublist rows :
  source <$> List.filter has_coordinates (List.map (to_row parse_text) rows)
  `sublist_of` rows.
Proof.
  induction rows as [|x rows IH]; simpl; [done|].
  destruct (has_coordinates (to_row parse_text x)); simpl;
    [by apply sublist_skip | by apply sublist_cons].
Qed.
End TableOrder.

(** X22. The table of a city keeps the records in the order they were
    collected; of the records that share a name and an address it is the
    first one collected that stays; and dropping the duplicates of a list
    that has none left changes nothing. *)
Theorem city_table_keeps_first (parse_text : list N -> option Q)
    (farmacias : list pharmacy_data) :
  source <$> city_table parse_text farmacias `sublist_of` farmacias
  /\ (forall r, r ∈ drop_duplicates farmacias ->
        exists l1 l2, farmacias = l1 ++ r :: l2
          /\ forall r', r' ∈ l1 -> (Name r', Address r') <> (Name r, Address r))
  /\ drop_duplicates (drop_duplicates farmacias) = drop_duplicates farmacias
  /\ (length (city_table parse_text farmacias) <= length farmacias)%nat.
Proof.
  assert (Hsub : source <$> city_table parse_text farmacias `sublist_of` farmacias).
  { unfold city_table. etransitivity; [apply table_rows_sublist|].
    apply drop_duplicates_from_sublist. }
  split; [done|]. split; [apply drop_duplicates_from_first|].
  split; [apply drop_duplicates_from_idemp|].
  apply sublist_length in Hsub. by rewrite length_fmap in Hsub.
Qed.

Section Files.
Variable nfkd : list N -> list N.
Variable parse_text : list N -> option Q.
Implicit Types (files : gmap (list N) (list table_row)).
Implicit Types (items : list (list N * list pharmacy_data)).

Lemma replace_spaces_word (s : list N) :
  (forall c, c ∈ s -> is_word c = true \/ c = 32%N) ->
  Forall (fun c => is_word c = true) (replace_spaces s).
Proof.
  intros Hs. unfold replace_spaces. apply Forall_forall. intros c Hc.
  apply list_elem_of_In, in_map_iff in Hc as (c0 & <- & Hc0).
  apply list_elem_of_In in Hc0.
  destruct (N.eqb_spec c0 32) as [->|Hne]; [done|].
  by destruct (Hs c0 Hc0).
Qed.

Lemma foldl_write_city items : forall files,
  (forall name rows,
     foldl (write_city nfkd parse_text) files items !! name = Some rows ->
     files !! name = Some rows
     \/ exists item, item ∈ items /\ name = output_filename nfkd item.1
                     /\ rows = city_table parse_text item.2)
  /\ (forall item, item ∈ items ->
        is_Some (foldl (write_city nfkd parse_text) files items
                 !! output_filename nfkd item.1))
  /\ (forall name, is_Some (files !! name) ->
        is_Some (foldl (write_city nfkd parse_text) files items !! name)).
Proof.
  induction items as [|item items IH]; intros files.
  { split; [by left|]. split; [|done]. intros item Hin. by apply elem_of_nil in Hin. }
  simpl. destruct (IH (write_city nfkd parse_text files item)) as (Hfrom & Hall & Hkeep).
  split; [|split].
  - intros name rows Hl. destruct (Hfrom name rows Hl) as [Hw|(it & Hin & -> & ->)].
    + unfold write_city in Hw. apply lookup_insert_Some in Hw as [[<- <-]|[_ Hw]].
      * right. exists item. split; [left | done].
      * by left.
    + right. exists it. split; [by right | done].
  - intros it Hin. apply elem_of_cons in Hin as [->|Hin]; [|by apply Hall].
    apply Hkeep. unfold write_city. rewrite lookup_insert_eq. by eexists.
  - intros name Hsome. apply Hkeep. unfold write_city.
    destruct (decide (output_filename nfkd item.1 = name)) as [<-|Hne].
    + rewrite lookup_insert_eq. by eexists.
    + by rewrite lookup_insert_ne.
Qed.

Lemma elem_of_items_in_order (areas : list (list N * list (list N)))
    (companies : gmap (list N) (list pharmacy_data)) (city : list N)
    (l : list pharmacy_data) :
  (city, l) ∈ items_in_order areas companies <->
  city ∈ areas.*1 /\ companies !! city = Some l.
Proof.
  unfold items_in_order. rewrite list_elem_of_omap. split.
  - intros ([c b] & Hin & Heq). simpl in Heq.
    destruct (companies !! c) as [l0|] eqn:Hl; [|done]. simpl in Heq.
    injection Heq as <- <-. split; [|done].
    apply list_elem_of_fmap. by exists (c, b).
  - intros [Hin Hl]. apply list_elem_of_fmap in Hin as ([c b] & -> & Hin).
    exists (c, b). split; [done|]. cbn [fst]. simpl in Hl. by rewrite Hl.
Qed.
End Files.

(** X23. The name of an output file is "restaurantes_", then letters,
    digits and underscores only, then ".json": it holds no space, no
    slash, no backslash and no other dot, and it is ASCII, whatever the
    name of the city. *)
Theorem output_filename_safe (nfkd : list N -> list N) (city : list N) :
  exists body,
    output_filename nfkd city = u "restaurantes_" ++ body ++ u ".json"
    /\ Forall (fun c => is_word c = true) body
    /\ (forall c, c ∈ output_filename nfkd city ->
          is_ascii c = true
          /\ c <> 32%N /\ c <> 47%N /\ c <> 92%N
          /\ (is_word c = true \/ c = 46%N)).
Proof.
  exists (replace_spaces (normalize_name nfkd city)).
  assert (Hbody : Forall (fun c => is_word c = true)
                    (replace_spaces (normalize_name nfkd city))).
  { apply replace_spaces_word. intros c Hc.
    by destruct (normalize_name_chars nfkd city c Hc). }
  assert (Hname : output_filename nfkd city
                  = restaurantes_ ++ replace_spaces (normalize_name nfkd city)
                    ++ dot_json).
  { unfold output_filename, replace_spaces. by rewrite !map_app. }
  split; [done|]. split; [done|].
  assert (Hword : forall c, is_word c = true ->
    is_ascii c = true /\ c <> 32%N /\ c <> 47%N /\ c <> 92%N
    /\ (is_word c = true \/ c = 46%N)).
  { intros c Hw. split; [by apply is_word_ascii|].
    repeat split; try (intros ->; done). by left. }
  assert (Hpre : Forall (fun c => is_word c = true) restaurantes_).
  { refine (bool_decide_unpack _ _). vm_compute. exact I. }
  assert (Hext : Forall (fun c => is_word c = true) (tail dot_json)).
  { refine (bool_decide_unpack _ _). vm_compute. exact I. }
  rewrite Forall_forall in Hpre, Hext, Hbody.
  intros c. rewrite Hname. intros Hin.
  apply elem_of_app in Hin as [Hin|Hin]; [by apply Hword, Hpre|].
  apply elem_of_app in Hin as [Hin|Hin]; [by apply Hword, Hbody|].
  unfold dot_json in Hin.
  apply elem_of_cons in Hin as [->|Hin]; [repeat split; try done; by right|].
  by apply Hword, Hext.
Qed.

Lemma total_farmacias_ge (items : list (list N * list pharmacy_data))
    (item : list N * list pharmacy_data) :
  item ∈ items -> (length item.2 <= total_farmacias items)%nat.
Proof.
  induction items as [|x items IH]; intros Hin; [by apply elem_of_nil in Hin|].
  simpl. apply elem_of_cons in Hin as [->|Hin]; [lia|].
  specialize (IH Hin). lia.
Qed.

(** X24. [main] writes nothing when the run holds no record, which is
    exactly when the total it logs is zero. Otherwise
    every file it writes is named after a city that has records and holds
    the table of such a city, and every city that has records finds a file
    under its name. *)
Theorem main_writes_city_tables (nfkd : list N -> list N)
    (parse_text : list N -> option Q) (w : world)
    (file : option (list (list N))) :
  let files := (main nfkd parse_text w file).1 in
  let st := (main nfkd parse_text w file).2 in
  st = collect_data w file
  /\ (all_companies st = ∅ -> files = ∅)
  /\ (all_companies st = ∅ <->
      total_farmacias (items_in_order CIDADES_E_BAIRROS (all_companies st)) = 0%nat)
  /\ (forall name rows, files !! name = Some rows ->
        exists city farmacias,
          all_companies st !! city = Some farmacias /\ farmacias <> []
          /\ name = output_filename nfkd city
          /\ rows = city_table parse_text farmacias)
  /\ (forall city farmacias,
        all_companies st !! city = Some farmacias ->
        is_Some (files !! output_filename nfkd city)).
Proof.
  intros files st. subst files st. unfold main.
  assert (Hkeys : forall city l,
    all_companies (collect_data w file) !! city = Some l ->
    l <> [] /\ city ∈ CIDADES_E_BAIRROS.*1).
  { intros city l. apply (collect_over_ind w file (fun areas st =>
      forall city l, all_companies st !! city = Some l ->
                     l <> [] /\ city ∈ areas.*1)).
    - intros c l0 Hl. simpl in Hl. by rewrite lookup_empty in Hl.
    - intros before [c bairros] IH c' l0. rewrite all_companies_collect_city.
      rewrite fmap_app. case_decide as Hc.
      + destruct Hc as [-> Hne]. intros [= <-]. split.
        * intros Hnil. apply app_eq_nil in Hnil as [_ ?]. done.
        * apply elem_of_app. right. left.
      + intros Hl. destruct (IH c' l0 Hl). split; [done|].
        apply elem_of_app. by left. }
  assert (Htotal : all_companies (collect_data w file) = ∅ <->
    total_farmacias (items_in_order CIDADES_E_BAIRROS
                       (all_companies (collect_data w file))) = 0%nat).
  { split.
    - intros ->. unfold items_in_order.
      generalize CIDADES_E_BAIRROS. intros areas.
      induction areas as [|a areas IH]; [done|]. simpl in *.
      by rewrite lookup_empty.
    - intros Hzero. apply map_empty. intros city.
      destruct (all_companies (collect_data w file) !! city) as [l|] eqn:Hl; [|done].
      exfalso. destruct (Hkeys city l Hl) as [Hne Hin].
      assert (Hitem : (city, l) ∈ items_in_order CIDADES_E_BAIRROS
                                     (all_companies (collect_data w file))).
      { by apply elem_of_items_in_order. }
      apply total_farmacias_ge in Hitem. rewrite Hzero in Hitem.
      destruct l; [done|]. simpl in Hitem. lia. }
  case_decide as Hempty; cbn [fst snd].
  { split; [done|]. split; [done|]. split; [done|]. split.
    - intros name rows Hl. by rewrite lookup_empty in Hl.
    - intros city l. rewrite Hempty. by rewrite lookup_empty. }
  destruct (foldl_write_city nfkd parse_text
              (items_in_order CIDADES_E_BAIRROS (all_companies (collect_data w file)))
              ∅) as (Hfrom & Hall & _).
  split; [done|]. split; [done|]. split; [done|]. split.
  - intros name rows Hl. destruct (Hfrom name rows Hl) as [He|([c l] & Hin & -> & ->)].
    { by rewrite lookup_empty in He. }
    apply elem_of_items_in_order in Hin as [_ Hl'].
    exists c, l. split; [done|]. split; [|done]. by destruct (Hkeys c l Hl').
  - intros city l Hl. apply (Hall (city, l)).
    apply elem_of_items_in_order. split; [|done]. by destruct (Hkeys city l Hl).
Qed.

Lemma main_writes_city_tables_witness :
  let files := (main nfkd_latin1 no_text_is_numeric demo_world None).1 in
  dom files = {[ u "restaurantes_Campinas.json";
                  u "restaurantes_Ribeirao_Preto.json" ]}
  /\ is_Some (files !! output_filename nfkd_latin1 (u "Ribeirão Preto")).
Proof.
  intros files. split; [by vm_compute|].
  eapply (proj2 (proj2 (proj2 (proj2 (main_writes_city_tables nfkd_latin1
            no_text_is_numeric demo_world None))))).
  vm_compute. reflexivity.
Defined.

(* ===================================================================== *)
(** * The coordinate filter, in the files [main] writes *)
(* ===================================================================== *)

Section CityFiles.
Variable nfkd : list N -> list N.
Variable parse_text : list N -> option Q.

(** The cities that have a list at the end of a run are cities of the
    run. *)
Lemma all_companies_keys (w : world) (file : option (list (list N)))
    (areas : list (list N * list (list N))) (city : list N)
    (l : list pharmacy_data) :
  all_companies (collect_over w areas file) !! city = Some l ->
  city ∈ areas.*1.
Proof.
  revert city l. apply (collect_over_ind w file (fun areas st =>
    forall city l, all_companies st !! city = Some l -> city ∈ areas.*1)).
  - intros c l0 Hl. simpl in Hl. by rewrite lookup_empty in Hl.
  - intros before [c bairros] IH c' l0. rewrite all_companies_collect_city.
    rewrite fmap_app. case_decide as Hc.
    + destruct Hc as [-> _]. intros _. apply elem_of_app. right. left.
    + intros Hl. apply elem_of_app. left. by eapply IH.
Qed.

Lemma NoDup_fmap_eq {A B : Type} (f : A -> B) (l : list A) (x y : A) :
  NoDup (f <$> l) -> x ∈ l -> y ∈ l -> f x = f y -> x = y.
Proof.
  induction l as [|a l IH]; intros Hnd Hx Hy Hf; [by apply elem_of_nil in Hx|].
  rewrite fmap_cons in Hnd. apply NoDup_cons in Hnd as [Hnot Hnd].
  apply elem_of_cons in Hx as [->|Hx]; apply elem_of_cons in Hy as [->|Hy].
  - done.
  - exfalso. apply Hnot. rewrite Hf. apply list_elem_of_fmap. by exists y.
  - exfalso. apply Hnot. rewrite <- Hf. apply list_elem_of_fmap. by exists x.
  - by apply IH.
Qed.

(** With file names that tell the cities apart, the file of a city that
    has records holds the table of that city. *)
Lemma main_city_file (w : world) (file : option (list (list N)))
    (city : list N) (farmacias : list pharmacy_data) :
  NoDup (output_filename nfkd <$> CIDADES_E_BAIRROS.*1) ->
  all_companies (collect_data w file) !! city = Some farmacias ->
  (main nfkd parse_text w file).1 !! output_filename nfkd city
  = Some (city_table parse_text farmacias).
Proof.
  intros Hnames Hcity. unfold main.
  case_decide as Hempty; [by rewrite Hempty, lookup_empty in Hcity|].
  cbn [fst].
  destruct (foldl_write_city nfkd parse_text
              (items_in_order CIDADES_E_BAIRROS (all_companies (collect_data w file)))
              ∅) as (Hfrom & Hall & _).
  assert (Hin : city ∈ CIDADES_E_BAIRROS.*1)
    by by eapply all_companies_keys.
  destruct (Hall (city, farmacias)) as [rows Hrows].
  { by apply elem_of_items_in_order. }
  cbn [fst] in Hrows. rewrite Hrows. f_equal.
  destruct (Hfrom _ _ Hrows) as [He|([c l] & Hitem & Hname & ->)].
  { by rewrite lookup_empty in He. }
  apply elem_of_items_in_order in Hitem as [Hc Hl]. cbn [fst snd] in *.
  assert (c = city) as ->.
  { symmetry in Hname. by eapply NoDup_fmap_eq. }
  congruence.
Qed.
End CityFiles.

(** C7. [main] writes, for each city that has records, the table of the
    city to the file named after it (the three cities having three
    different file names). In that file every row comes from a record of
    the city that survived the duplicate drop and whose latitude and
    longitude both read as numbers. So a record with a missing
    coordinate, or with a coordinate that does not read as a number, has
    no row in the file; and every record that survived the duplicate drop
    and whose two coordinates read as numbers has its row in the file.
    The duplicate drop keeps, for each name and address, one of the
    records that carry them. The same holds of the table of any list of
    records. *)
Theorem coordinate_filter (nfkd : list N -> list N)
    (parse_text : list N -> option Q) :
  let numeric (cell : option coord) := is_Some (to_numeric parse_text cell) in
  let filtered (farmacias : list pharmacy_data) (table : list table_row) :=
    (forall row, row ∈ table ->
       numeric (Latitude (source row)) /\ numeric (Longitude (source row))
       /\ source row ∈ drop_duplicates farmacias
       /\ row = to_row parse_text (source row))
    /\ (forall r, ~ numeric (Latitude r) \/ ~ numeric (Longitude r) ->
          forall row, row ∈ table -> source row <> r)
    /\ (forall r, r ∈ drop_duplicates farmacias ->
          numeric (Latitude r) -> numeric (Longitude r) ->
          to_row parse_text r ∈ table) in
  (forall (w : world) (file : option (list (list N))) (city : list N)
          (farmacias : list pharmacy_data),
     NoDup (output_filename nfkd <$> CIDADES_E_BAIRROS.*1) ->
     all_companies (collect_data w file) !! city = Some farmacias ->
     exists table,
       (main nfkd parse_text w file).1 !! output_filename nfkd city = Some table
       /\ filtered farmacias table)
  /\ (forall farmacias, filtered farmacias (city_table parse_text farmacias))
  /\ (forall cell, numeric cell <->
        (exists q, cell = Some (CNum q))
        \/ (exists s q, cell = Some (CText s) /\ parse_text s = Some q))
  /\ ~ numeric None
  /\ (forall farmacias,
        (forall r, r ∈ drop_duplicates farmacias -> r ∈ farmacias)
        /\ (forall r, r ∈ farmacias ->
              exists r', r' ∈ drop_duplicates farmacias
                         /\ Name r' = Name r /\ Address r' = Address r)
        /\ NoDup ((fun r => (Name r, Address r)) <$> drop_duplicates farmacias)).
Proof.
  intros numeric filtered.
  assert (Hfiltered : forall farmacias,
            filtered farmacias (city_table parse_text farmacias)).
  { intros farmacias. subst filtered numeric. cbn beta. split; [|split].
    - intros row Hrow.
      apply elem_of_city_table in Hrow as (r & Hr & -> & H1 & H2).
      by repeat split.
    - intros r Hbad row Hrow Heq.
      apply elem_of_city_table in Hrow as (r0 & Hr & -> & H1 & H2).
      simpl in Heq. subst r0. by destruct Hbad.
    - intros r Hr H1 H2. apply elem_of_city_table. by exists r. }
  split; [|split; [done|split; [|split]]].
  - intros w file city farmacias Hnames Hcity.
    exists (city_table parse_text farmacias).
    split; [by apply main_city_file | apply Hfiltered].
  - subst numeric. intros [[q|s]|]; simpl.
    + split; [intros _; left; by exists q | by eexists].
    + split.
      * intros [q Hq]. right. by exists s, q.
      * intros [[q [=]]|(s' & q & [= <-] & Hq)]. by exists q.
    + split; [by intros [? ?]|]. by intros [[q [=]]|(s' & q & [=] & _)].
  - by intros [? ?].
  - intros farmacias. split; [|split].
    + intros r Hr. by apply elem_of_drop_duplicates_from in Hr as [Hr _].
    + intros r Hr. apply drop_duplicates_from_covers; [done|].
      apply not_elem_of_nil.
    + apply drop_duplicates_from_NoDup.
Qed.

(** The file of Campinas in the demo run: the record of [p3], whose
    latitude is the text "abc", has no row in it; the record of [p1] has
    one. *)
Lemma coordinate_filter_witness :
  let files := (main nfkd_latin1 no_text_is_numeric demo_world None).1 in
  exists r3 r1 table,
    process_pharmacy demo_world (u "p3") (u "Campinas") = Some r3
    /\ process_pharmacy demo_world (u "p1") (u "Campinas") = Some r1
    /\ all_companies (collect_data demo_world None) !! u "Campinas"
       = Some [r3; r1]
    /\ files !! u "restaurantes_Campinas.json" = Some table
    /\ (forall row, row ∈ table -> source row <> r3)
    /\ to_row no_text_is_numeric r1 ∈ table.
Proof.
  intros files.
  assert (Hnames : NoDup (output_filename nfkd_latin1 <$> CIDADES_E_BAIRROS.*1)).
  { refine (bool_decide_unpack _ _). vm_compute. exact I. }
  edestruct (proj1 (coordinate_filter nfkd_latin1 no_text_is_numeric)
               demo_world None (u "Campinas"))
    as (table & Hfile & _ & Hout & Hin);
    [exact Hnames | vm_compute; reflexivity |].
  eexists _, _, table.
  split; [vm_compute; reflexivity|]. split; [vm_compute; reflexivity|].
  split; [vm_compute; reflexivity|]. split; [exact Hfile|]. split.
  - apply Hout. left. vm_compute. by intros [? ?].
  - apply Hin.
    + vm_compute. right. left.
    + vm_compute. by eexists.
    + vm_compute. by eexists.
Defined.

(* ===================================================================== *)
(** * Further properties of [normalize_name] *)
(* ===================================================================== *)

Section Subsequence.
Implicit Types (c : N) (s : list N) (prev : option N).

Lemma List_filter_sublist (f : N -> bool) s : List.filter f s `sublist_of` s.
Proof.
  induction s as [|c s IH]; simpl; [done|].
  destruct (f c); [by apply sublist_skip | by apply sublist_cons].
Qed.

Lemma List_filter_sublist_mono (f : N -> bool) (s1 s2 : list N) :
  s1 `sublist_of` s2 -> List.filter f s1 `sublist_of` List.filter f s2.
Proof.
  induction 1 as [|c s1 s2 _ IH|c s1 s2 _ IH]; simpl; [done| |].
  - destruct (f c); [by apply sublist_skip | done].
  - destruct (f c); [by apply sublist_cons | done].
Qed.

Lemma remove_suffixes_sublist s : forall prev (skip : nat),
  remove_suffixes prev skip s `sublist_of` s.
Proof.
  induction s as [|c s IH]; intros prev skip; simpl; [done|].
  destruct skip as [|k]; [|by apply sublist_cons].
  destruct (match_suffix_at prev (c :: s));
    [by apply sublist_cons | by apply sublist_skip].
Qed.

Lemma collapse_whitespace_nonspace s : forall in_run : bool,
  List.filter (fun c => negb (isspace c)) (collapse_whitespace in_run s)
  = List.filter (fun c => negb (isspace c)) s.
Proof.
  induction s as [|c s IH]; intros in_run; simpl; [done|].
  destruct (isspace c) eqn:Hc; simpl.
  - destruct in_run; simpl; by rewrite ?isspace_32, IH.
  - by rewrite Hc, IH.
Qed.

Lemma collapse_whitespace_length s : forall in_run : bool,
  (length (collapse_whitespace in_run s) <= length s)%nat.
Proof.
  induction s as [|c s IH]; intros in_run; simpl; [done|].
  pose proof (IH true). pose proof (IH false).
  destruct (isspace c); [destruct in_run|]; simpl; lia.
Qed.

Lemma strip_sublist s : strip s `sublist_of` s.
Proof.
  destruct (strip_infix s) as (l & r & Heq). rewrite Heq at 2.
  apply sublist_inserts_l, sublist_inserts_r. done.
Qed.
End Subsequence.

(** X25. [normalize_name] invents no character: what it returns, spaces
    left aside, is what is left of the NFKD form of the name after
    deleting some of its characters, in the same order; and the result is
    never longer than that form. *)
Theorem normalize_name_subsequence (nfkd : list N -> list N) (name : list N) :
  List.filter (fun c => negb (isspace c)) (normalize_name nfkd name)
    `sublist_of` nfkd name
  /\ (length (normalize_name nfkd name) <= length (nfkd name))%nat.
Proof.
  unfold normalize_name. destruct name as [|a name'].
  { split; [apply sublist_nil_l | simpl; lia]. }
  set (x0 := nfkd (a :: name')).
  assert (H2 : remove_punctuation (remove_suffixes None 0 (ascii_ignore x0))
               `sublist_of` x0).
  { etransitivity; [apply List_filter_sublist|].
    etransitivity; [apply remove_suffixes_sublist|]. apply List_filter_sublist. }
  split.
  - etransitivity; [apply List_filter_sublist_mono, strip_sublist|].
    rewrite collapse_whitespace_nonspace.
    etransitivity; [apply List_filter_sublist | exact H2].
  - pose proof (sublist_length _ _ (strip_sublist
      (collapse_whitespace false
         (remove_punctuation (remove_suffixes None 0 (ascii_ignore x0)))))) as H4.
    pose proof (collapse_whitespace_length
      (remove_punctuation (remove_suffixes None 0 (ascii_ignore x0))) false) as H3.
    apply sublist_length in H2. lia.
Qed.

(** X26. A name whose NFKD form has no ASCII letter, digit or underscore
    normalises to the empty string. *)
Theorem normalize_name_no_word (nfkd : list N -> list N) (name : list N) :
  (forall c, c ∈ nfkd name -> is_ascii c = true -> is_word c = false) ->
  normalize_name nfkd name = [].
Proof.
  intros Hno. unfold normalize_name. destruct name as [|a name']; [done|].
  set (x0 := nfkd (a :: name')) in *.
  set (x2 := remove_punctuation (remove_suffixes None 0 (ascii_ignore x0))).
  assert (Hspaces : forall c, c ∈ x2 -> isspace c = true).
  { intros c Hc. apply elem_of_remove_punctuation in Hc as [Hc [Hw|Hs]]; [|done].
    apply elem_of_remove_suffixes in Hc. unfold ascii_ignore in Hc.
    apply list_elem_of_In, filter_In in Hc as [Hc Ha].
    apply list_elem_of_In in Hc. rewrite (Hno c Hc Ha) in Hw. done. }
  assert (Hall : Forall (fun c => isspace c = true) (collapse_whitespace false x2)).
  { apply Forall_forall. intros c Hc.
    apply elem_of_collapse_whitespace in Hc as [->|[Hc Hns]]; [done|].
    rewrite (Hspaces c Hc) in Hns. done. }
  unfold strip, rstrip. by rewrite (lstrip_all_space _ Hall).
Qed.

Lemma normalize_name_no_word_witness :
  normalize_name nfkd_latin1 (u "× 5 ÷") = u "5"
  /\ normalize_name nfkd_latin1 (u "× & ÷ - ¿?") = [].
Proof.
  split; [vm_compute; reflexivity|].
  apply normalize_name_no_word. intros c Hc.
  vm_compute in Hc.
  repeat (apply elem_of_cons in Hc as [->|Hc]; [by vm_compute|]).
  by apply elem_of_nil in Hc.
Defined.

(** X27. With an NFKD that leaves ASCII text as it is, normalising twice a
    name made of words separated by single spaces gives what normalising
    it once gives. *)
Theorem normalize_name_idempotent_on_words (nfkd : list N -> list N)
    (ws : list (list N)) :
  (forall s, Forall (fun c => is_ascii c = true) s -> nfkd s = s) ->
  Forall is_token ws ->
  normalize_name nfkd (normalize_name nfkd (join [32%N] ws))
  = normalize_name nfkd (join [32%N] ws).
Proof.
  intros Hascii Hws.
  assert (Hjoin : forall vs, Forall is_token vs ->
    nfkd (join [32%N] vs) = join [32%N] vs).
  { intros vs Hvs. apply Hascii. apply Forall_forall. intros c Hc.
    destruct (join_words_chars vs c) as [?| ->]; [|done|by apply is_word_ascii|done].
    eapply Forall_impl; [exact Hvs|]. by intros v [_ ?]. }
  rewrite (normalize_name_words nfkd ws Hws (Hjoin ws Hws)).
  set (kept := List.filter (fun w => negb (is_legal_suffix w)) ws).
  assert (Hkept : Forall is_token kept) by by apply filter_tokens.
  rewrite (normalize_name_words nfkd kept Hkept (Hjoin kept Hkept)).
  f_equal. subst kept. clear. induction ws as [|v ws IH]; simpl; [done|].
  destruct (is_legal_suffix v) eqn:Hv; simpl; [done|]. by rewrite Hv, IH.
Qed.

Lemma normalize_name_idempotent_on_words_witness :
  normalize_name nfkd_latin1
    (normalize_name nfkd_latin1 (u "Drogaria Sao Joao Ltda EIRELI"))
  = normalize_name nfkd_latin1 (u "Drogaria Sao Joao Ltda EIRELI").
Proof.
  change (u "Drogaria Sao Joao Ltda EIRELI")
    with (join [32%N] (List.map u ["Drogaria"; "Sao"; "Joao"; "Ltda"; "EIRELI"]%string)).
  apply normalize_name_idempotent_on_words; [apply nfkd_latin1_ascii|].
  repeat constructor; by vm_compute.
Defined.
